(** * pylib/components.py: assembling RTOS modules from component fragments

    A shallow embedding of [pylib/components.py] and the properties of its
    typedef sorter, schema merger, sectioned-file parser, component lookup,
    skeleton assembler and module writer.

    Python [str] values are modelled as [string]; a character is a code
    point below 256.  Python exceptions are modelled by the [Raise]
    constructor of [result]. *)

From Stdlib Require Import Ascii String List Arith Lia Bool.
From stdpp Require Import base option list gmap strings.

Open Scope string_scope.
Open Scope list_scope.
Open Scope nat_scope.
#[local] Arguments String.append : simpl nomatch.

(** ** Exceptions and results *)

Inductive exn : Type :=
| Exception (msg : string)
| KeyError (msg : string)
| IndexError (msg : string)
| ValueError (msg : string)
| AssertionError
| SchemaFormatError (msg : string)
| RenderError (name : string)
| OSError (msg : string).

(** [OutOfFuel] is not a Python exception: it marks that the bound given to
    a loop of the model was too small.  It is shown never to be returned. *)
Inductive result (A : Type) : Type :=
| Ok (a : A)
| Raise (e : exn)
| OutOfFuel.
Arguments Ok {A} a.
Arguments Raise {A} e.
Arguments OutOfFuel {A}.

#[global] Instance result_ret : MRet result := λ A a, Ok a.
#[global] Instance result_bind : MBind result := λ A B k m,
  match m with
  | Ok a => k a
  | Raise e => Raise e
  | OutOfFuel => OutOfFuel
  end.

(** A Python [for] loop whose body can raise. *)
Fixpoint for_each {A S} (body : S → A → result S) (xs : list A) (s : S) : result S :=
  match xs with
  | [] => Ok s
  | x :: xs' => s' ← body s x; for_each body xs' s'
  end.

(** ** Python string primitives *)

Module PyStr.

(** [str.isspace] on a code point below 256. *)
Definition is_space (c : ascii) : bool :=
  let n := nat_of_ascii c in
  (((9 <=? n) && (n <=? 13)) || ((28 <=? n) && (n <=? 32))
   || (n =? 133) || (n =? 160))%nat.

Definition nl : ascii := ascii_of_nat 10.
Definition nl_s : string := String nl "".

(** [s.split(sep)] for a one-character separator. *)
Fixpoint split_on (sep : ascii) (s : string) : list string :=
  match s with
  | "" => [""]
  | String c s' =>
      if Ascii.eqb c sep then "" :: split_on sep s'
      else match split_on sep s' with
           | h :: t => String c h :: t
           | [] => [String c ""]
           end
  end.

(** [s.split()]: the maximal runs of non-whitespace characters. *)
Fixpoint split_ws (s : string) : list string :=
  match s with
  | "" => []
  | String c s' =>
      if is_space c then split_ws s'
      else match s' with
           | "" => [String c ""]
           | String c' _ =>
               if is_space c' then String c "" :: split_ws s'
               else match split_ws s' with
                    | h :: t => String c h :: t
                    | [] => [String c ""]
                    end
           end
  end.

(** [sep.join(l)] *)
Definition join (sep : string) (l : list string) : string := String.concat sep l.

(** [s.endswith(suf)]: some suffix of [s] is [suf]. *)
Fixpoint endswith (s suf : string) : bool :=
  String.eqb s suf ||
  match s with
  | "" => false
  | String _ s' => endswith s' suf
  end.

(** [s.startswith(pre)] *)
Definition startswith (s pre : string) : bool := String.prefix pre s.

(** [s[:-1]] *)
Fixpoint drop_last (s : string) : string :=
  match s with
  | "" => ""
  | String c s' => match s' with "" => "" | String _ _ => String c (drop_last s') end
  end.

(** [s[3:-3]] *)
Definition slice_3_m3 (s : string) : string :=
  String.substring 3 (String.length s - 3 - 3)%nat s.

(** [s.lstrip()], [s.rstrip()], [s.strip()] *)
Fixpoint lstrip (s : string) : string :=
  match s with
  | "" => ""
  | String c s' => if is_space c then lstrip s' else s
  end.

Fixpoint rstrip (s : string) : string :=
  match s with
  | "" => ""
  | String c s' =>
      match rstrip s' with
      | "" => if is_space c then "" else String c ""
      | r => String c r
      end
  end.

Definition strip (s : string) : string := rstrip (lstrip s).

(** [s.replace(a, b)] for one-character [a] and [b]. *)
Fixpoint replace_char (a b : ascii) (s : string) : string :=
  match s with
  | "" => ""
  | String c s' => String (if Ascii.eqb c a then b else c) (replace_char a b s')
  end.

(** [l[-1]] for the list [x :: l], and [l[1:-1]]. *)
Definition last_item {A} (x : A) (l : list A) : A := List.last l x.
Definition middle {A} (l : list A) : list A := removelast (tail l).

(** [l.remove(x)]: delete the first item equal to [x]; [None] stands for
    the [ValueError] raised when there is none. *)
Fixpoint list_remove `{EqDecision A} (x : A) (l : list A) : option (list A) :=
  match l with
  | [] => None
  | y :: l' => if decide (y = x) then Some l' else cons y <$> list_remove x l'
  end.

(** [f.readlines()]: the lines of a text, each keeping its newline. *)
Fixpoint readlines_go (cur : string) (s : string) : list string :=
  match s with
  | "" => match cur with "" => [] | _ => [String.rev cur] end
  | String c s' =>
      if Ascii.eqb c nl then String.rev (String c cur) :: readlines_go "" s'
      else readlines_go (String c cur) s'
  end.
Definition readlines (s : string) : list string := readlines_go "" s.

End PyStr.
Import PyStr.

(** ** TypedefSorter: [sort_typedefs] *)

(** A typedef is the pair [(new_type, old_type)] of the source. *)
Abbreviation typedef := (string * string)%type.

(** The body of the line loop, lines 98-108. *)
Definition parse_typedef_line (l : string) : result (option typedef) :=
  if String.eqb l "" then Ok None
  else if negb (endswith l ";") then
    Raise (Exception ("Expect a typedef line to end with ';' (" +:+ l +:+ ")"))
  else
    let parts := split_ws (drop_last l) in
    match parts with
    | [] => Raise (IndexError "list index out of range")
    | p0 :: rest =>
        if negb (String.eqb p0 "typedef") then
          Raise (Exception "Expect typedef line to startwith 'typedef'")
        else
          let new_type := last_item p0 rest in
          let old_type := join " " (middle parts) in
          Ok (Some (new_type, old_type))
    end.

(** The loop over [typedef_lines.split('\n')], lines 97-108. *)
Fixpoint parse_typedefs (ls : list string) : result (list typedef) :=
  match ls with
  | [] => Ok []
  | l :: ls' =>
      t ← parse_typedef_line l;
      rest ← parse_typedefs ls';
      Ok (match t with Some td => td :: rest | None => rest end)
  end.

(** The two inner loops (lines 115-118 and 125-128) have one shape: walk a
    copy of [typedefs]; an item that passes the test is appended to [r] and
    removed from [typedefs]. *)
Definition move_step (test : typedef → bool)
    (st : list typedef * list typedef) (td : typedef)
  : result (list typedef * list typedef) :=
  let '(r, typedefs) := st in
  if test td then
    match list_remove td typedefs with
    | Some typedefs' => Ok (r ++ [td], typedefs')
    | None => Raise (ValueError "list.remove(x): x not in list")
    end
  else Ok (r, typedefs).

Definition move_matching (test : typedef → bool) (r typedefs : list typedef)
  : result (list typedef * list typedef) :=
  for_each (move_step test) typedefs (r, typedefs).

(** [old not in new_types] *)
Definition not_cross_ref (new_types : list string) (td : typedef) : bool :=
  negb (bool_decide (td.2 ∈ new_types)).

(** [old == check_type] *)
Definition refers_to (check_type : string) (td : typedef) : bool :=
  String.eqb td.2 check_type.

(** The [while i < len(r)] loop, lines 121-128. *)
Fixpoint unlock_loop (fuel i : nat) (r typedefs : list typedef)
  : result (list typedef) :=
  match r !! i with
  | None => Ok r
  | Some (check_type, _) =>
      match fuel with
      | 0 => OutOfFuel
      | S fuel' =>
          '(r', typedefs') ← move_matching (refers_to check_type) r typedefs;
          unlock_loop fuel' (S i) r' typedefs'
      end
  end.

(** Lines 110-128: the first pass and the unlocking pass, on parsed pairs.
    The bound on the loop is the number of pairs: each turn of the loop
    visits one placed pair. *)
Definition sort_pairs (typedefs : list typedef) : result (list typedef) :=
  let new_types := map fst typedefs in
  '(r, typedefs') ← move_matching (not_cross_ref new_types) [] typedefs;
  unlock_loop (length typedefs) 0 r typedefs'.

(** ['typedef {} {};'.format(old, new)] *)
Definition typedef_line (td : typedef) : string :=
  "typedef " +:+ td.2 +:+ " " +:+ td.1 +:+ ";".

(** [sort_typedefs(typedef_lines)] *)
Definition sort_typedefs (typedef_lines : string) : result string :=
  typedefs ← parse_typedefs (split_on nl typedef_lines);
  r ← sort_pairs typedefs;
  Ok (join nl_s (map typedef_line r)).

(** The pairs that the first pass places: their old type is no new name of
    the block. *)
Definition base_cases (T : list typedef) : list typedef :=
  List.filter (not_cross_ref (map fst T)) T.

(** The invariant of the unlocking loop at index [i], for the parsed pairs
    [T]: nothing is lost, the base cases come first, every later placed
    pair follows a visited pair that declares its old type, no pending pair
    refers to a visited pair, and pending pairs are no base cases. *)
Record sorted_inv (T : list typedef) (i : nat) (r typedefs : list typedef) : Prop := {
  inv_perm : r ++ typedefs ≡ₚ T;
  inv_base : ∃ placed, r = base_cases T ++ placed;
  inv_producer : ∀ j q, r !! j = Some q → length (base_cases T) ≤ j →
    ∃ k p, k < i ∧ k < j ∧ r !! k = Some p ∧ p.1 = q.2;
  inv_saturated : ∀ k p q, k < i → r !! k = Some p → q ∈ typedefs → q.2 ≠ p.1;
  inv_pending : ∀ q, q ∈ typedefs → q.2 ∈ map fst T
}.

(** A pair is unlockable when it is a base case or refers to the new name
    of an unlockable pair. *)
Inductive unlockable (T : list typedef) : typedef → Prop :=
| unlockable_base p :
    p ∈ T → p.2 ∉ map fst T → unlockable T p
| unlockable_step p q :
    unlockable T p → q ∈ T → q.2 = p.1 → unlockable T q.

(** Every character of [s] passes [f]. *)
Fixpoint all_chars (f : ascii → bool) (s : string) : bool :=
  match s with
  | "" => true
  | String c s' => f c && all_chars f s'
  end.

(** A token is what [str.split()] returns: not empty, no whitespace. *)
Definition token (s : string) : Prop :=
  s ≠ "" ∧ all_chars (λ c, negb (is_space c)) s = true.

(** [s] has no newline. *)
Definition no_nl (s : string) : Prop :=
  all_chars (λ c, negb (Ascii.eqb c nl)) s = true.

(** [s] is empty or starts with whitespace. *)
Definition starts_space (s : string) : Prop :=
  match s with
  | "" => True
  | String c _ => is_space c = true
  end.

(** What a parsed pair looks like: the new name is one token and the old
    type is tokens joined by single spaces. *)
Definition valid_pair (p : typedef) : Prop :=
  token p.1 ∧ ∃ toks, Forall token toks ∧ p.2 = join " " toks.

(** A line of the grammar [typedef <type-expression> <name>;]: it ends with
    the terminator, starts with the keyword and has a type expression of at
    least one token before the name. *)
Definition well_formed_line (l : string) : bool :=
  endswith l ";" &&
  match split_ws (drop_last l) with
  | kw :: _ :: _ :: _ => String.eqb kw "typedef"
  | _ => false
  end.

(** A block is well formed when each line is empty or of the grammar. *)
Definition well_formed (x : string) : bool :=
  forallb (λ l, String.eqb l "" || well_formed_line l) (split_on nl x).

(** The pair [p] is rendered on line [i] of the text [out]. *)
Definition line_at (out : string) (i : nat) (p : typedef) : Prop :=
  split_on nl out !! i = Some (typedef_line p).

(** ** SchemaMerger: [_merge_schema_entries] *)

#[local] Unset Elimination Schemes.

(** An [xml.etree.ElementTree.Element]: tag, attributes, text and the list
    of child elements. *)
Inductive Element : Type :=
| Elem (tag : string) (attrib : gmap string string) (text : string)
       (children : list Element).
#[local] Set Elimination Schemes.

Definition tag (e : Element) : string := let 'Elem t _ _ _ := e in t.
Definition attrib (e : Element) : gmap string string := let 'Elem _ a _ _ := e in a.
Definition text (e : Element) : string := let 'Elem _ _ x _ := e in x.
Definition children (e : Element) : list Element := let 'Elem _ _ _ cs := e in cs.

(** [len(e)]: the number of children. *)
Definition len (e : Element) : nat := length (children e).

(** [e.attrib['name']]; [None] stands for the [KeyError]. *)
Definition attrib_name (e : Element) : option string := attrib e !! "name".

(** An element of [a] that the dictionary [a_children] refers to.  The
    dictionary and the child list of [a] hold the same object: the entry
    keeps its position in the original child list, its present contents,
    and whether it is still in the child list of [a]. *)
Record a_entry : Type := AEntry {
  ae_index : nat;
  ae_elem : Element;
  ae_in_list : bool
}.

(** The state of the loop over the children of [b]: the dictionary
    [a_children], the original children of [a] ([None] once removed), and
    the children appended to [a]. *)
Record merge_state : Type := MergeState {
  ms_dict : gmap string a_entry;
  ms_slots : list (option Element);
  ms_appended : list Element
}.

(** [{child.attrib['name']: child for child in a}] *)
Fixpoint index_children (i : nat) (cs : list Element) (d : gmap string a_entry)
  : result (gmap string a_entry) :=
  match cs with
  | [] => Ok d
  | c :: cs' =>
      match attrib_name c with
      | None => Raise (KeyError "name")
      | Some n => index_children (S i) cs' (<[n := AEntry i c true]> d)
      end
  end.

(** The double-quote character, for messages. *)
Definition dq : string := String (ascii_of_nat 34) "".

(** The messages of the two [_SchemaFormatError]s. *)
Definition missing_name_message (path : string) : string :=
  "A schema entry under " +:+ dq +:+ path +:+ dq +:+
  " does not contain a name attribute".

Definition conflict_message (path name : string) : string :=
  "Unable to merge two schemas: the entry " +:+ path +:+ "." +:+ name +:+
  " is present in both schemas, but it has children in one and no children in the other. To merge two schemas, corresponding entries both need need to either have child entries or not.".

(** [a.remove(a_child)] and [a.append(b_child)], lines 68-69. *)
Definition replace_entry (name : string) (e : a_entry) (b_child : Element)
    (st : merge_state) : result merge_state :=
  if ae_in_list e then
    Ok (MergeState (<[name := AEntry (ae_index e) (ae_elem e) false]> (ms_dict st))
                   (<[ae_index e := None]> (ms_slots st))
                   (ms_appended st ++ [b_child]))
  else Raise (ValueError "list.remove(x): x not in list").

(** The in-place result of the recursive call on [a_child], line 65. *)
Definition update_entry (name : string) (e : a_entry) (a_child' : Element)
    (st : merge_state) : merge_state :=
  MergeState (<[name := AEntry (ae_index e) a_child' (ae_in_list e)]> (ms_dict st))
             (if ae_in_list e then <[ae_index e := Some a_child']> (ms_slots st)
              else ms_slots st)
             (ms_appended st).

(** [a.append(b_child)], line 71. *)
Definition append_child (b_child : Element) (st : merge_state) : merge_state :=
  MergeState (ms_dict st) (ms_slots st) (ms_appended st ++ [b_child]).

(** The children of [a] after the loop. *)
Definition merged_children (st : merge_state) : list Element :=
  omap id (ms_slots st) ++ ms_appended st.

(** The body of the loop over the children of [b], lines 51-71; [merge] is
    the recursive call. *)
Definition merge_step (merge : Element → Element → string → result Element)
    (path : string) (st : merge_state) (b_child : Element) : result merge_state :=
  match attrib_name b_child with
  | None => Raise (SchemaFormatError (missing_name_message path))
  | Some name =>
      match ms_dict st !! name with
      | Some e =>
          let a_child := ae_elem e in
          if negb (Bool.eqb (len b_child =? 0) (len a_child =? 0)) then
            Raise (SchemaFormatError (conflict_message path name))
          else if negb (len b_child =? 0) && negb (len a_child =? 0) then
            a_child' ← merge a_child b_child (path +:+ "." +:+ name);
            Ok (update_entry name e a_child' st)
          else replace_entry name e b_child st
      | None => Ok (append_child b_child st)
      end
  end.

(** [_merge_schema_entries(a, b, path)]: the contents of [a] afterwards.
    The elements of [b] that are appended to [a] are shared with [b]; [b]
    is not used after the call. *)
Fixpoint _merge_schema_entries (a b : Element) (path : string) {struct b}
  : result Element :=
  match b with
  | Elem _ _ _ b_children =>
      a_children ← index_children 0 (children a) ∅;
      st ← for_each (merge_step (λ a' b', _merge_schema_entries a' b') path)
             b_children (MergeState a_children (Some <$> children a) []);
      Ok (Elem (tag a) (attrib a) (text a) (merged_children st))
  end.

(** Every entry below [e] carries a name attribute and the names of
    siblings are pairwise distinct. *)
Fixpoint wf_schema (e : Element) : bool :=
  match e with
  | Elem _ _ _ cs =>
      forallb (λ c, bool_decide (is_Some (attrib_name c))) cs
      && bool_decide (NoDup (attrib_name <$> cs))
      && forallb wf_schema cs
  end.

(** [conflict acs bcs path p n]: starting from the child lists [acs] and
    [bcs] reached under the dotted path [path], there are same-named entries
    at a corresponding position, under the dotted path [p] and named [n], of
    which exactly one has children. *)
Inductive conflict :
  list Element → list Element → string → string → string → Prop :=
| conflict_here acs bcs ac bc path name :
    ac ∈ acs → bc ∈ bcs →
    attrib_name ac = Some name → attrib_name bc = Some name →
    (len bc =? 0) ≠ (len ac =? 0) →
    conflict acs bcs path path name
| conflict_below acs bcs ac bc path name p n :
    ac ∈ acs → bc ∈ bcs →
    attrib_name ac = Some name → attrib_name bc = Some name →
    len ac ≠ 0 → len bc ≠ 0 →
    conflict (children ac) (children bc) (path +:+ "." +:+ name) p n →
    conflict acs bcs path p n.

(** What the merge must return for the child lists [acs] and [bcs]. *)
Definition merge_outcome {A} (acs bcs : list Element) (path : string)
    (res : result A) : Prop :=
  match res with
  | Ok _ => ∀ p n, ¬ conflict acs bcs path p n
  | Raise e => ∃ p n, e = SchemaFormatError (conflict_message p n)
                      ∧ conflict acs bcs path p n
  | OutOfFuel => False
  end.

(** The dictionary [a_children] refers to children of [a] by their names. *)
Definition indexes (d : gmap string a_entry) (acs : list Element) : Prop :=
  ∀ n, match d !! n with
       | Some e => ae_elem e ∈ acs ∧ attrib_name (ae_elem e) = Some n
                   ∧ ae_in_list e = true
       | None => ∀ c, c ∈ acs → attrib_name c ≠ Some n
       end.

(** ** External collaborators *)

(** A configuration: the dictionary handed to the templating engine. *)
Abbreviation config := (gmap string string).

(** What the file system holds at a path. *)
Inductive fs_node : Type :=
| File (text : string)
| Dir.

Abbreviation filesystem := (gmap string fs_node).

(** The functions that [components.py] imports and does not define:
    [BASE_DIR], [base_path] and [base_to_top_paths] of [pylib/utils.py],
    [pystache.render] under the module's settings (strict missing tags, the
    delimiters [[ and ]], no escaping), [xml.etree.ElementTree.fromstring]
    and [tostring] (decoded), and [str.upper]. *)
Class Externals : Type := {
  BASE_DIR : string;
  base_path : list string → string;
  base_to_top_paths : string → list string → list string;
  pystache_render : string → config → string → result string;
  xml_fromstring : string → result Element;
  xml_tostring : Element → string;
  str_upper : string → string
}.

(** [os.path.join(a, b)] on POSIX. *)
Definition path_join (a b : string) : string :=
  if startswith b "/" then b
  else if String.eqb a "" || endswith a "/" then a +:+ b
  else a +:+ "/" +:+ b.

(** [os.path.exists(path)] *)
Definition path_exists (fs : filesystem) (path : string) : bool :=
  bool_decide (is_Some (fs !! path)).

(** [open(fn)] followed by reading the text: what the file system holds
    is the text as Python reads it, decoded and with [\n] line ends. *)
Definition read_file (fs : filesystem) (fn : string) : result string :=
  match fs !! fn with
  | Some (File text) => Ok text
  | Some Dir => Raise (OSError ("Is a directory: " +:+ fn))
  | None => Raise (OSError ("No such file or directory: " +:+ fn))
  end.

(** [open(fn, 'w')]: the file is created or emptied. *)
Definition open_w (fs : filesystem) (fn : string) : result filesystem :=
  match fs !! fn with
  | Some Dir => Raise (OSError ("Is a directory: " +:+ fn))
  | _ => Ok (<[fn := File ""]> fs)
  end.

(** The file opened by [open_w] holds [text] when it is closed. *)
Definition close_w (fs : filesystem) (fn text : string) : filesystem :=
  <[fn := File text]> fs.

(** [os.makedirs(d, exist_ok=True)]; the parent directories are not
    modelled. *)
Definition makedirs (fs : filesystem) (d : string) : result filesystem :=
  match fs !! d with
  | Some (File _) => Raise (OSError ("File exists: " +:+ d))
  | Some Dir => Ok fs
  | None => Ok (<[d := Dir]> fs)
  end.

(** The same collaborators with another templating engine. *)
Definition with_render (E : Externals)
    (render : string → config → string → result string) : Externals :=
  {| BASE_DIR := @BASE_DIR E;
     base_path := @base_path E;
     base_to_top_paths := @base_to_top_paths E;
     pystache_render := render;
     xml_fromstring := @xml_fromstring E;
     xml_tostring := @xml_tostring E;
     str_upper := @str_upper E |}.

(** ** Dictionaries that keep the order of insertion *)

Abbreviation dict V := (list (string * V)).

Fixpoint dict_get {V} (k : string) (d : dict V) : option V :=
  match d with
  | [] => None
  | (k', v) :: d' => if String.eqb k' k then Some v else dict_get k d'
  end.

Definition dict_has {V} (k : string) (d : dict V) : bool :=
  bool_decide (is_Some (dict_get k d)).

(** [d[k] = v]: a bound key keeps its place. *)
Fixpoint dict_set {V} (k : string) (v : V) (d : dict V) : dict V :=
  match d with
  | [] => [(k, v)]
  | (k', v') :: d' =>
      if String.eqb k' k then (k', v) :: d' else (k', v') :: dict_set k v d'
  end.

(** ** SectionedFileParser: [_parse_sectioned_file] *)

Definition _REQUIRED_COMPONENT_SECTIONS : list string :=
  ["public_headers"; "public_type_definitions"; "public_structure_definitions";
   "public_object_like_macros"; "public_function_like_macros";
   "public_extern_definitions"; "public_function_definitions"; "headers";
   "object_like_macros"; "type_definitions"; "structure_definitions";
   "extern_definitions"; "function_definitions"; "state";
   "function_like_macros"; "functions"; "public_functions"].

(** The state of the line loop: the dictionary [sections] and the key whose
    list [current_lines] is ([None] while [current_lines is None]).  The list
    [current_lines] is the object bound in [sections] at that key. *)
Record scan_state : Type := ScanState {
  sections : dict (list string);
  current : option string
}.

(** [line.startswith('/*|') and line.endswith('|*/')] *)
Definition is_marker (line : string) : bool :=
  startswith line "/*|" && endswith line "|*/".

(** [line[3:-3].strip()] *)
Definition marker_name (line : string) : string := strip (slice_3_m3 line).

(** [current_lines.append(line)] *)
Definition append_line (key line : string) (d : dict (list string))
  : dict (list string) :=
  map (λ '(k, lines), if String.eqb k key then (k, lines ++ [line]) else (k, lines)) d.

(** The body of the line loop, lines 160-167. *)
Definition scan_line (st : scan_state) (raw : string) : scan_state :=
  let line := rstrip raw in
  if is_marker line then
    let section := marker_name line in
    ScanState (dict_set section [] (sections st)) (Some section)
  else
    match current st with
    | Some key => ScanState (append_line key line (sections st)) (current st)
    | None => st
    end.

Definition scan_lines (lines : list string) : dict (list string) :=
  sections (fold_left scan_line lines (ScanState [] None)).

(** The arguments of one call of [_render_data]: [in_data], [name] and
    [config]. *)
Record render_call : Type := RenderCall {
  in_data : string;
  render_name : string;
  render_config : config
}.

(** The call made for one section, line 170. *)
Definition section_call (fn : string) (config0 : config)
    (key : string) (value : list string) : render_call :=
  RenderCall (rstrip (join nl_s value))
             (fn +:+ ": Section " +:+ key)
             config0.

Definition missing_section_message (s fn : string) : string :=
  "Couldn't find expected section '" +:+ s +:+ "' in file: '" +:+ fn +:+ "'".

(** The check of the required sections, lines 172-174. *)
Fixpoint check_required {V} (required : list string) (fn : string) (d : dict V)
  : result unit :=
  match required with
  | [] => Ok tt
  | s :: rest =>
      if dict_has s d then check_required rest fn d
      else Raise (Exception (missing_section_message s fn))
  end.

(** The lines of a section: the lines after its marker, right-stripped, up
    to the next marker line or the end of the file. *)
Fixpoint section_content (post : list string) : list string :=
  match post with
  | [] => []
  | l :: post' =>
      if is_marker (rstrip l) then [] else rstrip l :: section_content post'
  end.

(** No line of [post] is a marker line for the section [n]. *)
Definition no_marker_for (n : string) (post : list string) : bool :=
  forallb (λ l, negb (is_marker (rstrip l)
                      && String.eqb (marker_name (rstrip l)) n)) post.

Section with_externals.
Context `{!Externals}.

(** [_render_data(in_data, name, config)] *)
Definition _render_data (c : render_call) : result string :=
  pystache_render (in_data c) (render_config c) (render_name c).

(** The rendering loop, lines 169-170. *)
Fixpoint render_sections (fn : string) (config0 : config)
    (d : dict (list string)) : result (dict string) :=
  match d with
  | [] => Ok []
  | (key, value) :: d' =>
      v ← _render_data (section_call fn config0 key value);
      rest ← render_sections fn config0 d';
      Ok ((key, v) :: rest)
  end.

Definition _parse_sectioned_file (fs : filesystem) (fn : string)
    (config0 : config) : result (dict string) :=
  text ← read_file fs fn;
  let scanned := scan_lines (readlines text) in
  rendered ← render_sections fn config0 scanned;
  _ ← check_required _REQUIRED_COMPONENT_SECTIONS fn rendered;
  Ok rendered.
End with_externals.

(** ** ComponentModel *)

Record Architecture : Type := MkArchitecture {
  arch_name : string;
  arch_configuration : config
}.

(** The values that reach the second parameter of [parse]. *)
Inductive pyobj : Type :=
| PyDict (d : config)
| PyArchitecture (a : Architecture)
| PyNone
| PyStr (s : string).

(** [isinstance(o, dict)] *)
Definition isinstance_dict (o : pyobj) : bool :=
  match o with
  | PyDict _ => true
  | _ => false
  end.

Inductive component_class : Type :=
| ClsComponent
| ClsArchitectureComponent.

Record Component : Type := MkComponent {
  cls : component_class;
  name : string;
  _resource_name : string;
  _configuration : config
}.

(** [Component.__init__] and its default arguments. *)
Definition new_component (c : component_class) (name0 : string)
    (resource_name : option string) (configuration : config) : Component :=
  MkComponent c name0 (default name0 resource_name) configuration.

(** [str(paths)] for a list of strings, without escapes. *)
Definition repr_list (l : list string) : string :=
  "[" +:+ join ", " (map (λ s, "'" +:+ s +:+ "'") l) +:+ "]".

(** The names tried by [Component.parse], line 247. *)
Definition component_names (resource : string) : list string :=
  [resource +:+ ".c"; resource +:+ "/" +:+ resource +:+ ".c"].

(** The names tried by [ArchitectureComponent.parse], line 280:
    [f.format(arch.name, self._resource_name)] for the two formats. *)
Definition arch_component_names (arch resource : string) : list string :=
  [arch +:+ "-" +:+ resource +:+ "/" +:+ arch +:+ "-" +:+ resource +:+ ".c";
   resource +:+ "-" +:+ arch +:+ ".c"].

Section components.
Context `{!Externals}.

(** [Component.find] *)
Definition Component_find (fs : filesystem) (topdir partial_path : string)
  : result string :=
  let paths := rev (base_to_top_paths topdir ["components"; partial_path]) in
  match List.find (path_exists fs) paths with
  | Some path => Ok path
  | None =>
      Raise (KeyError ("Unable to find component " +:+ dq +:+ partial_path
                       +:+ dq +:+ " in " +:+ repr_list paths))
  end.

(** The loop that tries the names in turn and stops at the first one
    found; only [KeyError] is caught. *)
Fixpoint find_first (fs : filesystem) (topdir : string) (names : list string)
  : result (option string) :=
  match names with
  | [] => Ok None
  | n :: rest =>
      match Component_find fs topdir n with
      | Ok path => Ok (Some path)
      | Raise (KeyError _) => find_first fs topdir rest
      | Raise e => Raise e
      | OutOfFuel => OutOfFuel
      end
  end.

(** [Component.parse] *)
Definition Component_parse (self : Component) (fs : filesystem)
    (topdir : string) (parsing_configuration : pyobj) : result (dict string) :=
  let configuration :=
    match parsing_configuration with
    | PyDict d => d ∪ _configuration self
    | _ => _configuration self
    end in
  component ← find_first fs topdir (component_names (_resource_name self));
  match component with
  | None =>
      Raise (KeyError ("Unable to find component " +:+ dq
                       +:+ _resource_name self +:+ dq))
  | Some path => _parse_sectioned_file fs path configuration
  end.

(** [ArchitectureComponent.parse] *)
Definition ArchitectureComponent_parse (self : Component) (fs : filesystem)
    (topdir : string) (arch : pyobj) : result (dict string) :=
  match arch with
  | PyArchitecture arch =>
      component ← find_first fs topdir
        (arch_component_names (arch_name arch) (_resource_name self));
      match component with
      | None =>
          Raise (KeyError ("Unable to find component " +:+ dq
                           +:+ _resource_name self +:+ dq
                           +:+ " for architecture " +:+ arch_name arch))
      | Some path => _parse_sectioned_file fs path (_configuration self)
      end
  | _ => Raise AssertionError
  end.

(** [component.parse(topdir, arch)]: the method of the component's class. *)
Definition parse (self : Component) (fs : filesystem) (topdir : string)
    (arg : pyobj) : result (dict string) :=
  match cls self with
  | ClsComponent => Component_parse self fs topdir arg
  | ClsArchitectureComponent => ArchitectureComponent_parse self fs topdir arg
  end.
End components.

(** ** SkeletonAssembler *)

Record RtosSkeleton : Type := MkRtosSkeleton {
  skel_name : string;
  skel_python_file : string;
  _components : list Component;
  skel_configuration : config
}.

(** The inner loop of [get_module_sections], lines 335-338. *)
Definition add_section (module_sections : gmap string (list string))
    (item : string * string) : gmap string (list string) :=
  let '(name0, contents) := item in
  let module_sections :=
    if bool_decide (is_Some (module_sections !! name0)) then module_sections
    else <[name0 := []]> module_sections in
  <[name0 := default [] (module_sections !! name0) ++ [contents]]> module_sections.

Section skeleton.
Context `{!Externals}.

(** [RtosSkeleton.__init__] *)
Definition new_skeleton (name0 : string) (components : list Component)
    (configuration : config) : RtosSkeleton :=
  MkRtosSkeleton name0
    (path_join (path_join BASE_DIR "components") (name0 +:+ ".py"))
    components configuration.

(** [RtosSkeleton.get_module_sections] *)
Definition get_module_sections (self : RtosSkeleton) (fs : filesystem)
    (topdir : string) (arch : pyobj) : result (gmap string (list string)) :=
  for_each
    (λ module_sections component,
       parsed ← parse component fs topdir arch;
       Ok (fold_left add_section parsed module_sections))
    (_components self) ∅.
End skeleton.

(** ** ModuleWriter *)

Record RtosModule : Type := MkRtosModule {
  _name : string;
  _arch : Architecture;
  _sections : gmap string (list string);
  _python_file : string
}.

Definition source_sections : list string :=
  ["headers"; "object_like_macros"; "type_definitions"; "structure_definitions";
   "extern_definitions"; "function_definitions"; "state";
   "function_like_macros"; "functions"; "public_functions"].

Definition header_sections : list string :=
  ["public_headers"; "public_type_definitions"; "public_object_like_macros";
   "public_function_like_macros"; "public_extern_definitions";
   "public_function_definitions"].

(** [sections[ss]] *)
Definition section_blocks (sections0 : gmap string (list string)) (ss : string)
  : result (list string) :=
  match sections0 !! ss with
  | Some blocks => Ok blocks
  | None => Raise (KeyError ss)
  end.

(** The property [RtosModule._module_name]. *)
Definition _module_name (self : RtosModule) : string := "rtos-" +:+ _name self.

(** What the loop over [source_sections] writes, lines 407-412; [written]
    is the text written so far. *)
Definition write_source_section (sections0 : gmap string (list string))
    (written : string) (ss : string) : result string :=
  blocks ← section_blocks sections0 ss;
  let data := join nl_s blocks in
  data ← (if String.eqb ss "type_definitions" then sort_typedefs data else Ok data);
  Ok (written +:+ data +:+ nl_s).

(** What the loops over [header_sections] write, lines 418-421. *)
Definition write_header_section (sections0 : gmap string (list string))
    (written : string) (ss : string) : result string :=
  blocks ← section_blocks sections0 ss;
  Ok (fold_left (λ w data, w +:+ data +:+ nl_s) blocks written).

Definition xml_prologue : string :=
  "<?xml version=" +:+ dq +:+ "1.0" +:+ dq +:+ " encoding=" +:+ dq +:+ "UTF-8"
  +:+ dq +:+ " ?>" +:+ nl_s.

Section module_writer.
Context `{!Externals}.

(** [_merge_schema_sections] *)
Definition _merge_schema_sections (sections0 : list string) : result string :=
  merged_schema ← xml_fromstring ("<schema>" +:+ nl_s +:+ "</schema>");
  merged_schema ←
    for_each
      (λ merged_schema section,
         schema ← xml_fromstring ("<schema>" +:+ nl_s +:+ section +:+ nl_s
                                  +:+ "</schema>");
         _merge_schema_entries merged_schema schema "")
      sections0 merged_schema;
  Ok (xml_tostring merged_schema).

(** The property [RtosModule._module_dir]: it creates the directory. *)
Definition _module_dir (self : RtosModule) (fs : filesystem)
  : result (filesystem * string) :=
  let module_dir :=
    base_path ["packages"; arch_name (_arch self); _module_name self] in
  fs ← makedirs fs module_dir;
  Ok (fs, module_dir).

(** [mod_name], line 415. *)
Definition header_mod_name (self : RtosModule) : string :=
  replace_char "-" "_" (str_upper (_module_name self)).

(** The text written to the header file, lines 414-422. *)
Definition header_text (self : RtosModule) : result string :=
  let mod_name := header_mod_name self in
  let written := "#ifndef " +:+ mod_name +:+ "_H" +:+ nl_s in
  let written := written +:+ "#define " +:+ mod_name +:+ "_H" +:+ nl_s in
  written ← for_each (write_header_section (_sections self))
              header_sections written;
  Ok (written +:+ nl_s +:+ "#endif /* " +:+ mod_name +:+ "_H */").

(** [shutil.copyfile(src, dst)] *)
Definition copyfile (fs : filesystem) (src dst : string) : result filesystem :=
  if String.eqb src dst then Raise (OSError "are the same file")
  else text ← read_file fs src; fs ← open_w fs dst; Ok (close_w fs dst text).

(** [RtosModule._render] *)
Definition _render (self : RtosModule) (fs : filesystem) : result filesystem :=
  '(fs, d) ← _module_dir self fs;
  let python_output := path_join d "entity.py" in
  '(fs, d) ← _module_dir self fs;
  let source_output := path_join d (_module_name self +:+ ".c") in
  '(fs, d) ← _module_dir self fs;
  let header_output := path_join d (_module_name self +:+ ".h") in
  '(fs, d) ← _module_dir self fs;
  let config_output := path_join d "schema.xml" in
  fs ← open_w fs source_output;
  source ← for_each (write_source_section (_sections self)) source_sections "";
  let fs := close_w fs source_output source in
  fs ← open_w fs header_output;
  header ← header_text self;
  let fs := close_w fs header_output header in
  fs ← open_w fs config_output;
  schema ← _merge_schema_sections (default [] (_sections self !! "schema"));
  let fs := close_w fs config_output (xml_prologue +:+ schema) in
  copyfile fs (_python_file self) python_output.

(** [RtosSkeleton.create_configured_module] *)
Definition create_configured_module (self : RtosSkeleton) (fs : filesystem)
    (topdir : string) (arch : pyobj) : result RtosModule :=
  sections0 ← get_module_sections self fs topdir arch;
  match arch with
  | PyArchitecture a => Ok (MkRtosModule (skel_name self) a sections0
                                         (skel_python_file self))
  | _ => Raise AssertionError
  end.

(** [generate_rtos_module] *)
Definition generate_rtos_module (fs : filesystem) (topdir : string)
    (skeleton : RtosSkeleton) (architectures : list Architecture)
  : result filesystem :=
  for_each
    (λ fs arch,
       rtos_module ← create_configured_module skeleton fs topdir
                       (PyArchitecture arch);
       _render rtos_module fs)
    architectures fs.
End module_writer.

(** The blocks that the parsed components contribute to the section
    [name0], in the order of the components. *)
Definition contributions (name0 : string) (parsed : list (dict string))
  : list string :=
  omap (dict_get name0) parsed.

(** ** Predicates used to state further properties *)

(** The line loop of [sort_typedefs] gets past the line [l]. *)
Definition line_parses (l : string) : bool :=
  match parse_typedef_line l with
  | Ok _ => true
  | _ => false
  end.

(** Every pair of [T] whose old type is a new name of [T] stands after a
    pair that declares that name; [seen] are the names declared so far. *)
Fixpoint ordered_from (seen all_names : list string) (T : list typedef) : bool :=
  match T with
  | [] => true
  | q :: T' =>
      (negb (bool_decide (q.2 ∈ all_names)) || bool_decide (q.2 ∈ seen))
      && ordered_from (seen ++ [q.1]) all_names T'
  end.

Definition dependency_ordered (T : list typedef) : bool :=
  ordered_from [] (map fst T) T.

(** The children of [a] in the state [st] of the merge loop. *)
Definition current_children (st : merge_state) : list Element :=
  omap id (ms_slots st) ++ ms_appended st.

(** The invariant of the merge loop, for the names [rem] of the children
    of [b] still to come: the children of [a] are named, well formed and
    differently named; no name to come is among the appended children; and
    a name to come is either bound in [a_children] to a child still in its
    slot, or the name of no child in a slot. *)
Record merge_inv (st : merge_state) (rem : list (option string)) : Prop := {
  mi_wf : Forall (λ c, is_Some (attrib_name c) ∧ wf_schema c = true)
                 (current_children st);
  mi_nodup : NoDup (attrib_name <$> current_children st);
  mi_fresh : ∀ n, Some n ∈ rem → Some n ∉ attrib_name <$> ms_appended st;
  mi_dict : ∀ n, Some n ∈ rem →
    match ms_dict st !! n with
    | Some e => ae_in_list e = true
                ∧ ms_slots st !! ae_index e = Some (Some (ae_elem e))
                ∧ attrib_name (ae_elem e) = Some n
    | None => Some n ∉ attrib_name <$> omap id (ms_slots st)
    end
}.

(** Every element of [l] has a name attribute. *)
Definition all_named (l : list Element) : bool :=
  forallb (λ c, bool_decide (is_Some (attrib_name c))) l.

(** Every element of [l] has a name attribute that no element of [acs]
    has. *)
Definition all_fresh (acs l : list Element) : bool :=
  forallb (λ c, bool_decide (is_Some (attrib_name c))
                && bool_decide (attrib_name c ∉ attrib_name <$> acs)) l.

(** The section names on the marker lines of [lines], in their order. *)
Definition marker_names (lines : list string) : list string :=
  map (λ l, marker_name (rstrip l)) (List.filter (λ l, is_marker (rstrip l)) lines).

(** ** Builder: [build] *)

(** The attributes of [args] that [build] reads.  [configurations] keeps
    the order of its items. *)
Record build_args : Type := MkBuildArgs {
  args_topdir : string;
  args_configurations : dict (list string);
  args_skeletons : gmap string RtosSkeleton;
  args_architectures : gmap string Architecture
}.

(** [d[k]] *)
Definition getitem {V} (d : gmap string V) (k : string) : result V :=
  match d !! k with
  | Some v => Ok v
  | None => Raise (KeyError k)
  end.

Section builder.
Context `{!Externals}.

(** [RtosModule.generate] *)
Definition generate (self : RtosModule) (fs : filesystem) : result filesystem :=
  _render self fs.

(** The body of the loop of [build], lines 435-437: the arguments of the
    call are evaluated from left to right, the skeleton before the list of
    architectures. *)
Definition build_one (args : build_args) (fs : filesystem)
    (item : string * list string) : result filesystem :=
  let '(rtos_name, arch_names) := item in
  skeleton ← getitem (args_skeletons args) rtos_name;
  architectures ←
    for_each (λ acc arch, a ← getitem (args_architectures args) arch;
                          Ok (acc ++ [a]))
             arch_names [];
  generate_rtos_module fs (args_topdir args) skeleton architectures.

(** [build] *)
Definition build (args : build_args) (fs : filesystem) : result filesystem :=
  for_each (build_one args) (args_configurations args) fs.
End builder.

(** [parse] returns for the component. *)
Definition parses `{!Externals} (fs : filesystem) (topdir : string)
    (arch : pyobj) (c : Component) : bool :=
  match parse c fs topdir arch with
  | Ok _ => true
  | _ => false
  end.

(** No candidate directory holds the file [n]. *)
Definition nowhere `{!Externals} (fs : filesystem) (topdir n : string) : bool :=
  forallb (λ p, negb (path_exists fs p))
          (base_to_top_paths topdir ["components"; n]).

(** The paths that [_render] writes for the module. *)
Definition module_outputs `{!Externals} (self : RtosModule) : list string :=
  let d := base_path ["packages"; arch_name (_arch self); _module_name self] in
  [d; path_join d "entity.py"; path_join d (_module_name self +:+ ".c");
   path_join d (_module_name self +:+ ".h"); path_join d "schema.xml"].

(** ** Concrete inputs for the examples *)

Definition block_dup : string :=
  "typedef int A;" +:+ nl_s +:+ "typedef A B;" +:+ nl_s +:+ "typedef B A;".

Definition block_chain : string :=
  "typedef B C;" +:+ nl_s +:+ "typedef int A;" +:+ nl_s +:+ nl_s +:+ "typedef A B;".

Definition block_cycle : string :=
  "typedef Y X;" +:+ nl_s +:+ "typedef int A;" +:+ nl_s +:+ "typedef X Y;"
  +:+ nl_s +:+ "typedef A B;".

Definition leaf (n x : string) : Element := Elem "entry" {["name" := n]} x [].
Definition node (n : string) (cs : list Element) : Element :=
  Elem "entry" {["name" := n]} "" cs.
Definition schema (cs : list Element) : Element := Elem "schema" ∅ "" cs.

Definition schema_a : Element :=
  schema [node "a" [node "q" [leaf "r" "1"]]; leaf "z" "2"].
Definition schema_b : Element :=
  schema [leaf "z" "3"; node "a" [node "q" [node "r" [leaf "s" "4"]]]].


(** A templating engine for the examples: the template [[k]] is replaced by
    the value of the key [k] and fails, as in strict mode, when the
    configuration has no such key; any other template has no tag. *)
Definition toy_render (template : string) (cfg : config) (name0 : string)
  : result string :=
  if String.eqb template "[[k]]" then
    match cfg !! "k" with
    | Some v => Ok v
    | None => Raise (RenderError name0)
    end
  else Ok template.

Definition upper_char (c : ascii) : ascii :=
  let n := nat_of_ascii c in
  if (97 <=? n) && (n <=? 122) then ascii_of_nat (n - 32) else c.

Fixpoint upper_ascii (s : string) : string :=
  match s with
  | "" => ""
  | String c s' => String (upper_char c) (upper_ascii s')
  end.

Definition toy : Externals :=
  {| BASE_DIR := "/repo";
     base_path := λ parts, join "/" ("/repo" :: parts);
     base_to_top_paths := λ topdir parts, [join "/" (topdir :: parts)];
     pystache_render := toy_render;
     xml_fromstring := λ _, Ok (Elem "schema" ∅ "" []);
     xml_tostring := λ _, "<schema />";
     str_upper := upper_ascii |}.

(** A fragment with every required section; the section [headers] holds
    [body]. *)
Definition fragment (body : string) : string :=
  join nl_s
    (flat_map (λ s, ["/*| " +:+ s +:+ " |*/";
                     if String.eqb s "headers" then body
                     else if String.eqb s "type_definitions" then "typedef int T;"
                     else "// " +:+ s])
              _REQUIRED_COMPONENT_SECTIONS).

Definition ctxt : Component :=
  new_component ClsArchitectureComponent "context_switch" (Some "ctxt") ∅.

Definition arm : Architecture := MkArchitecture "arm" {["k" := "v"]}.

Definition fs_claimed : filesystem :=
  {["/repo/components/ctxt-arm/ctxt-arm.c" := File (fragment "#include <a.h>")]}.

Definition fs_actual : filesystem :=
  {["/repo/components/arm-ctxt/arm-ctxt.c" := File (fragment "[[k]]")]}.

Definition ctxt_own : Component :=
  new_component ClsArchitectureComponent "context_switch" (Some "ctxt")
                {["k" := "own"]}.

Definition arm_other : Architecture := MkArchitecture "arm" {["z" := "9"]}.

(** An engine that refuses any configuration with the key [z]. *)
Definition picky_render (template : string) (cfg : config) (name0 : string)
  : result string :=
  match cfg !! "z" with
  | None => toy_render template cfg name0
  | Some _ => Raise (RenderError name0)
  end.

Definition comp_x : Component := new_component ClsComponent "x" None ∅.
Definition comp_y : Component :=
  new_component ClsArchitectureComponent "y" None ∅.

Definition fs_xy : filesystem :=
  {["/repo/components/x.c" := File (fragment "X headers");
    "/repo/components/arm-y/arm-y.c" := File (fragment "Y headers");
    "/repo/components/my-os.py" := File "entity = 1"]}.

Definition skeleton_xy : RtosSkeleton :=
  @new_skeleton toy "my-os" [comp_x; comp_y] ∅.

Definition module_xy : RtosModule :=
  MkRtosModule "my-os" arm
    (list_to_map
       (map (λ s, (s, if String.eqb s "type_definitions"
                      then ["typedef A B;"; "typedef int A;"] else ["// " +:+ s]))
            _REQUIRED_COMPONENT_SECTIONS))
    "/repo/components/my-os.py".

Definition header_xy : string :=
  "#ifndef RTOS_MY_OS_H" +:+ nl_s
  +:+ "#define RTOS_MY_OS_H" +:+ nl_s
  +:+ "// public_headers" +:+ nl_s
  +:+ "// public_type_definitions" +:+ nl_s
  +:+ "// public_object_like_macros" +:+ nl_s
  +:+ "// public_function_like_macros" +:+ nl_s
  +:+ "// public_extern_definitions" +:+ nl_s
  +:+ "// public_function_definitions" +:+ nl_s
  +:+ nl_s +:+ "#endif /* RTOS_MY_OS_H */".

Definition twice_text : string :=
  "stray" +:+ nl_s
  +:+ "/*| headers |*/" +:+ nl_s
  +:+ "first" +:+ nl_s
  +:+ "/*| state |*/" +:+ nl_s
  +:+ "int s;" +:+ nl_s
  +:+ "/*| headers |*/  " +:+ nl_s
  +:+ "second  " +:+ nl_s
  +:+ nl_s
  +:+ "/*| functions |*/" +:+ nl_s
  +:+ "void f(void);" +:+ nl_s.

Definition fs_twice : filesystem := {["/repo/components/t.c" := File twice_text]}.

(** The file system after [module_xy] is written. *)
Definition rendered_xy : filesystem :=
  match @_render toy module_xy fs_xy with
  | Ok fs' => fs'
  | _ => ∅
  end.

(** A fragment that stops after its second section. *)
Definition partial_text : string :=
  "/*| public_headers |*/" +:+ nl_s
  +:+ "#include <p.h>" +:+ nl_s
  +:+ "/*| public_type_definitions |*/" +:+ nl_s.

Definition fs_partial : filesystem :=
  {["/repo/components/p.c" := File partial_text]}.

Definition comp_p : Component := new_component ClsComponent "p" None ∅.

Definition args_xy (configurations : dict (list string)) : build_args :=
  MkBuildArgs "/repo" configurations {["my-os" := skeleton_xy]} {["arm" := arm]}.

(** The collaborators seen from a client repository: a component is looked
    for in the core repository and in the client repository. *)
Definition client : Externals :=
  {| BASE_DIR := "/repo";
     base_path := λ parts, join "/" ("/repo" :: parts);
     base_to_top_paths := λ topdir parts,
       [join "/" ("/repo" :: parts); join "/" (topdir :: parts)];
     pystache_render := toy_render;
     xml_fromstring := λ _, Ok (Elem "schema" ∅ "" []);
     xml_tostring := λ _, "<schema />";
     str_upper := upper_ascii |}.

Definition fs_client : filesystem :=
  {["/repo/components/x.c" := File (fragment "core");
    "/client/components/x.c" := File (fragment "client")]}.

(** * Properties *)

(** ** TypedefSorter *)

(** *** The inner loops move exactly the items that pass the test *)

Lemma list_remove_middle (x : typedef) (pre l : list typedef) :
  x ∉ pre → list_remove x (pre ++ x :: l) = Some (pre ++ l).
Proof.
  induction pre as [|y pre IH]; intros Hx; simpl.
  - by rewrite decide_True.
  - rewrite decide_False by (intros ->; apply Hx; left).
    rewrite IH; [done|]. intros ?; apply Hx. by right.
Qed.

Lemma for_each_move (test : typedef → bool) (l pre r : list typedef) :
  Forall (λ td, test td = false) pre →
  for_each (move_step test) l (r, pre ++ l)
  = Ok (r ++ List.filter test l, pre ++ List.filter (λ td, negb (test td)) l).
Proof.
  revert pre r. induction l as [|x l IH]; intros pre r Hpre; simpl.
  - by rewrite !app_nil_r.
  - destruct (test x) eqn:Hx; simpl.
    + rewrite list_remove_middle.
      * simpl. rewrite IH by done. by rewrite <- app_assoc.
      * intros Hin. rewrite Forall_forall in Hpre.
        apply Hpre in Hin. congruence.
    + rewrite (cons_middle x pre l), app_assoc.
      rewrite IH.
      * by rewrite <- !app_assoc.
      * apply Forall_app; split; [done|]. by constructor.
Qed.

Lemma move_matching_spec (test : typedef → bool) (r typedefs : list typedef) :
  move_matching test r typedefs
  = Ok (r ++ List.filter test typedefs,
        List.filter (λ td, negb (test td)) typedefs).
Proof. apply (for_each_move test typedefs [] r). constructor. Qed.

Lemma unlock_loop_done fuel i (r typedefs : list typedef) :
  r !! i = None → unlock_loop fuel i r typedefs = Ok r.
Proof. intros H. destruct fuel; simpl; by rewrite H. Qed.

Lemma unlock_loop_step fuel i (r typedefs : list typedef) c o :
  r !! i = Some (c, o) →
  unlock_loop (S fuel) i r typedefs
  = unlock_loop fuel (S i)
      (r ++ List.filter (refers_to c) typedefs)
      (List.filter (λ td, negb (refers_to c td)) typedefs).
Proof. intros H. simpl. rewrite H. by rewrite move_matching_spec. Qed.

Lemma filter_split_length {A} (f : A → bool) (l : list A) :
  length (List.filter f l) + length (List.filter (λ x, negb (f x)) l) = length l.
Proof. induction l as [|x l IH]; simpl; [done|]. destruct (f x); simpl; lia. Qed.

Lemma filter_split_perm {A} (f : A → bool) (l : list A) :
  List.filter f l ++ List.filter (λ x, negb (f x)) l ≡ₚ l.
Proof.
  induction l as [|x l IH]; simpl; [done|].
  destruct (f x); simpl.
  - by rewrite IH.
  - by rewrite <- Permutation_middle, IH.
Qed.

(** *** An invariant rule for the [while] loop, with termination *)

Section loop_invariant.
Variable Inv : nat → list typedef → list typedef → Prop.
Hypothesis Inv_step : ∀ i r typedefs c o,
  Inv i r typedefs → r !! i = Some (c, o) →
  Inv (S i) (r ++ List.filter (refers_to c) typedefs)
            (List.filter (λ td, negb (refers_to c td)) typedefs).

Lemma unlock_loop_inv fuel i r typedefs :
  length r + length typedefs - i ≤ fuel →
  i ≤ length r →
  Inv i r typedefs →
  ∃ r' typedefs', unlock_loop fuel i r typedefs = Ok r'
                  ∧ Inv (length r') r' typedefs'.
Proof.
  revert i r typedefs.
  induction fuel as [|fuel IH]; intros i r typedefs Hfuel Hi HInv.
  - destruct (r !! i) as [[c o]|] eqn:Hri.
    + apply lookup_lt_Some in Hri. lia.
    + rewrite unlock_loop_done by done.
      apply lookup_ge_None_1 in Hri.
      replace i with (length r) in HInv by lia. eauto.
  - destruct (r !! i) as [[c o]|] eqn:Hri.
    + rewrite (unlock_loop_step _ _ _ _ _ _ Hri).
      pose proof (lookup_lt_Some _ _ _ Hri) as Hlt.
      pose proof (filter_split_length (refers_to c) typedefs) as Hlen.
      apply IH.
      * rewrite length_app. lia.
      * rewrite length_app. lia.
      * by eapply Inv_step.
    + rewrite unlock_loop_done by done.
      apply lookup_ge_None_1 in Hri.
      replace i with (length r) in HInv by lia. eauto.
Qed.
End loop_invariant.

(** *** What the two passes establish *)

Lemma refers_to_true c (td : typedef) : refers_to c td = true ↔ td.2 = c.
Proof. unfold refers_to. apply String.eqb_eq. Qed.

Lemma not_cross_ref_true names (td : typedef) :
  not_cross_ref names td = true ↔ td.2 ∉ names.
Proof.
  unfold not_cross_ref. rewrite negb_true_iff, bool_decide_eq_false. done.
Qed.

Lemma elem_of_filter_bool {A} (f : A → bool) (l : list A) x :
  x ∈ List.filter f l ↔ x ∈ l ∧ f x = true.
Proof. rewrite !list_elem_of_In. apply filter_In. Qed.

Lemma sorted_inv_init T :
  sorted_inv T 0 (base_cases T)
    (List.filter (λ td, negb (not_cross_ref (map fst T) td)) T).
Proof.
  split.
  - apply filter_split_perm.
  - exists []. by rewrite app_nil_r.
  - intros j q Hj Hle. apply lookup_lt_Some in Hj. lia.
  - intros k p q Hk. lia.
  - intros q [_ Hq]%elem_of_filter_bool.
    apply negb_true_iff in Hq.
    destruct (decide (q.2 ∈ map fst T)) as [|Hn]; [done|].
    apply not_cross_ref_true in Hn. congruence.
Qed.

Lemma sorted_inv_step T i r typedefs c o :
  sorted_inv T i r typedefs → r !! i = Some (c, o) →
  sorted_inv T (S i) (r ++ List.filter (refers_to c) typedefs)
                     (List.filter (λ td, negb (refers_to c td)) typedefs).
Proof.
  intros [Hperm [placed Hbase] Hprod Hsat Hpend] Hi.
  pose proof (lookup_lt_Some _ _ _ Hi) as Hilt.
  split.
  - by rewrite <- app_assoc, filter_split_perm.
  - exists (placed ++ List.filter (refers_to c) typedefs).
    by rewrite app_assoc, <- Hbase.
  - intros j q Hj Hle.
    destruct (decide (j < length r)) as [Hlt|Hge].
    + rewrite lookup_app_l in Hj by done.
      destruct (Hprod j q Hj Hle) as (k & p & Hki & Hkj & Hk & Hpq).
      exists k, p. split_and!; [lia|done| |done].
      rewrite lookup_app_l by lia. done.
    + rewrite lookup_app_r in Hj by lia.
      apply list_elem_of_lookup_2, elem_of_filter_bool in Hj as [_ Hq].
      apply refers_to_true in Hq.
      exists i, (c, o). split_and!; [lia|lia| |done].
      by rewrite lookup_app_l.
  - intros k p q Hk Hkp Hq.
    apply elem_of_filter_bool in Hq as [Hq Hne].
    destruct (decide (k = i)) as [->|Hki].
    + rewrite lookup_app_l in Hkp by done.
      rewrite Hi in Hkp. injection Hkp as <-. simpl.
      intros Heq. apply refers_to_true in Heq. rewrite Heq in Hne. done.
    + rewrite lookup_app_l in Hkp by lia.
      eapply Hsat; [|done..]. lia.
  - intros q [Hq _]%elem_of_filter_bool. by apply Hpend.
Qed.

(** [sort_pairs] always returns: the loop bound is never exhausted and
    [list.remove] never raises. *)
Lemma sort_pairs_spec T :
  ∃ r dropped, sort_pairs T = Ok r ∧ sorted_inv T (length r) r dropped.
Proof.
  unfold sort_pairs. rewrite move_matching_spec. simpl.
  apply (unlock_loop_inv (sorted_inv T) (sorted_inv_step T)).
  - pose proof (filter_split_length (not_cross_ref (map fst T)) T). lia.
  - lia.
  - apply sorted_inv_init.
Qed.

Lemma sort_pairs_inv T r :
  sort_pairs T = Ok r → ∃ dropped, sorted_inv T (length r) r dropped.
Proof.
  intros H. destruct (sort_pairs_spec T) as (r' & dropped & Hr & Hinv).
  rewrite H in Hr. injection Hr as <-. eauto.
Qed.

Lemma sort_pairs_subset T r p : sort_pairs T = Ok r → p ∈ r → p ∈ T.
Proof.
  intros [dropped [Hperm _ _ _ _]]%sort_pairs_inv Hp.
  rewrite <- Hperm. apply elem_of_app. by left.
Qed.

Lemma base_cases_elem T p :
  p ∈ base_cases T ↔ p ∈ T ∧ p.2 ∉ map fst T.
Proof.
  unfold base_cases. rewrite elem_of_filter_bool, not_cross_ref_true. done.
Qed.

(** Every placed pair that refers to a name of the block stands after a
    pair that declares that name. *)
Lemma sort_pairs_producer T r j q :
  sort_pairs T = Ok r → r !! j = Some q → q.2 ∈ map fst T →
  ∃ k p, k < j ∧ r !! k = Some p ∧ p.1 = q.2.
Proof.
  intros [dropped [_ [placed Hbase] Hprod _ _]]%sort_pairs_inv Hj Hq.
  destruct (decide (length (base_cases T) ≤ j)) as [Hle|Hlt].
  - destruct (Hprod j q Hj Hle) as (k & p & _ & ? & ? & ?). eauto.
  - rewrite Hbase, lookup_app_l in Hj by lia.
    apply list_elem_of_lookup_2, base_cases_elem in Hj as [_ Hj]. done.
Qed.

Lemma NoDup_fst_inj (T : list typedef) p q :
  NoDup (map fst T) → p ∈ T → q ∈ T → p.1 = q.1 → p = q.
Proof.
  induction T as [|x T IH]; intros Hnd Hp Hq Heq.
  - by apply elem_of_nil in Hp.
  - simpl in Hnd. apply NoDup_cons in Hnd as [Hx Hnd].
    apply elem_of_cons in Hp as [->|Hp]; apply elem_of_cons in Hq as [->|Hq].
    + done.
    + exfalso. apply Hx. rewrite Heq. apply list_elem_of_fmap. eauto.
    + exfalso. apply Hx. rewrite <- Heq. apply list_elem_of_fmap. eauto.
    + by apply IH.
Qed.

Lemma NoDup_fst_NoDup (T : list typedef) : NoDup (map fst T) → NoDup T.
Proof. apply (NoDup_fmap_1 fst). Qed.

Lemma sort_pairs_NoDup T r :
  sort_pairs T = Ok r → NoDup (map fst T) → NoDup r.
Proof.
  intros [dropped [Hperm _ _ _ _]]%sort_pairs_inv Hnd.
  apply NoDup_fst_NoDup in Hnd. rewrite <- Hperm in Hnd.
  by apply NoDup_app in Hnd as [? _].
Qed.

(** With no name declared twice, the producer is placed strictly before
    each of its consumers. *)
Lemma sort_pairs_order T r i j p q :
  sort_pairs T = Ok r → NoDup (map fst T) →
  r !! i = Some p → r !! j = Some q → q.2 = p.1 → i < j.
Proof.
  intros Hr Hnd Hi Hj Hqp.
  assert (p ∈ T) as HpT by eauto using sort_pairs_subset, list_elem_of_lookup_2.
  destruct (sort_pairs_producer T r j q Hr Hj) as (k & p' & Hk & Hkp & Hp').
  { rewrite Hqp. apply list_elem_of_fmap. eauto. }
  assert (p' = p) as ->.
  { apply (NoDup_fst_inj T); [done| |done|congruence].
    eauto using sort_pairs_subset, list_elem_of_lookup_2. }
  pose proof (sort_pairs_NoDup T r Hr Hnd) as Hndr.
  by rewrite (NoDup_lookup r i k p Hndr Hi Hkp).
Qed.

(** *** Which pairs are placed *)

Lemma sort_pairs_sound T r :
  sort_pairs T = Ok r → ∀ j q, r !! j = Some q → unlockable T q.
Proof.
  intros Hr j. induction j as [j IH] using lt_wf_ind. intros q Hj.
  assert (q ∈ T) as HqT by eauto using sort_pairs_subset, list_elem_of_lookup_2.
  destruct (decide (q.2 ∈ map fst T)) as [Hin|Hnin].
  - destruct (sort_pairs_producer T r j q Hr Hj Hin) as (k & p & Hk & Hkp & Hp).
    apply (unlockable_step T p q); eauto.
  - by apply unlockable_base.
Qed.

Lemma sort_pairs_complete T r :
  sort_pairs T = Ok r → ∀ q, unlockable T q → q ∈ r.
Proof.
  intros [dropped [Hperm [placed Hbase] _ Hsat _]]%sort_pairs_inv q Hq.
  induction Hq as [p HpT Hp|p q Hp IH HqT Hqp].
  - rewrite Hbase. apply elem_of_app. left. by apply base_cases_elem.
  - rewrite <- Hperm in HqT. apply elem_of_app in HqT as [?|Hd]; [done|].
    apply list_elem_of_lookup in IH as [k Hk].
    exfalso. eapply (Hsat k p q); eauto using lookup_lt_Some.
Qed.

(** The pairs that are not placed: none of them is unlockable. *)
Lemma sort_pairs_partition T r :
  sort_pairs T = Ok r →
  ∃ dropped, r ++ dropped ≡ₚ T
             ∧ (∀ p, p ∈ r → unlockable T p)
             ∧ (∀ p, p ∈ dropped → ¬ unlockable T p).
Proof.
  intros Hr.
  destruct (sort_pairs_inv T r Hr) as [dropped [Hperm [placed Hbase] _ Hsat Hpend]].
  exists dropped. split_and!; [done| |].
  - intros p [j Hj]%list_elem_of_lookup. by eapply sort_pairs_sound.
  - intros q Hqd Hq.
    destruct Hq as [p HpT Hp|p q Hp _ Hqp].
    + apply Hp. by apply Hpend.
    + apply (sort_pairs_complete T r Hr) in Hp.
      apply list_elem_of_lookup in Hp as [k Hk].
      eapply (Hsat k p q); eauto using lookup_lt_Some.
Qed.

(** A set of pairs that refer only to names declared inside the set is
    never placed. *)
Lemma sort_pairs_closed_dropped T r (C : typedef → Prop) :
  sort_pairs T = Ok r →
  (∀ s, C s → s.2 ∈ map fst T) →
  (∀ s t, C s → t ∈ T → t.1 = s.2 → C t) →
  ∀ s, C s → s ∉ r.
Proof.
  intros Hr Hdep Hclosed s Hs [j Hj]%list_elem_of_lookup.
  revert s Hs Hj. induction j as [j IH] using lt_wf_ind. intros s Hs Hj.
  destruct (sort_pairs_producer T r j s Hr Hj (Hdep s Hs)) as (k & p & Hk & Hkp & Hp).
  apply (IH k Hk p); [|done].
  apply (Hclosed s p Hs); [|done].
  eauto using sort_pairs_subset, list_elem_of_lookup_2.
Qed.

(** *** Sorting a sorted list of pairs changes nothing *)

Lemma filter_all {A} (f : A → bool) (l : list A) :
  (∀ x, x ∈ l → f x = true) → List.filter f l = l.
Proof.
  induction l as [|x l IH]; intros H; simpl; [done|].
  rewrite (H x) by left. f_equal. apply IH. intros y Hy. apply H. by right.
Qed.

Lemma filter_none {A} (f : A → bool) (l : list A) :
  (∀ x, x ∈ l → f x = false) → List.filter f l = [].
Proof.
  induction l as [|x l IH]; intros H; simpl; [done|].
  rewrite (H x) by left. apply IH. intros y Hy. apply H. by right.
Qed.

(** The loop, run again on exactly the pairs it placed, places them in
    the same order. *)
Lemma unlock_loop_replay fuel i r typedefs R :
  unlock_loop fuel i r typedefs = Ok R →
  ∃ placed, R = r ++ placed
    ∧ (∀ x, x ∈ placed → x ∈ typedefs)
    ∧ ∀ fuel', length r + length placed - i ≤ fuel' →
               unlock_loop fuel' i r placed = Ok R.
Proof.
  revert i r typedefs.
  induction fuel as [|fuel IH]; intros i r typedefs Hrun.
  - destruct (r !! i) as [[c o]|] eqn:Hi; simpl in Hrun; rewrite Hi in Hrun; [done|].
    injection Hrun as <-. exists []. rewrite app_nil_r. split_and!; [done| |].
    + by intros x ?%elem_of_nil.
    + intros fuel' _. by apply unlock_loop_done.
  - destruct (r !! i) as [[c o]|] eqn:Hi.
    + rewrite (unlock_loop_step _ _ _ _ _ _ Hi) in Hrun.
      apply IH in Hrun as (placed & -> & Hsub & Hreplay).
      set (F := List.filter (refers_to c) typedefs) in *.
      exists (F ++ placed). split_and!.
      * by rewrite app_assoc.
      * intros x [Hx|Hx]%elem_of_app.
        -- by apply elem_of_filter_bool in Hx as [? _].
        -- apply Hsub in Hx. by apply elem_of_filter_bool in Hx as [? _].
      * intros fuel' Hfuel'. pose proof (lookup_lt_Some _ _ _ Hi) as Hlt.
        destruct fuel' as [|fuel']; [lia|].
        rewrite (unlock_loop_step _ _ _ _ _ _ Hi).
        rewrite !List.filter_app.
        rewrite (filter_all (refers_to c) F),
                (filter_none (refers_to c) placed),
                (filter_none (λ td, negb (refers_to c td)) F),
                (filter_all (λ td, negb (refers_to c td)) placed).
        -- rewrite app_nil_r. simpl. apply Hreplay.
           rewrite length_app in *. lia.
        -- intros x Hx. apply Hsub in Hx.
           by apply elem_of_filter_bool in Hx as [_ ?].
        -- intros x Hx. apply elem_of_filter_bool in Hx as [_ Hx].
           by rewrite Hx.
        -- intros x Hx. apply Hsub in Hx.
           apply elem_of_filter_bool in Hx as [_ Hx].
           by apply negb_true_iff.
        -- intros x Hx. by apply elem_of_filter_bool in Hx as [_ ?].
    + rewrite unlock_loop_done in Hrun by done. injection Hrun as <-.
      exists []. rewrite app_nil_r. split_and!; [done| |].
      * by intros x ?%elem_of_nil.
      * intros fuel' _. by apply unlock_loop_done.
Qed.

Lemma sort_pairs_idempotent T R : sort_pairs T = Ok R → sort_pairs R = Ok R.
Proof.
  intros HR.
  destruct (sort_pairs_inv T R HR) as [dropped [Hperm [placed Hbase] Hprod _ _]].
  assert (∀ n, n ∈ map fst R → n ∈ map fst T) as Hnames.
  { intros n (p & -> & Hp)%list_elem_of_fmap. apply list_elem_of_fmap.
    exists p. split; [done|]. by eapply sort_pairs_subset. }
  assert (List.filter (not_cross_ref (map fst R)) R = base_cases T) as HB.
  { set (names := map fst R). rewrite Hbase. subst names.
    rewrite List.filter_app, filter_all, filter_none.
    - by rewrite app_nil_r.
    - intros q [j Hj]%list_elem_of_lookup.
      apply negb_false_iff, bool_decide_eq_true.
      destruct (Hprod (length (base_cases T) + j) q) as (k & p & _ & _ & Hk & Hp).
      { by rewrite Hbase, lookup_app_r, Nat.add_comm, Nat.add_sub by lia. }
      { lia. }
      rewrite <- Hp. apply list_elem_of_fmap.
      eauto using list_elem_of_lookup_2.
    - intros b [_ Hb]%base_cases_elem. apply not_cross_ref_true. auto. }
  assert (List.filter (λ td, negb (not_cross_ref (map fst R) td)) R = placed) as HP.
  { set (names := map fst R). rewrite Hbase. subst names.
    rewrite List.filter_app, filter_none, filter_all.
    - done.
    - intros q [j Hj]%list_elem_of_lookup.
      apply negb_true_iff, negb_false_iff, bool_decide_eq_true.
      destruct (Hprod (length (base_cases T) + j) q) as (k & p & _ & _ & Hk & Hp).
      { by rewrite Hbase, lookup_app_r, Nat.add_comm, Nat.add_sub by lia. }
      { lia. }
      rewrite <- Hp. apply list_elem_of_fmap.
      eauto using list_elem_of_lookup_2.
    - intros b [_ Hb]%base_cases_elem.
      apply negb_false_iff, not_cross_ref_true. auto. }
  unfold sort_pairs in HR |- *. rewrite move_matching_spec in HR |- *.
  simpl in HR |- *. rewrite HB, HP.
  apply unlock_loop_replay in HR as (placed' & HR' & _ & Hreplay).
  fold (base_cases T) in HR'.
  assert (placed' = placed) as -> by (apply (app_inv_head (base_cases T)); congruence).
  apply Hreplay. fold (base_cases T).
  rewrite (f_equal length Hbase), length_app. lia.
Qed.

(** ** Facts about the string primitives *)

Lemma str_app_assoc (a b c : string) : (a +:+ b) +:+ c = a +:+ (b +:+ c).
Proof. induction a as [|x a IH]; simpl; [done|]. by rewrite IH. Qed.

Lemma str_app_nil_r (a : string) : a +:+ "" = a.
Proof. induction a as [|x a IH]; simpl; [done|]. by rewrite IH. Qed.

Lemma all_chars_app f (a b : string) :
  all_chars f (a +:+ b) = all_chars f a && all_chars f b.
Proof.
  induction a as [|x a IH]; simpl; [done|]. by rewrite IH, andb_assoc.
Qed.

Lemma all_chars_impl (f g : ascii → bool) (s : string) :
  (∀ c, f c = true → g c = true) → all_chars f s = true → all_chars g s = true.
Proof.
  intros Hfg. induction s as [|c s IH]; simpl; [done|].
  intros [Hc Hs]%andb_true_iff. apply andb_true_iff. auto.
Qed.

Lemma token_no_nl (s : string) : token s → no_nl s.
Proof.
  intros [_ H]. revert H. apply all_chars_impl. intros c Hc.
  apply negb_true_iff. apply negb_true_iff in Hc.
  destruct (Ascii.eqb_spec c nl) as [->|]; [|done]. by vm_compute in Hc.
Qed.

Lemma split_ws_tokens (s : string) : Forall token (split_ws s).
Proof.
  induction s as [|c s IH]; simpl; [constructor|].
  destruct (is_space c) eqn:Hc; [done|].
  assert (token (String c "")) as Hc1.
  { split; [done|]. simpl. by rewrite Hc. }
  destruct s as [|c' s']; [by apply Forall_singleton|].
  destruct (is_space c') eqn:Hc'; [by constructor|].
  destruct (split_ws (String c' s')) as [|h t]; [by apply Forall_singleton|].
  apply Forall_cons in IH as [[Hh1 Hh2] Ht].
  constructor; [|done]. split; [done|]. simpl. by rewrite Hc, Hh2.
Qed.

Lemma split_ws_space (c : ascii) (s : string) :
  is_space c = true → split_ws (String c s) = split_ws s.
Proof. intros H. simpl. by rewrite H. Qed.

Lemma split_ws_token_app (tok rest : string) :
  token tok → starts_space rest →
  split_ws (tok +:+ rest) = tok :: split_ws rest.
Proof.
  intros [Hne Hall] Hrest. induction tok as [|c tok IH]; [done|].
  simpl in Hall. apply andb_true_iff in Hall as [Hc Htok].
  apply negb_true_iff in Hc.
  destruct tok as [|c2 tok].
  - simpl. rewrite Hc. destruct rest as [|c' rest]; [done|].
    simpl in Hrest. rewrite Hrest. done.
  - specialize (IH ltac:(done) Htok).
    change (String c (String c2 tok) +:+ rest)
      with (String c (String c2 tok +:+ rest)).
    remember (String c2 tok +:+ rest) as s' eqn:Hs'.
    simpl. rewrite Hc. rewrite IH.
    rewrite Hs' at 1. simpl.
    simpl in Htok. apply andb_true_iff in Htok as [Hc2 _].
    apply negb_true_iff in Hc2. by rewrite Hc2.
Qed.

Lemma split_ws_token (tok : string) : token tok → split_ws tok = [tok].
Proof.
  intros H. rewrite <- (str_app_nil_r tok) at 1.
  by rewrite split_ws_token_app.
Qed.

Lemma endswith_app (s t : string) : endswith (s +:+ t) t = true.
Proof.
  induction s as [|c s IH]; simpl.
  - destruct t; simpl; by rewrite ?Ascii.eqb_refl, ?String.eqb_refl.
  - rewrite IH. apply orb_true_r.
Qed.

Lemma drop_last_app_char (s : string) (c : ascii) :
  drop_last (s +:+ String c "") = s.
Proof.
  induction s as [|a s IH]; [done|].
  destruct s as [|b s]; [done|].
  change (drop_last (String a (String b s +:+ String c "")) = String a (String b s)).
  simpl in IH |- *. by rewrite IH.
Qed.

Lemma split_on_no_sep (sep : ascii) (s : string) :
  all_chars (λ c, negb (Ascii.eqb c sep)) s = true → split_on sep s = [s].
Proof.
  induction s as [|c s IH]; simpl; [done|].
  intros [Hc Hs]%andb_true_iff. apply negb_true_iff in Hc.
  by rewrite Hc, IH.
Qed.

Lemma split_on_app (sep : ascii) (a b : string) :
  all_chars (λ c, negb (Ascii.eqb c sep)) a = true →
  split_on sep (a +:+ String sep b) = a :: split_on sep b.
Proof.
  induction a as [|c a IH]; simpl.
  - intros _. by rewrite Ascii.eqb_refl.
  - intros [Hc Ha]%andb_true_iff. apply negb_true_iff in Hc.
    by rewrite Hc, IH.
Qed.

Lemma split_on_join (ls : list string) :
  ls ≠ [] → Forall no_nl ls → split_on nl (join nl_s ls) = ls.
Proof.
  induction ls as [|l ls IH]; [done|]. intros _ Hall.
  apply Forall_cons in Hall as [Hl Hls].
  destruct ls as [|l' ls].
  - simpl. by apply split_on_no_sep.
  - change (join nl_s (l :: l' :: ls)) with (l +:+ String nl (join nl_s (l' :: ls))).
    rewrite split_on_app by done. f_equal. by apply IH.
Qed.

(** ** Re-parsing the output of [sort_typedefs] *)

Lemma Forall_removelast {A} (P : A → Prop) (l : list A) :
  Forall P l → Forall P (removelast l).
Proof.
  induction l as [|x l IH]; simpl; [done|].
  intros [Hx Hl]%Forall_cons. destruct l; [constructor|].
  constructor; [done|]. by apply IH.
Qed.

Lemma last_item_elem {A} (x : A) (l : list A) : last_item x l ∈ x :: l.
Proof.
  unfold last_item. induction l as [|y l IH]; [left|].
  destruct l as [|z l]; [right; left|].
  change (List.last (y :: z :: l) x) with (List.last (z :: l) x).
  apply elem_of_cons in IH as [->|IH]; [left|by do 2 right].
Qed.

Lemma parse_line_valid (l : string) (p : typedef) :
  parse_typedef_line l = Ok (Some p) → valid_pair p.
Proof.
  unfold parse_typedef_line.
  destruct (String.eqb l ""); [done|].
  destruct (endswith l ";"); [|done]. cbn [negb].
  pose proof (split_ws_tokens (drop_last l)) as Htok.
  destruct (split_ws (drop_last l)) as [|p0 rest] eqn:Hparts; [done|].
  destruct (String.eqb p0 "typedef"); [|done]. cbn [negb].
  intros [= <-]. split; simpl.
  - rewrite Forall_forall in Htok. apply Htok, last_item_elem.
  - exists (middle (p0 :: rest)). split; [|done].
    unfold middle. simpl. apply Forall_removelast.
    by apply Forall_cons in Htok as [_ ?].
Qed.

Lemma parse_typedefs_valid (ls : list string) (T : list typedef) :
  parse_typedefs ls = Ok T → Forall valid_pair T.
Proof.
  revert T. induction ls as [|l ls IH]; simpl; intros T.
  - intros [= <-]. constructor.
  - destruct (parse_typedef_line l) as [t| |] eqn:Hl; [|done..]. simpl.
    destruct (parse_typedefs ls) as [rest| |]; [|done..]. simpl.
    intros [= <-]. specialize (IH rest eq_refl).
    destruct t as [td|]; [|done].
    constructor; [|done]. by eapply parse_line_valid.
Qed.

Lemma token_typedef : token "typedef".
Proof. split; [done|]. by vm_compute. Qed.

Lemma split_ws_join_snoc (toks : list string) (new : string) :
  Forall token toks → token new →
  split_ws (join " " toks +:+ " " +:+ new) = toks ++ [new].
Proof.
  intros Htoks Hnew. induction toks as [|t ts IH].
  - change (join " " [] +:+ " " +:+ new) with (String " " new).
    rewrite split_ws_space by done. by apply split_ws_token.
  - apply Forall_cons in Htoks as [Ht Hts]. specialize (IH Hts).
    destruct ts as [|t' ts].
    + change (join " " [t]) with t.
      rewrite split_ws_token_app by done.
      change (" " +:+ new) with (String " " new).
      rewrite split_ws_space by done. by rewrite split_ws_token.
    + change (join " " (t :: t' :: ts)) with (t +:+ " " +:+ join " " (t' :: ts)).
      rewrite !str_app_assoc.
      rewrite split_ws_token_app by done.
      change (" " +:+ join " " (t' :: ts) +:+ " " +:+ new)
        with (String " " (join " " (t' :: ts) +:+ " " +:+ new)).
      rewrite split_ws_space by done. by rewrite IH.
Qed.

Lemma typedef_line_snoc (p : typedef) :
  typedef_line p = ("typedef " +:+ p.2 +:+ " " +:+ p.1) +:+ ";".
Proof. unfold typedef_line. by rewrite !str_app_assoc. Qed.

Lemma parse_line_render (p : typedef) :
  valid_pair p → parse_typedef_line (typedef_line p) = Ok (Some p).
Proof.
  intros [Hnew (toks & Htoks & Hold)]. destruct p as [new old]. simpl in *.
  pose proof (endswith_app ("typedef " +:+ old +:+ " " +:+ new) ";") as Hends.
  pose proof (drop_last_app_char ("typedef " +:+ old +:+ " " +:+ new) ";") as Hdrop.
  pose proof (typedef_line_snoc (new, old)) as Hline. simpl fst in Hline; simpl snd in Hline.
  rewrite <- Hline in Hends, Hdrop.
  unfold parse_typedef_line. rewrite Hends, Hdrop. cbn [negb].
  change (typedef_line (new, old) =? "")%string with false. cbv iota.
  change ("typedef " +:+ old +:+ " " +:+ new)
    with ("typedef" +:+ String " " (old +:+ " " +:+ new)).
  rewrite split_ws_token_app by (done || apply token_typedef).
  rewrite split_ws_space by done.
  rewrite Hold, split_ws_join_snoc by done.
  change ("typedef" =? "typedef")%string with true. cbv iota. simpl negb. cbv iota.
  unfold last_item, middle. rewrite last_last.
  simpl tail. by rewrite removelast_last.
Qed.

Lemma join_space_no_nl (toks : list string) :
  Forall token toks → no_nl (join " " toks).
Proof.
  induction toks as [|t ts IH]; [done|].
  intros [Ht Hts]%Forall_cons. destruct ts as [|t' ts].
  - by apply token_no_nl.
  - change (join " " (t :: t' :: ts)) with (t +:+ " " +:+ join " " (t' :: ts)).
    unfold no_nl. rewrite !all_chars_app.
    rewrite (token_no_nl t Ht), (IH Hts). done.
Qed.

Lemma typedef_line_no_nl (p : typedef) : valid_pair p → no_nl (typedef_line p).
Proof.
  intros [Hnew (toks & Htoks & Hold)]. unfold typedef_line, no_nl.
  rewrite !all_chars_app, Hold.
  rewrite (join_space_no_nl toks Htoks), (token_no_nl _ Hnew). done.
Qed.

Lemma parse_typedefs_render_lines (r : list typedef) :
  Forall valid_pair r → parse_typedefs (map typedef_line r) = Ok r.
Proof.
  induction r as [|p r IH]; [done|]. intros [Hp Hr]%Forall_cons.
  simpl. rewrite parse_line_render by done. simpl. by rewrite IH.
Qed.

(** The lines of the output are the rendered pairs, one per line. *)
Lemma output_lines (r : list typedef) :
  r ≠ [] → Forall valid_pair r →
  split_on nl (join nl_s (map typedef_line r)) = map typedef_line r.
Proof.
  intros Hne Hr. apply split_on_join.
  - by destruct r.
  - apply Forall_fmap. eapply Forall_impl; [done|].
    intros p Hp. by apply typedef_line_no_nl.
Qed.

Lemma parse_typedefs_render (r : list typedef) :
  Forall valid_pair r →
  parse_typedefs (split_on nl (join nl_s (map typedef_line r))) = Ok r.
Proof.
  intros Hr. destruct r as [|p r]; [done|].
  rewrite output_lines by done. by apply parse_typedefs_render_lines.
Qed.

Lemma typedef_line_inj (p q : typedef) :
  valid_pair p → valid_pair q → typedef_line p = typedef_line q → p = q.
Proof.
  intros Hp Hq Heq.
  pose proof (parse_line_render p Hp) as H1.
  rewrite Heq, parse_line_render in H1 by done. congruence.
Qed.

(** The result of [sort_typedefs], unfolded. *)
Lemma sort_typedefs_ok (x out : string) :
  sort_typedefs x = Ok out ↔
  ∃ T r, parse_typedefs (split_on nl x) = Ok T ∧ sort_pairs T = Ok r
         ∧ out = join nl_s (map typedef_line r).
Proof.
  unfold sort_typedefs. split.
  - destruct (parse_typedefs (split_on nl x)) as [T| |]; [|done..]. simpl.
    destruct (sort_pairs T) as [r| |] eqn:Hr; [|done..]. simpl.
    intros [= <-]. eauto.
  - intros (T & r & -> & Hr & ->). simpl. by rewrite Hr.
Qed.

Lemma sort_typedefs_parsed (x : string) (T : list typedef) :
  parse_typedefs (split_on nl x) = Ok T →
  ∃ r, sort_pairs T = Ok r
       ∧ sort_typedefs x = Ok (join nl_s (map typedef_line r)).
Proof.
  intros HT. destruct (sort_pairs_spec T) as (r & _ & Hr & _).
  exists r. split; [done|]. apply sort_typedefs_ok. eauto.
Qed.

Lemma sort_typedefs_idempotent (x out : string) :
  sort_typedefs x = Ok out → sort_typedefs out = Ok out.
Proof.
  intros (T & r & HT & Hr & ->)%sort_typedefs_ok.
  apply sort_typedefs_ok. exists r, r. split_and!; [|by eapply sort_pairs_idempotent|done].
  apply parse_typedefs_render.
  apply parse_typedefs_valid in HT. rewrite Forall_forall in HT |- *.
  intros p Hp. apply HT. by eapply sort_pairs_subset.
Qed.

(** ** Well-formed typedef blocks *)

Lemma well_formed_line_parses (l : string) :
  String.eqb l "" || well_formed_line l = true →
  ∃ t, parse_typedef_line l = Ok t.
Proof.
  unfold parse_typedef_line, well_formed_line.
  destruct (String.eqb l ""); [eauto|]. simpl.
  destruct (endswith l ";"); [|done]. simpl.
  destruct (split_ws (drop_last l)) as [|kw [|a [|b rest]]]; [done..|].
  intros ->. cbn [negb]. eauto.
Qed.

Lemma well_formed_lines_parse (ls : list string) :
  forallb (λ l, String.eqb l "" || well_formed_line l) ls = true →
  ∃ T, parse_typedefs ls = Ok T.
Proof.
  induction ls as [|l ls IH]; simpl; [eauto|].
  intros [Hl Hls]%andb_true_iff.
  destruct (well_formed_line_parses l Hl) as [t ->].
  destruct (IH Hls) as [T ->]. simpl. eauto.
Qed.

Lemma well_formed_parses (x : string) :
  well_formed x = true → ∃ T, parse_typedefs (split_on nl x) = Ok T.
Proof. apply well_formed_lines_parse. Qed.

Lemma typedef_line_nonempty (p : typedef) : typedef_line p ≠ "".
Proof. done. Qed.

(** A line of the output that renders a parsed pair is at the position of
    that pair in [r]. *)
Lemma line_at_lookup (r : list typedef) (i : nat) (p : typedef) :
  Forall valid_pair r → valid_pair p →
  line_at (join nl_s (map typedef_line r)) i p ↔ r !! i = Some p.
Proof.
  intros Hr Hp. unfold line_at. destruct (decide (r = [])) as [->|Hne].
  - split; [|done]. intros H. destruct i as [|i]; [|done].
    assert ("" = typedef_line p) by (simpl in H; congruence). done.
  - rewrite output_lines, list_lookup_fmap by done. split.
    + destruct (r !! i) as [p'|] eqn:Hi; [|done]. simpl. intros H.
      assert (typedef_line p' = typedef_line p) by congruence.
      f_equal. apply typedef_line_inj; [|done..].
      rewrite Forall_forall in Hr. apply Hr. by eapply list_elem_of_lookup_2.
    + by intros ->.
Qed.

(** ** SchemaMerger *)

#[local] Arguments attrib_name : simpl never.
#[local] Arguments len : simpl never.
#[local] Arguments merge_step : simpl never.

Lemma for_each_cons {A S} (body : S → A → result S) x xs s :
  for_each body (x :: xs) s = body s x ≫= for_each body xs.
Proof. done. Qed.

Lemma Element_ind (P : Element → Prop) :
  (∀ t at' x cs, Forall P cs → P (Elem t at' x cs)) → ∀ e, P e.
Proof.
  intros H. fix IH 1. intros [t at' x cs]. apply H.
  induction cs as [|c cs IHcs]; constructor; [apply IH|apply IHcs].
Qed.

Lemma wf_schema_children (e : Element) :
  wf_schema e = true →
  Forall (λ c, is_Some (attrib_name c)) (children e)
  ∧ NoDup (attrib_name <$> children e)
  ∧ Forall (λ c, wf_schema c = true) (children e).
Proof.
  destruct e as [t at' x cs]. simpl.
  intros [[H1 H2]%andb_true_iff H3]%andb_true_iff.
  split_and!.
  - apply Forall_forall. intros c Hc%list_elem_of_In.
    rewrite forallb_forall in H1. by apply H1, bool_decide_eq_true in Hc.
  - by apply bool_decide_eq_true in H2.
  - apply Forall_forall. intros c Hc%list_elem_of_In.
    rewrite forallb_forall in H3. by apply H3.
Qed.

Lemma NoDup_fmap_elem_inj {A B} (f : A → B) (l : list A) x y :
  NoDup (f <$> l) → x ∈ l → y ∈ l → f x = f y → x = y.
Proof.
  induction l as [|z l IH]; intros Hnd Hx Hy Heq.
  - by apply elem_of_nil in Hx.
  - rewrite fmap_cons in Hnd. apply NoDup_cons in Hnd as [Hz Hnd].
    apply elem_of_cons in Hx as [->|Hx]; apply elem_of_cons in Hy as [->|Hy].
    + done.
    + exfalso. apply Hz. rewrite Heq. apply list_elem_of_fmap. eauto.
    + exfalso. apply Hz. rewrite <- Heq. apply list_elem_of_fmap. eauto.
    + by apply IH.
Qed.

Lemma index_children_ok (cs : list Element) :
  Forall (λ c, is_Some (attrib_name c)) cs →
  ∀ i d pre, indexes d pre →
  ∃ d', index_children i cs d = Ok d' ∧ indexes d' (pre ++ cs).
Proof.
  induction cs as [|c cs IH]; intros Hall i d pre Hd; simpl.
  - exists d. by rewrite app_nil_r.
  - apply Forall_cons in Hall as [[n Hn] Hall]. rewrite Hn.
    rewrite (cons_middle c pre cs), app_assoc. apply IH; [done|].
    intros m. destruct (decide (n = m)) as [<-|Hne].
    + rewrite lookup_insert_eq. simpl. split_and!; [|done..].
      apply elem_of_app. right. left.
    + rewrite lookup_insert_ne by done. specialize (Hd m).
      destruct (d !! m) as [e|].
      * destruct Hd as (? & ? & ?). split_and!; [|done..].
        apply elem_of_app. by left.
      * intros c' [Hc'|Hc']%elem_of_app; [by apply Hd|].
        apply list_elem_of_singleton in Hc' as ->. congruence.
Qed.

Lemma conflict_cons_skip acs bc bcs path p n :
  (∀ ac, ac ∈ acs → attrib_name ac ≠ attrib_name bc) →
  conflict acs (bc :: bcs) path p n → conflict acs bcs path p n.
Proof.
  intros Hskip Hc.
  inversion Hc as [? ? ac bc' ? name Hac Hbc Hna Hnb Hlen
                  |? ? ac bc' ? name ? ? Hac Hbc Hna Hnb Hla Hlb Hsub]; subst.
  - apply elem_of_cons in Hbc as [->|Hbc].
    + destruct (Hskip ac Hac). congruence.
    + by eapply conflict_here.
  - apply elem_of_cons in Hbc as [->|Hbc].
    + destruct (Hskip ac Hac). congruence.
    + by eapply conflict_below.
Qed.

Lemma conflict_cons_inv acs ac bc bcs path name p n :
  NoDup (attrib_name <$> acs) →
  ac ∈ acs → attrib_name ac = Some name → attrib_name bc = Some name →
  (len bc =? 0) = (len ac =? 0) →
  (len ac ≠ 0 → len bc ≠ 0 →
   ¬ conflict (children ac) (children bc) (path +:+ "." +:+ name) p n) →
  conflict acs (bc :: bcs) path p n → conflict acs bcs path p n.
Proof.
  intros Hnd Hac Hna Hnb Hlen Hsub Hc.
  inversion Hc as [? ? ac' bc' ? name' Hac' Hbc Hna' Hnb' Hlen'
                  |? ? ac' bc' ? name' ? ? Hac' Hbc Hna' Hnb' Hla Hlb Hsub']; subst.
  - apply elem_of_cons in Hbc as [->|Hbc]; [|by eapply conflict_here].
    assert (ac' = ac) as -> by (apply (NoDup_fmap_elem_inj attrib_name acs); congruence).
    done.
  - apply elem_of_cons in Hbc as [->|Hbc]; [|by eapply conflict_below].
    assert (ac' = ac) as -> by (apply (NoDup_fmap_elem_inj attrib_name acs); congruence).
    assert (name' = name) as -> by congruence.
    by destruct (Hsub Hla Hlb).
Qed.

Lemma conflict_weaken acs bc bcs path p n :
  conflict acs bcs path p n → conflict acs (bc :: bcs) path p n.
Proof.
  intros Hc.
  inversion Hc as [? ? ac bc' ? name Hac Hbc Hna Hnb Hlen
                  |? ? ac bc' ? name ? ? Hac Hbc Hna Hnb Hla Hlb Hsub]; subst.
  - eapply conflict_here; [done|by right|done..].
  - eapply conflict_below; [done|by right|done..].
Qed.

Lemma merge_step_named merge path st b_child name :
  attrib_name b_child = Some name →
  merge_step merge path st b_child
  = match ms_dict st !! name with
    | Some e =>
        if negb (Bool.eqb (len b_child =? 0) (len (ae_elem e) =? 0)) then
          Raise (SchemaFormatError (conflict_message path name))
        else if negb (len b_child =? 0) && negb (len (ae_elem e) =? 0) then
          a_child' ← merge (ae_elem e) b_child (path +:+ "." +:+ name);
          Ok (update_entry name e a_child' st)
        else replace_entry name e b_child st
    | None => Ok (append_child b_child st)
    end.
Proof. intros H. unfold merge_step. by rewrite H. Qed.

Lemma merge_outcome_weaken {A} acs bc bcs path (res : result A) :
  (∀ p n, conflict acs (bc :: bcs) path p n → conflict acs bcs path p n) →
  merge_outcome acs bcs path res → merge_outcome acs (bc :: bcs) path res.
Proof.
  intros Hinv. destruct res as [x|e|]; simpl; [|clear Hinv|done].
  - intros H p n Hc. by apply (H p n), Hinv.
  - intros (p & n & ? & Hc). exists p, n. split; [done|]. by apply conflict_weaken.
Qed.

(** The loop over the children of [b]: it raises exactly when one of them
    meets a conflict. *)
Lemma merge_loop_outcome
    (merge : Element → Element → string → result Element)
    (acs : list Element) (path : string) (bcs : list Element) :
  NoDup (attrib_name <$> acs) →
  Forall (λ c, wf_schema c = true) acs →
  Forall (λ bc, ∀ a p, wf_schema a = true → wf_schema bc = true →
                merge_outcome (children a) (children bc) p (merge a bc p)) bcs →
  Forall (λ c, is_Some (attrib_name c)) bcs →
  NoDup (attrib_name <$> bcs) →
  Forall (λ c, wf_schema c = true) bcs →
  ∀ st,
    (∀ n, Some n ∈ attrib_name <$> bcs →
          match ms_dict st !! n with
          | Some e => ae_elem e ∈ acs ∧ attrib_name (ae_elem e) = Some n
                      ∧ ae_in_list e = true
          | None => ∀ c, c ∈ acs → attrib_name c ≠ Some n
          end) →
    merge_outcome acs bcs path (for_each (merge_step merge path) bcs st).
Proof.
  intros Hnda Hwfa.
  induction bcs as [|bc bcs IH]; intros Hrec Hnames Hndb Hwfb st Hst.
  - simpl. intros p n Hc.
    inversion Hc as [? ? ? ? ? ? ? Hbc|? ? ? ? ? ? ? ? ? Hbc]; subst;
      by apply elem_of_nil in Hbc.
  - apply Forall_cons in Hrec as [Hrec_bc Hrec].
    apply Forall_cons in Hnames as [[name Hname] Hnames].
    rewrite fmap_cons in Hndb. apply NoDup_cons in Hndb as [Hfresh Hndb].
    apply Forall_cons in Hwfb as [Hwf_bc Hwfb].
    specialize (IH Hrec Hnames Hndb Hwfb).
    assert (∀ st', (∀ n, n ≠ name → ms_dict st' !! n = ms_dict st !! n) →
              merge_outcome acs bcs path
                (for_each (merge_step merge path) bcs st')) as Hnext.
    { intros st' Hsame. apply IH. intros n Hn. rewrite Hsame.
      - apply Hst. rewrite fmap_cons. by right.
      - intros ->. apply Hfresh. by rewrite Hname. }
    clear IH.
    pose proof (Hst name) as Hd.
    rewrite fmap_cons, Hname in Hd. specialize (Hd ltac:(left)).
    rewrite for_each_cons, (merge_step_named _ _ _ _ _ Hname).
    destruct (ms_dict st !! name) as [e|] eqn:He.
    + destruct Hd as (Hac & Hna & Hin).
      destruct (Bool.eqb (len bc =? 0) (len (ae_elem e) =? 0)) eqn:Hleaf;
        cbn [negb].
      * apply Bool.eqb_prop in Hleaf.
        destruct (len bc =? 0) eqn:Hlb; rewrite <- Hleaf; cbn [negb andb].
        -- unfold replace_entry. rewrite Hin.
           apply merge_outcome_weaken.
           ++ intros p n.
              apply (conflict_cons_inv acs (ae_elem e) bc bcs path name p n
                       Hnda Hac Hna Hname); [by rewrite Hlb|].
              intros _ Hnz. by apply Nat.eqb_eq in Hlb.
           ++ apply Hnext. intros n Hn. simpl. by rewrite lookup_insert_ne.
        -- specialize (Hrec_bc (ae_elem e) (path +:+ "." +:+ name)).
           lapply Hrec_bc.
           2:{ rewrite Forall_forall in Hwfa. by apply Hwfa. }
           clear Hrec_bc. intros Hrec_bc. specialize (Hrec_bc Hwf_bc).
           destruct (merge (ae_elem e) bc (path +:+ "." +:+ name))
             as [a_child'|err|]; [| |done].
           ++ apply merge_outcome_weaken.
              ** intros p n.
                 apply (conflict_cons_inv acs (ae_elem e) bc bcs path name p n
                          Hnda Hac Hna Hname); [by rewrite Hlb|].
                 intros _ _. apply Hrec_bc.
              ** apply Hnext. intros n Hn. simpl. by rewrite lookup_insert_ne.
           ++ destruct Hrec_bc as (p & n & -> & Hc). exists p, n. split; [done|].
              eapply conflict_below; [done|by left|done..| | |done].
              ** apply Nat.eqb_neq. by rewrite <- Hleaf.
              ** by apply Nat.eqb_neq.
      * exists path, name. split; [done|].
        eapply conflict_here; [done|by left|done..|].
        intros Heq. rewrite Heq, Bool.eqb_reflx in Hleaf. done.
    + apply merge_outcome_weaken.
      * intros p n. apply conflict_cons_skip.
        intros ac Hac. rewrite Hname. by apply Hd.
      * by apply Hnext.
Qed.

Lemma merge_schema_outcome (b : Element) :
  ∀ a path, wf_schema a = true → wf_schema b = true →
    merge_outcome (children a) (children b) path (_merge_schema_entries a b path).
Proof.
  induction b as [t at' x bcs IH] using Element_ind. intros a path Hwfa Hwfb.
  apply wf_schema_children in Hwfa as (Hna & Hnda & Hwfa).
  apply wf_schema_children in Hwfb as (Hnb & Hndb & Hwfb).
  simpl in Hnb, Hndb, Hwfb.
  destruct (index_children_ok (children a) Hna 0 ∅ []) as (d & Hd & Hidx).
  { intros n. rewrite lookup_empty. by intros c ?%elem_of_nil. }
  simpl in Hidx.
  change (_merge_schema_entries a (Elem t at' x bcs) path)
    with (a_children ← index_children 0 (children a) ∅;
          st ← for_each (merge_step (λ a' b', _merge_schema_entries a' b') path)
                 bcs (MergeState a_children (Some <$> children a) []);
          Ok (Elem (tag a) (attrib a) (text a) (merged_children st))).
  rewrite Hd. cbn [mbind result_bind].
  pose proof (merge_loop_outcome (λ a' b', _merge_schema_entries a' b')
                (children a) path bcs Hnda Hwfa IH Hnb Hndb Hwfb
                (MergeState d (Some <$> children a) [])) as Hloop.
  lapply Hloop; [|intros n _; apply Hidx]. clear Hloop.
  simpl children.
  by destruct (for_each _ bcs _) as [st|e|].
Qed.

(** ** Dictionaries *)

Lemma dict_get_set_eq {V} (k : string) (v : V) (d : dict V) :
  dict_get k (dict_set k v d) = Some v.
Proof.
  induction d as [|[k' v'] d IH]; simpl.
  - by rewrite String.eqb_refl.
  - destruct (String.eqb k' k) eqn:Hk; simpl; rewrite Hk; [done|apply IH].
Qed.

Lemma dict_get_set_ne {V} (k k0 : string) (v : V) (d : dict V) :
  k ≠ k0 → dict_get k0 (dict_set k v d) = dict_get k0 d.
Proof.
  intros Hne. induction d as [|[k' v'] d IH]; simpl.
  - by apply String.eqb_neq in Hne as ->.
  - destruct (String.eqb k' k) eqn:Hk; simpl.
    + apply String.eqb_eq in Hk as ->.
      by apply String.eqb_neq in Hne as ->.
    + by rewrite IH.
Qed.

Lemma dict_get_append_line_eq (k line : string) (d : dict (list string)) :
  dict_get k (append_line k line d) = (λ lines, lines ++ [line]) <$> dict_get k d.
Proof.
  unfold append_line. induction d as [|[k' v'] d IH]; simpl; [done|].
  destruct (String.eqb k' k) eqn:Hk; simpl; rewrite Hk; [done|apply IH].
Qed.

Lemma dict_get_append_line_ne (k k0 line : string) (d : dict (list string)) :
  k ≠ k0 → dict_get k0 (append_line k line d) = dict_get k0 d.
Proof.
  intros Hne. unfold append_line. induction d as [|[k' v'] d IH]; simpl; [done|].
  destruct (String.eqb k' k) eqn:Hk; simpl.
  - apply String.eqb_eq in Hk as ->.
    by apply String.eqb_neq in Hne as ->.
  - by rewrite IH.
Qed.

Lemma dict_keys_append_line (k line : string) (d : dict (list string)) :
  map fst (append_line k line d) = map fst d.
Proof.
  unfold append_line. induction d as [|[k' v'] d IH]; simpl; [done|].
  rewrite IH. by destruct (String.eqb k' k).
Qed.

Lemma dict_keys_set {V} (k : string) (v : V) (d : dict V) :
  map fst (dict_set k v d)
  = if bool_decide (k ∈ map fst d) then map fst d else map fst d ++ [k].
Proof.
  induction d as [|[k' v'] d IH]; simpl; [done|].
  destruct (String.eqb_spec k' k) as [->|Hne]; simpl.
  - rewrite bool_decide_eq_true_2 by left. done.
  - rewrite IH. destruct (bool_decide (k ∈ map fst d)) eqn:Hin.
    + apply bool_decide_eq_true in Hin.
      rewrite bool_decide_eq_true_2 by (by right). done.
    + apply bool_decide_eq_false in Hin.
      rewrite bool_decide_eq_false_2; [done|].
      intros [?|?]%elem_of_cons; congruence.
Qed.

Lemma dict_set_NoDup {V} (k : string) (v : V) (d : dict V) :
  NoDup (map fst d) → NoDup (map fst (dict_set k v d)).
Proof.
  intros Hnd. rewrite dict_keys_set. case_bool_decide as Hin; [done|].
  apply NoDup_app. split_and!; [done| |apply NoDup_singleton].
  intros x Hx ->%list_elem_of_singleton. done.
Qed.

Lemma dict_get_None {V} (k : string) (d : dict V) :
  dict_get k d = None ↔ k ∉ map fst d.
Proof.
  induction d as [|[k' v'] d IH]; simpl.
  - split; [|done]. intros _ ?%elem_of_nil. done.
  - destruct (String.eqb_spec k' k) as [->|Hne].
    + split; [done|]. intros H. destruct H. left.
    + rewrite IH. split.
      * intros H [?|?]%elem_of_cons; [congruence|done].
      * intros H ?. apply H. by right.
Qed.

Lemma dict_get_Some_elem {V} (k : string) (v : V) (d : dict V) :
  dict_get k d = Some v → (k, v) ∈ d.
Proof.
  induction d as [|[k' v'] d IH]; simpl; [done|].
  destruct (String.eqb_spec k' k) as [->|Hne].
  - intros [= ->]. left.
  - intros H. right. by apply IH.
Qed.

(** ** SectionedFileParser *)

Lemma no_marker_for_cons (n l : string) (post : list string) :
  no_marker_for n (l :: post) = true →
  (is_marker (rstrip l) = true → marker_name (rstrip l) ≠ n)
  ∧ no_marker_for n post = true.
Proof.
  unfold no_marker_for. simpl. intros [Hl Hpost]%andb_true_iff.
  split; [|done]. intros Hm Hn. rewrite Hm, Hn, String.eqb_refl in Hl. done.
Qed.

Lemma scan_after_marker (n : string) (post : list string) :
  no_marker_for n post = true →
  ∀ d cur acc,
    dict_get n d = Some acc →
    dict_get n (sections (fold_left scan_line post (ScanState d cur)))
    = Some (acc ++ if bool_decide (cur = Some n) then section_content post else []).
Proof.
  induction post as [|l post IH]; intros Hno d cur acc Hacc; simpl.
  - by case_bool_decide; rewrite app_nil_r.
  - apply no_marker_for_cons in Hno as [Hl Hno].
    unfold scan_line at 2. simpl.
    destruct (is_marker (rstrip l)) eqn:Hm.
    + specialize (Hl eq_refl).
      rewrite (IH Hno _ _ acc).
      * rewrite (bool_decide_eq_false_2 (Some (marker_name (rstrip l)) = Some n))
          by congruence.
        by case_bool_decide.
      * by rewrite dict_get_set_ne.
    + destruct cur as [key|]; simpl.
      * destruct (decide (key = n)) as [->|Hne].
        -- rewrite (IH Hno _ _ (acc ++ [rstrip l])).
           ++ rewrite !bool_decide_eq_true_2 by done. by rewrite <- app_assoc.
           ++ by rewrite dict_get_append_line_eq, Hacc.
        -- rewrite (IH Hno _ _ acc).
           ++ by rewrite !(bool_decide_eq_false_2 (Some key = Some n)) by congruence.
           ++ by rewrite dict_get_append_line_ne.
      * rewrite (IH Hno _ _ acc) by done.
        by rewrite !(bool_decide_eq_false_2 (None = Some n)).
Qed.

(** The section named by the last marker for [n] is bound to the lines
    that follow that marker, whatever comes before it. *)
Lemma scan_last_marker (pre post : list string) (m n : string) :
  is_marker (rstrip m) = true → marker_name (rstrip m) = n →
  no_marker_for n post = true →
  dict_get n (scan_lines (pre ++ m :: post)) = Some (section_content post).
Proof.
  intros Hm Hn Hno. unfold scan_lines. rewrite fold_left_app. simpl.
  destruct (fold_left scan_line pre (ScanState [] None)) as [d cur].
  unfold scan_line at 2. simpl. rewrite Hm, Hn.
  rewrite (scan_after_marker n post Hno _ _ []).
  - by rewrite bool_decide_eq_true_2.
  - apply dict_get_set_eq.
Qed.

Lemma scan_line_NoDup (st : scan_state) (l : string) :
  NoDup (map fst (sections st)) → NoDup (map fst (sections (scan_line st l))).
Proof.
  intros Hnd. unfold scan_line. destruct (is_marker (rstrip l)); simpl.
  - by apply dict_set_NoDup.
  - destruct (current st); simpl; [|done]. by rewrite dict_keys_append_line.
Qed.

Lemma scan_lines_NoDup (lines : list string) : NoDup (map fst (scan_lines lines)).
Proof.
  unfold scan_lines.
  assert (∀ st, NoDup (map fst (sections st)) →
                NoDup (map fst (sections (fold_left scan_line lines st)))) as H.
  { induction lines as [|l lines IH]; intros st Hst; simpl; [done|].
    by apply IH, scan_line_NoDup. }
  apply H. simpl. apply NoDup_nil_2.
Qed.

Section parser_facts.
Context `{!Externals}.

Lemma render_sections_keys fn cfg d r :
  render_sections fn cfg d = Ok r → map fst r = map fst d.
Proof.
  revert r. induction d as [|[k v] d IH]; simpl; intros r.
  - by intros [= <-].
  - destruct (_render_data _) as [x| |]; [|done..]. simpl.
    destruct (render_sections fn cfg d) as [rest| |]; [|done..]. simpl.
    intros [= <-]. simpl. f_equal. by apply IH.
Qed.

Lemma render_sections_get fn cfg d r n value :
  render_sections fn cfg d = Ok r → dict_get n d = Some value →
  ∃ v, dict_get n r = Some v
       ∧ _render_data (section_call fn cfg n value) = Ok v.
Proof.
  revert r. induction d as [|[k v] d IH]; simpl; intros r; [done|].
  destruct (_render_data (section_call fn cfg k v)) as [x| |] eqn:Hx; [|done..].
  simpl. destruct (render_sections fn cfg d) as [rest| |]; [|done..]. simpl.
  intros [= <-]. simpl.
  destruct (String.eqb_spec k n) as [->|Hne].
  - intros [= <-]. eauto.
  - intros Hd. by apply IH.
Qed.

Lemma parse_sectioned_file_ok fs fn cfg r :
  _parse_sectioned_file fs fn cfg = Ok r →
  ∃ text, read_file fs fn = Ok text
          ∧ render_sections fn cfg (scan_lines (readlines text)) = Ok r
          ∧ check_required _REQUIRED_COMPONENT_SECTIONS fn r = Ok tt.
Proof.
  unfold _parse_sectioned_file.
  destruct (read_file fs fn) as [text| |]; [|done..].
  cbn [mbind result_bind].
  destruct (render_sections _ _ _) as [rendered| |] eqn:Hr; [|done..].
  cbn [mbind result_bind].
  destruct (check_required _REQUIRED_COMPONENT_SECTIONS fn rendered)
    as [[]| |] eqn:Hc; [|done..].
  cbn [mbind result_bind]. intros [= <-]. by exists text.
Qed.

Lemma render_sections_ext render fn cfg d :
  (∀ t n, render t cfg n = pystache_render t cfg n) →
  @render_sections (with_render _ render) fn cfg d = render_sections fn cfg d.
Proof.
  intros Hext. induction d as [|[k v] d IH]; [done|].
  cbn [render_sections]. rewrite IH.
  unfold _render_data. cbn [pystache_render with_render section_call
                             in_data render_config render_name].
  by rewrite Hext.
Qed.

Lemma parse_sectioned_file_ext render fs fn cfg :
  (∀ t n, render t cfg n = pystache_render t cfg n) →
  @_parse_sectioned_file (with_render _ render) fs fn cfg
  = _parse_sectioned_file fs fn cfg.
Proof.
  intros Hext. unfold _parse_sectioned_file.
  destruct (read_file fs fn) as [text| |]; [|done..]. cbn [mbind result_bind].
  by rewrite render_sections_ext.
Qed.

Lemma parse_sectioned_file_NoDup fs fn cfg r :
  _parse_sectioned_file fs fn cfg = Ok r → NoDup (map fst r).
Proof.
  intros (text & _ & Hr & _)%parse_sectioned_file_ok.
  rewrite (render_sections_keys _ _ _ _ Hr). apply scan_lines_NoDup.
Qed.
End parser_facts.

(** ** ComponentModel and SkeletonAssembler *)

Section component_facts.
Context `{!Externals}.

Lemma Component_find_Ok fs topdir partial_path path :
  Component_find fs topdir partial_path = Ok path →
  path_exists fs path = true
  ∧ path ∈ base_to_top_paths topdir ["components"; partial_path].
Proof.
  unfold Component_find.
  destruct (List.find _ _) as [p|] eqn:Hfind; [|done].
  intros [= <-]. apply find_some in Hfind as [Hin Hex].
  split; [done|]. by apply list_elem_of_In, in_rev.
Qed.

Lemma Component_find_cases fs topdir partial_path :
  (∃ path, Component_find fs topdir partial_path = Ok path)
  ∨ (∃ msg, Component_find fs topdir partial_path = Raise (KeyError msg)).
Proof. unfold Component_find. destruct (List.find _ _); eauto. Qed.

Lemma find_first_two fs topdir n1 n2 :
  find_first fs topdir [n1; n2]
  = match Component_find fs topdir n1 with
    | Ok path => Ok (Some path)
    | _ => match Component_find fs topdir n2 with
           | Ok path => Ok (Some path)
           | _ => Ok None
           end
    end.
Proof.
  simpl.
  destruct (Component_find_cases fs topdir n1) as [[p ->]|[m ->]]; [done|].
  by destruct (Component_find_cases fs topdir n2) as [[p ->]|[m' ->]].
Qed.

Lemma Component_parse_NoDup self fs topdir arg d :
  Component_parse self fs topdir arg = Ok d → NoDup (map fst d).
Proof.
  unfold Component_parse.
  destruct (find_first _ _ _) as [[path|]| |]; [|done..].
  cbn [mbind result_bind]. apply parse_sectioned_file_NoDup.
Qed.

Lemma ArchitectureComponent_parse_NoDup self fs topdir arg d :
  ArchitectureComponent_parse self fs topdir arg = Ok d → NoDup (map fst d).
Proof.
  unfold ArchitectureComponent_parse. destruct arg as [|a| |]; [done| |done..].
  destruct (find_first _ _ _) as [[path|]| |]; [|done..].
  cbn [mbind result_bind]. apply parse_sectioned_file_NoDup.
Qed.

Lemma parse_NoDup self fs topdir arg d :
  parse self fs topdir arg = Ok d → NoDup (map fst d).
Proof.
  unfold parse. destruct (cls self);
    eauto using Component_parse_NoDup, ArchitectureComponent_parse_NoDup.
Qed.
End component_facts.

Lemma add_section_lookup (m : gmap string (list string)) k v name0 :
  add_section m (k, v) !! name0
  = if decide (k = name0) then Some (default [] (m !! name0) ++ [v])
    else m !! name0.
Proof.
  unfold add_section. case_decide as Hk.
  - subst. rewrite lookup_insert_eq. case_bool_decide as Hin; [done|].
    rewrite lookup_insert_eq.
    destruct (m !! name0) eqn:Hm; [|done]. destruct Hin. eauto.
  - rewrite lookup_insert_ne by done. case_bool_decide; [done|].
    by rewrite lookup_insert_ne.
Qed.

Lemma fold_add_section_lookup (parsed : dict string)
    (m : gmap string (list string)) name0 :
  NoDup (map fst parsed) →
  fold_left add_section parsed m !! name0
  = match dict_get name0 parsed with
    | Some v => Some (default [] (m !! name0) ++ [v])
    | None => m !! name0
    end.
Proof.
  revert m. induction parsed as [|[k v] parsed IH]; intros m Hnd; [done|].
  simpl in Hnd. apply NoDup_cons in Hnd as [Hk Hnd].
  cbn [fold_left dict_get]. rewrite (IH _ Hnd), add_section_lookup.
  destruct (String.eqb_spec k name0) as [->|Hne].
  - rewrite decide_True by done.
    by apply dict_get_None in Hk as ->.
  - rewrite decide_False by done. done.
Qed.

Section skeleton_facts.
Context `{!Externals}.

Lemma get_module_sections_loop fs topdir arch comps parsed :
  Forall2 (λ c d, parse c fs topdir arch = Ok d) comps parsed →
  ∀ m, ∃ m',
    for_each (λ module_sections component,
                parsed0 ← parse component fs topdir arch;
                Ok (fold_left add_section parsed0 module_sections))
             comps m = Ok m'
    ∧ ∀ name0, m' !! name0
               = match m !! name0, contributions name0 parsed with
                 | None, [] => None
                 | o, l => Some (default [] o ++ l)
                 end.
Proof.
  induction 1 as [|c d comps parsed Hc _ IH]; intros m.
  - exists m. split; [done|]. intros name0. simpl.
    destruct (m !! name0); simpl; by rewrite ?app_nil_r.
  - rewrite for_each_cons, Hc. cbn [mbind result_bind].
    destruct (IH (fold_left add_section d m)) as (m' & -> & Hm').
    exists m'. split; [done|]. intros name0. rewrite Hm'.
    rewrite fold_add_section_lookup by by eapply parse_NoDup.
    unfold contributions. simpl.
    destruct (dict_get name0 d) as [v|]; simpl.
    + rewrite <- app_assoc. by destruct (m !! name0).
    + done.
Qed.
End skeleton_facts.

(** ** ModuleWriter *)

Lemma fold_header_blocks (blocks : list string) (written : string) :
  ∃ body, fold_left (λ w data, w +:+ data +:+ nl_s) blocks written
          = written +:+ body.
Proof.
  revert written. induction blocks as [|b blocks IH]; intros written; simpl.
  - exists "". by rewrite str_app_nil_r.
  - destruct (IH (written +:+ b +:+ nl_s)) as [body ->].
    exists (b +:+ nl_s +:+ body). by rewrite !str_app_assoc.
Qed.

Lemma write_header_sections_shape secs (l : list string) (written w : string) :
  for_each (write_header_section secs) l written = Ok w →
  ∃ body, w = written +:+ body.
Proof.
  revert written. induction l as [|ss l IH]; intros written.
  - intros [= <-]. exists "". by rewrite str_app_nil_r.
  - rewrite for_each_cons.
    destruct (write_header_section secs written ss) as [w1| |] eqn:H1; [|done..].
    cbn [mbind result_bind]. unfold write_header_section in H1.
    destruct (section_blocks secs ss) as [blocks| |]; [|done..].
    cbn [mbind result_bind] in H1. injection H1 as <-.
    destruct (fold_header_blocks blocks written) as [b1 ->].
    intros [b2 ->]%IH. exists (b1 +:+ b2). by rewrite str_app_assoc.
Qed.

Lemma path_join_inj (d x y : string) :
  startswith x "/" = false → startswith y "/" = false →
  path_join d x = path_join d y → x = y.
Proof.
  unfold path_join. intros -> ->.
  destruct (String.eqb d "" || endswith d "/").
  - apply String.app_inj.
  - intros H. apply String.app_inj in H. by apply String.app_inj in H.
Qed.

Lemma open_w_Ok fs fn fs1 :
  open_w fs fn = Ok fs1 → fs1 = <[fn := File ""]> fs.
Proof. unfold open_w. destruct (fs !! fn) as [[|]|]; by intros [= <-]. Qed.

Lemma copyfile_lookup_ne fs src dst fs' k :
  copyfile fs src dst = Ok fs' → k ≠ dst → fs' !! k = fs !! k.
Proof.
  unfold copyfile. destruct (String.eqb src dst); [done|].
  destruct (read_file fs src) as [text| |]; [|done..]. cbn [mbind result_bind].
  destruct (open_w fs dst) as [fs1| |] eqn:Ho; [|done..]. cbn [mbind result_bind].
  apply open_w_Ok in Ho as ->. intros [= <-] Hne. unfold close_w.
  by rewrite !lookup_insert_ne.
Qed.

Lemma makedirs_Ok fs d fs1 :
  makedirs fs d = Ok fs1 → fs1 !! d = Some Dir.
Proof.
  unfold makedirs. destruct (fs !! d) as [[|]|] eqn:Hd; [done| |].
  - by intros [= <-].
  - intros [= <-]. apply lookup_insert_eq.
Qed.

Section writer_facts.
Context `{!Externals}.

Lemma header_text_shape self h :
  header_text self = Ok h →
  ∃ body,
    h = "#ifndef " +:+ header_mod_name self +:+ "_H" +:+ nl_s
        +:+ "#define " +:+ header_mod_name self +:+ "_H" +:+ nl_s
        +:+ body
        +:+ nl_s +:+ "#endif /* " +:+ header_mod_name self +:+ "_H */".
Proof.
  unfold header_text. cbv zeta.
  destruct (for_each _ header_sections _) as [w| |] eqn:Hw; [|done..].
  cbn [mbind result_bind]. intros [= <-].
  apply write_header_sections_shape in Hw as [body ->].
  exists body. by rewrite !str_app_assoc.
Qed.

(** A successful [_render] leaves the text of [header_text] in the header
    file of the module directory. *)
Lemma render_header_file self fs fs' :
  _render self fs = Ok fs' →
  ∃ h, header_text self = Ok h
       ∧ fs' !! path_join
                  (base_path ["packages"; arch_name (_arch self);
                              _module_name self])
                  (_module_name self +:+ ".h")
         = Some (File h).
Proof.
  unfold _render, _module_dir.
  set (d := base_path _).
  destruct (makedirs fs d) as [fs1| |]; [|done..]. cbn [mbind result_bind].
  destruct (makedirs fs1 d) as [fs2| |]; [|done..]. cbn [mbind result_bind].
  destruct (makedirs fs2 d) as [fs3| |]; [|done..]. cbn [mbind result_bind].
  destruct (makedirs fs3 d) as [fs4| |]; [|done..]. cbn [mbind result_bind].
  destruct (open_w fs4 _) as [fs5| |]; [|done..]. cbn [mbind result_bind].
  destruct (for_each _ source_sections _) as [source| |]; [|done..].
  cbn [mbind result_bind].
  destruct (open_w (close_w fs5 _ source) _) as [fs6| |]; [|done..].
  cbn [mbind result_bind].
  destruct (header_text self) as [h| |]; [|done..]. cbn [mbind result_bind].
  destruct (open_w (close_w fs6 _ h) _) as [fs7| |] eqn:Ho7; [|done..].
  cbn [mbind result_bind].
  destruct (_merge_schema_sections _) as [schema0| |]; [|done..].
  cbn [mbind result_bind].
  intros Hcopy. exists h. split; [done|].
  rewrite (copyfile_lookup_ne _ _ _ _ _ Hcopy).
  - apply open_w_Ok in Ho7 as ->. unfold close_w.
    rewrite lookup_insert_ne; [rewrite lookup_insert_ne|];
      [apply lookup_insert_eq| |].
    + intros Heq. by apply path_join_inj in Heq.
    + intros Heq. by apply path_join_inj in Heq.
  - intros Heq. by apply path_join_inj in Heq.
Qed.
End writer_facts.

(** * The claims *)

(** ** TypedefSorter *)

(** C2, as stated, fails on a block that declares a name twice: in
    [typedef int A; typedef A B; typedef B A;] the pair [(A, B)] is placed
    on line 2, after its consumer [(B, A)] on line 1. *)
Lemma C2_counterexample :
  well_formed block_dup = true
  ∧ parse_typedefs (split_on nl block_dup)
    = Ok [("A", "int"); ("B", "A"); ("A", "B")]
  ∧ sort_typedefs block_dup = Ok block_dup
  ∧ line_at block_dup 2 ("A", "B")
  ∧ line_at block_dup 1 ("B", "A")
  ∧ ("B", "A").2 = ("A", "B").1
  ∧ ¬ (2 < 1).
Proof. split_and!; try (by vm_compute). lia. Qed.

(** C2 (amended): for a well-formed block, every output line whose old type
    is a name declared in the block stands strictly after an output line
    that declares that name; and when no name is declared twice, for all
    parsed pairs [p] and [q] on output lines with [q]'s old type equal to
    [p]'s new name, [p]'s line is strictly before [q]'s line. *)
Theorem C2_producer_before_consumer (x : string) :
  well_formed x = true →
  ∃ T out,
    parse_typedefs (split_on nl x) = Ok T
    ∧ sort_typedefs x = Ok out
    ∧ (∀ j q, q ∈ T → line_at out j q → q.2 ∈ map fst T →
         ∃ k p, k < j ∧ p ∈ T ∧ line_at out k p ∧ p.1 = q.2)
    ∧ (NoDup (map fst T) →
       ∀ i j p q, p ∈ T → q ∈ T → line_at out i p → line_at out j q →
                  q.2 = p.1 → i < j).
Proof.
  intros Hwf. destruct (well_formed_parses x Hwf) as [T HT].
  destruct (sort_typedefs_parsed x T HT) as (r & Hr & Hout).
  pose proof (parse_typedefs_valid _ _ HT) as Hvalid.
  rewrite Forall_forall in Hvalid.
  assert (Forall valid_pair r) as Hrvalid.
  { apply Forall_forall. intros p Hp. apply Hvalid. by eapply sort_pairs_subset. }
  exists T, (join nl_s (map typedef_line r)). split_and!; [done..| |].
  - intros j q HqT Hj Hq. apply line_at_lookup in Hj; [|by auto..].
    destruct (sort_pairs_producer T r j q Hr Hj Hq) as (k & p & Hk & Hkp & Hp).
    assert (p ∈ T) by eauto using sort_pairs_subset, list_elem_of_lookup_2.
    exists k, p. split_and!; [done..| |done].
    apply line_at_lookup; auto.
  - intros Hnd i j p q HpT HqT Hi Hj Hqp.
    apply line_at_lookup in Hi; [|by auto..].
    apply line_at_lookup in Hj; [|by auto..].
    by eapply sort_pairs_order.
Qed.

Lemma C2_witness :
  well_formed block_chain = true
  ∧ ∃ T out,
    parse_typedefs (split_on nl block_chain) = Ok T
    ∧ sort_typedefs block_chain = Ok out
    ∧ (∀ j q, q ∈ T → line_at out j q → q.2 ∈ map fst T →
         ∃ k p, k < j ∧ p ∈ T ∧ line_at out k p ∧ p.1 = q.2)
    ∧ (NoDup (map fst T) →
       ∀ i j p q, p ∈ T → q ∈ T → line_at out i p → line_at out j q →
                  q.2 = p.1 → i < j).
Proof.
  split; [reflexivity|]. apply (C2_producer_before_consumer block_chain).
  reflexivity.
Defined.

(** C4, as stated, fails on the same block: [(B, A)] and [(A, B)] refer to
    each other's new names, yet both are emitted, because the base case
    [(A, int)] declares [A] as well. *)
Lemma C4_counterexample :
  well_formed block_dup = true
  ∧ ("B", "A").2 = ("A", "B").1
  ∧ ("A", "B").2 = ("B", "A").1
  ∧ sort_typedefs block_dup = Ok block_dup
  ∧ line_at block_dup 1 ("B", "A")
  ∧ line_at block_dup 2 ("A", "B").
Proof. split_and!; by vm_compute. Qed.

(** C4 (amended): for a well-formed block, [sort_typedefs] raises no error;
    the output holds exactly the unlockable pairs (base cases and pairs
    reached from them by the unlocking pass), each as often as the block
    has it; and every pair of a subset [cyc] of the block in which each
    pair's old type is the new name of a pair of the subset, and is the new
    name of no pair outside the subset, is left out of the output. *)
Theorem C4_cycles_dropped (x : string) :
  well_formed x = true →
  ∃ T r dropped,
    parse_typedefs (split_on nl x) = Ok T
    ∧ sort_typedefs x = Ok (join nl_s (map typedef_line r))
    ∧ r ++ dropped ≡ₚ T
    ∧ (∀ p, p ∈ r → unlockable T p)
    ∧ (∀ p, p ∈ dropped → ¬ unlockable T p)
    ∧ (∀ p, unlockable T p → ∃ j, line_at (join nl_s (map typedef_line r)) j p)
    ∧ ∀ cyc : list typedef,
        cyc ⊆ T →
        (∀ s, s ∈ cyc → ∃ s', s' ∈ cyc ∧ s.2 = s'.1) →
        (∀ s t, s ∈ cyc → t ∈ T → t.1 = s.2 → t ∈ cyc) →
        ∀ s, s ∈ cyc →
          (s ∉ r) ∧ (∀ j, ¬ line_at (join nl_s (map typedef_line r)) j s).
Proof.
  intros Hwf. destruct (well_formed_parses x Hwf) as [T HT].
  destruct (sort_typedefs_parsed x T HT) as (r & Hr & Hout).
  pose proof (parse_typedefs_valid _ _ HT) as Hvalid.
  rewrite Forall_forall in Hvalid.
  assert (Forall valid_pair r) as Hrvalid.
  { apply Forall_forall. intros p Hp. apply Hvalid. by eapply sort_pairs_subset. }
  destruct (sort_pairs_partition T r Hr) as (dropped & Hperm & Hsound & Hdropped).
  exists T, r, dropped. split_and!; [done..| |].
  - intros p Hp.
    assert (p ∈ r) as [j Hj]%list_elem_of_lookup by by eapply sort_pairs_complete.
    exists j. apply line_at_lookup; [done| |done].
    apply Hvalid. by eapply sort_pairs_subset, list_elem_of_lookup_2.
  - intros cyc Hsub Hcyc Hclosed s Hs.
    assert (s ∉ r) as Hnot.
    { apply (sort_pairs_closed_dropped T r (λ s, s ∈ cyc)); [done| |done..].
      intros s0 Hs0. destruct (Hcyc s0 Hs0) as (s' & Hs' & ->).
      apply list_elem_of_fmap. exists s'. split; [done|]. by apply Hsub. }
    split; [done|]. intros j Hj. apply Hnot.
    apply line_at_lookup in Hj; [|done|by apply Hvalid, Hsub].
    by eapply list_elem_of_lookup_2.
Qed.

Lemma C4_witness :
  well_formed block_cycle = true
  ∧ ∃ T r dropped,
    parse_typedefs (split_on nl block_cycle) = Ok T
    ∧ sort_typedefs block_cycle = Ok (join nl_s (map typedef_line r))
    ∧ r ++ dropped ≡ₚ T
    ∧ (∀ p, p ∈ r → unlockable T p)
    ∧ (∀ p, p ∈ dropped → ¬ unlockable T p)
    ∧ (∀ p, unlockable T p → ∃ j, line_at (join nl_s (map typedef_line r)) j p)
    ∧ ∀ cyc : list typedef,
        cyc ⊆ T →
        (∀ s, s ∈ cyc → ∃ s', s' ∈ cyc ∧ s.2 = s'.1) →
        (∀ s t, s ∈ cyc → t ∈ T → t.1 = s.2 → t ∈ cyc) →
        ∀ s, s ∈ cyc →
          (s ∉ r) ∧ (∀ j, ¬ line_at (join nl_s (map typedef_line r)) j s).
Proof.
  split; [reflexivity|]. apply (C4_cycles_dropped block_cycle). reflexivity.
Defined.

(** C5: [sort_typedefs] is idempotent: on a well-formed block it returns a
    text, and applied to that text it returns the same text. *)
Theorem C5_sort_typedefs_idempotent (x : string) :
  well_formed x = true →
  ∃ out, sort_typedefs x = Ok out ∧ sort_typedefs out = Ok out.
Proof.
  intros Hwf. destruct (well_formed_parses x Hwf) as [T HT].
  destruct (sort_typedefs_parsed x T HT) as (r & Hr & Hout).
  eexists. split; [done|]. by eapply sort_typedefs_idempotent.
Qed.

Lemma C5_witness :
  well_formed block_cycle = true
  ∧ ∃ out, sort_typedefs block_cycle = Ok out ∧ sort_typedefs out = Ok out.
Proof.
  split; [reflexivity|]. apply (C5_sort_typedefs_idempotent block_cycle).
  reflexivity.
Defined.

Example sort_chain :
  sort_typedefs block_chain
  = Ok ("typedef int A;" +:+ nl_s +:+ "typedef A B;" +:+ nl_s +:+ "typedef B C;").
Proof. reflexivity. Qed.

Example sort_cycle :
  sort_typedefs block_cycle
  = Ok ("typedef int A;" +:+ nl_s +:+ "typedef A B;").
Proof. reflexivity. Qed.

(** ** SchemaMerger *)

(** C6: when every entry of [a] and [b] carries a name and sibling names
    are unique, merging [b] into [a] raises the structural-conflict error,
    naming the dotted path [p.n] of a conflicting entry, if and only if at
    some corresponding position [a] and [b] have same-named entries of which
    exactly one has children; otherwise the merge returns. *)
Theorem C6_merge_conflict_iff (a b : Element) :
  wf_schema a = true → wf_schema b = true →
  ((∃ p n, conflict (children a) (children b) "" p n)
   ↔ ∃ p n, _merge_schema_entries a b ""
            = Raise (SchemaFormatError (conflict_message p n))
            ∧ conflict (children a) (children b) "" p n)
  ∧ ((∀ p n, ¬ conflict (children a) (children b) "" p n)
     ↔ ∃ a', _merge_schema_entries a b "" = Ok a').
Proof.
  intros Hwfa Hwfb.
  pose proof (merge_schema_outcome b a "" Hwfa Hwfb) as Hout.
  destruct (_merge_schema_entries a b "") as [a'|e|]; simpl in Hout; [| |done].
  - split; split.
    + intros (p & n & Hc). by destruct (Hout p n).
    + by intros (p & n & ? & _).
    + eauto.
    + done.
  - destruct Hout as (p & n & -> & Hc). split; split.
    + eauto.
    + intros (p' & n' & _ & Hc'). eauto.
    + intros Hno. by destruct (Hno p n).
    + by intros [a' ?].
Qed.

Lemma C6_witness :
  wf_schema schema_a = true ∧ wf_schema schema_b = true
  ∧ ((∃ p n, conflict (children schema_a) (children schema_b) "" p n)
     ↔ ∃ p n, _merge_schema_entries schema_a schema_b ""
              = Raise (SchemaFormatError (conflict_message p n))
              ∧ conflict (children schema_a) (children schema_b) "" p n)
  ∧ ((∀ p n, ¬ conflict (children schema_a) (children schema_b) "" p n)
     ↔ ∃ a', _merge_schema_entries schema_a schema_b "" = Ok a').
Proof.
  assert (wf_schema schema_a = true) as Ha by (by vm_compute).
  assert (wf_schema schema_b = true) as Hb by (by vm_compute).
  split; [exact Ha|]. split; [exact Hb|].
  exact (C6_merge_conflict_iff schema_a schema_b Ha Hb).
Defined.

Example merge_conflict_path :
  _merge_schema_entries schema_a schema_b ""
  = Raise (SchemaFormatError (conflict_message ".a.q" "r")).
Proof. by vm_compute. Qed.

Example merge_union :
  _merge_schema_entries (schema [node "a" [leaf "c" ""]])
                        (schema [node "a" [leaf "b" ""]]) ""
  = Ok (schema [node "a" [leaf "c" ""; leaf "b" ""]]).
Proof. by vm_compute. Qed.

Example merge_override :
  _merge_schema_entries (schema [leaf "a" "old"; leaf "z" ""])
                        (schema [leaf "a" "new"]) ""
  = Ok (schema [leaf "z" ""; leaf "a" "new"]).
Proof. by vm_compute. Qed.

(** ** ComponentModel *)

(** C1, as stated, fails: for the resource [ctxt] and the architecture
    [arm], the file of the claim's first pattern, [ctxt-arm/ctxt-arm.c],
    exists and parses, yet [ArchitectureComponent.parse] finds no fragment:
    the code tries [arm-ctxt/arm-ctxt.c] and [ctxt-arm.c]. *)
Lemma C1_counterexample :
  _resource_name ctxt = "ctxt" ∧ arch_name arm = "arm"
  ∧ @Component_find toy fs_claimed "/repo" "ctxt-arm/ctxt-arm.c"
    = Ok "/repo/components/ctxt-arm/ctxt-arm.c"
  ∧ (∃ d, @_parse_sectioned_file toy fs_claimed
            "/repo/components/ctxt-arm/ctxt-arm.c" (_configuration ctxt) = Ok d)
  ∧ @ArchitectureComponent_parse toy ctxt fs_claimed "/repo" (PyArchitecture arm)
    = Raise (KeyError ("Unable to find component " +:+ dq +:+ "ctxt" +:+ dq
                       +:+ " for architecture arm")).
Proof.
  split_and!; [done|done|by vm_compute| |by vm_compute].
  eexists. vm_compute. reflexivity.
Qed.

(** C1 (amended): for a component with resource name [R] and an
    architecture named [A], [ArchitectureComponent.parse] looks for
    [A-R/A-R.c] first and for [R-A.c] second, hands the first file found to
    the sectioned-file parser with the component's own configuration, and
    raises the [KeyError] naming [R] and [A] when neither is found.  A file
    is found only if it exists among the candidate paths. *)
Theorem C1_arch_component_lookup `{!Externals} (self : Component)
    (fs : filesystem) (topdir : string) (arch : Architecture) :
  let R := _resource_name self in
  let A := arch_name arch in
  ArchitectureComponent_parse self fs topdir (PyArchitecture arch)
  = match Component_find fs topdir
            (A +:+ "-" +:+ R +:+ "/" +:+ A +:+ "-" +:+ R +:+ ".c") with
    | Ok path => _parse_sectioned_file fs path (_configuration self)
    | _ =>
        match Component_find fs topdir (R +:+ "-" +:+ A +:+ ".c") with
        | Ok path => _parse_sectioned_file fs path (_configuration self)
        | _ => Raise (KeyError ("Unable to find component " +:+ dq +:+ R
                                +:+ dq +:+ " for architecture " +:+ A))
        end
    end
  ∧ (∀ n path, Component_find fs topdir n = Ok path →
               path_exists fs path = true
               ∧ path ∈ base_to_top_paths topdir ["components"; n])
  ∧ (∀ n, (∃ path, Component_find fs topdir n = Ok path)
          ∨ (∃ msg, Component_find fs topdir n = Raise (KeyError msg))).
Proof.
  intros R A. split_and!.
  - unfold ArchitectureComponent_parse, arch_component_names.
    rewrite find_first_two. fold R A.
    destruct (Component_find_cases fs topdir
                (A +:+ "-" +:+ R +:+ "/" +:+ A +:+ "-" +:+ R +:+ ".c"))
      as [[p ->]|[m ->]]; [done|].
    by destruct (Component_find_cases fs topdir (R +:+ "-" +:+ A +:+ ".c"))
      as [[p ->]|[m' ->]].
  - apply Component_find_Ok.
  - apply Component_find_cases.
Qed.

Example arch_component_found :
  ∃ d, @ArchitectureComponent_parse toy ctxt_own fs_actual "/repo"
         (PyArchitecture arm) = Ok d
       ∧ dict_get "headers" d = Some "own".
Proof. eexists. split; vm_compute; reflexivity. Qed.

(** C3, as stated, fails: the architecture [arm] has the entry [k := v],
    the component has an empty configuration, and rendering the section
    that uses the key [k] fails for want of that key; with the component's
    own entry [k := own] the section renders to [own], not to [v]. *)
Lemma C3_counterexample :
  arch_configuration arm !! "k" = Some "v"
  ∧ _configuration ctxt = ∅
  ∧ @ArchitectureComponent_parse toy ctxt fs_actual "/repo" (PyArchitecture arm)
    = Raise (RenderError "/repo/components/arm-ctxt/arm-ctxt.c: Section headers")
  ∧ ∃ d, @ArchitectureComponent_parse toy ctxt_own fs_actual "/repo"
           (PyArchitecture arm) = Ok d
         ∧ dict_get "headers" d = Some "own".
Proof.
  split_and!; [by vm_compute..|]. eexists. split; vm_compute; reflexivity.
Qed.

(** C3 (amended): the configuration supplied to the templating pass of
    [ArchitectureComponent.parse] is the component's own base configuration
    and nothing of the architecture's configuration mapping: the result is
    the same for any architecture of the same name, and for any templating
    engine that agrees with the given one on the component's own
    configuration. *)
Theorem C3_arch_configuration_unused `{E : !Externals} (self : Component)
    (fs : filesystem) (topdir : string) (arch arch' : Architecture)
    (render : string → config → string → result string) :
  arch_name arch' = arch_name arch →
  (∀ t n, render t (_configuration self) n
          = pystache_render t (_configuration self) n) →
  @ArchitectureComponent_parse (with_render E render) self fs topdir
     (PyArchitecture arch')
  = ArchitectureComponent_parse self fs topdir (PyArchitecture arch).
Proof.
  intros Hname Hext. unfold ArchitectureComponent_parse. rewrite Hname.
  change (@find_first (with_render E render)) with (@find_first E).
  destruct (find_first fs topdir _) as [[path|]| |]; [|done..].
  cbn [mbind result_bind]. by apply parse_sectioned_file_ext.
Qed.

Lemma C3_witness :
  arch_name arm_other = arch_name arm
  ∧ (∀ t n, picky_render t (_configuration ctxt_own) n
            = @pystache_render toy t (_configuration ctxt_own) n)
  ∧ @ArchitectureComponent_parse (with_render toy picky_render) ctxt_own
      fs_actual "/repo" (PyArchitecture arm_other)
    = @ArchitectureComponent_parse toy ctxt_own fs_actual "/repo"
        (PyArchitecture arm).
Proof.
  split; [reflexivity|]. split; [intros t n; reflexivity|].
  apply (@C3_arch_configuration_unused toy ctxt_own fs_actual "/repo" arm
           arm_other picky_render); [reflexivity|intros t n; reflexivity].
Defined.

(** C9: when the second argument of [Component.parse] is not a dictionary,
    the merge is skipped without an error about the type: the result is
    that of parsing with no extra configuration, the fragment is parsed with
    the component's base configuration, and this is what a generic
    component does with the architecture that [get_module_sections] passes
    to it. *)
Theorem C9_non_dict_configuration `{!Externals} (self : Component)
    (fs : filesystem) (topdir : string) (arg : pyobj) :
  isinstance_dict arg = false →
  Component_parse self fs topdir arg
  = (component ← find_first fs topdir (component_names (_resource_name self));
     match component with
     | None => Raise (KeyError ("Unable to find component " +:+ dq
                                +:+ _resource_name self +:+ dq))
     | Some path => _parse_sectioned_file fs path (_configuration self)
     end)
  ∧ Component_parse self fs topdir arg
    = Component_parse self fs topdir (PyDict ∅)
  ∧ (cls self = ClsComponent →
     parse self fs topdir arg = Component_parse self fs topdir (PyDict ∅)).
Proof.
  intros Harg.
  assert (Component_parse self fs topdir arg
          = Component_parse self fs topdir (PyDict ∅)) as Heq.
  { unfold Component_parse. rewrite (left_id_L ∅ (∪)). by destruct arg. }
  split_and!; [by destruct arg|done|].
  intros Hcls. unfold parse. by rewrite Hcls.
Qed.

Lemma C9_witness :
  isinstance_dict (PyArchitecture arm) = false
  ∧ @Component_parse toy comp_x fs_xy "/repo" (PyArchitecture arm)
    = @Component_parse toy comp_x fs_xy "/repo" (PyDict ∅).
Proof.
  split; [reflexivity|].
  exact (proj1 (proj2 (@C9_non_dict_configuration toy comp_x fs_xy "/repo"
                         (PyArchitecture arm) eq_refl))).
Defined.

(** ** SectionedFileParser *)

(** C10: when [m] is the last marker line for the section [n] of a
    fragment, the parsed mapping binds [n] to the rendering of the lines
    that follow [m] up to the next marker, whatever stands before [m]:
    lines gathered after an earlier marker for [n] are dropped, and no error
    arises from the repetition. *)
Theorem C10_last_marker_wins `{!Externals} (fs : filesystem) (fn : string)
    (cfg : config) (text : string) (pre post : list string) (m n : string) :
  read_file fs fn = Ok text →
  readlines text = pre ++ m :: post →
  is_marker (rstrip m) = true → marker_name (rstrip m) = n →
  no_marker_for n post = true →
  dict_get n (scan_lines (readlines text)) = Some (section_content post)
  ∧ _parse_sectioned_file fs fn cfg
    = (rendered ← render_sections fn cfg (scan_lines (readlines text));
       _ ← check_required _REQUIRED_COMPONENT_SECTIONS fn rendered;
       Ok rendered)
  ∧ ∀ r, _parse_sectioned_file fs fn cfg = Ok r →
         ∃ v, dict_get n r = Some v
              ∧ _render_data (section_call fn cfg n (section_content post)) = Ok v.
Proof.
  intros Hread Hlines Hm Hn Hno.
  assert (dict_get n (scan_lines (readlines text)) = Some (section_content post))
    as Hscan by (rewrite Hlines; by apply scan_last_marker).
  split_and!; [done| |].
  - unfold _parse_sectioned_file. by rewrite Hread.
  - intros r (text' & Hread' & Hr & _)%parse_sectioned_file_ok.
    assert (text' = text) as -> by congruence.
    by eapply render_sections_get.
Qed.

Lemma C10_witness :
  read_file fs_twice "/repo/components/t.c" = Ok twice_text
  ∧ dict_get "headers" (scan_lines (readlines twice_text))
    = Some (section_content ["second  " +:+ nl_s; nl_s;
                             "/*| functions |*/" +:+ nl_s;
                             "void f(void);" +:+ nl_s]).
Proof.
  split; [reflexivity|].
  exact (proj1 (@C10_last_marker_wins toy fs_twice "/repo/components/t.c" ∅
           twice_text
           ["stray" +:+ nl_s; "/*| headers |*/" +:+ nl_s; "first" +:+ nl_s;
            "/*| state |*/" +:+ nl_s; "int s;" +:+ nl_s]
           ["second  " +:+ nl_s; nl_s; "/*| functions |*/" +:+ nl_s;
            "void f(void);" +:+ nl_s]
           ("/*| headers |*/  " +:+ nl_s) "headers"
           eq_refl eq_refl eq_refl eq_refl eq_refl)).
Defined.

Example scan_twice :
  scan_lines (readlines twice_text)
  = [("headers", ["second"; ""]); ("state", ["int s;"]);
     ("functions", ["void f(void);"])].
Proof. reflexivity. Qed.

(** ** SkeletonAssembler *)

(** C7: when every component of the skeleton parses, with results [parsed]
    in the order of the component list, [get_module_sections] returns a
    mapping that binds each section name to the blocks of the components
    that have the section, one block per such component, in the order of
    the component list and without removing equal blocks; a name that no
    component has is not bound. *)
Theorem C7_sections_in_component_order `{!Externals} (self : RtosSkeleton)
    (fs : filesystem) (topdir : string) (arch : pyobj)
    (parsed : list (dict string)) :
  Forall2 (λ c d, parse c fs topdir arch = Ok d) (_components self) parsed →
  ∃ m, get_module_sections self fs topdir arch = Ok m
       ∧ Forall (λ d, NoDup (map fst d)) parsed
       ∧ ∀ name0,
           m !! name0 = match contributions name0 parsed with
                        | [] => None
                        | l => Some l
                        end.
Proof.
  intros Hparsed.
  destruct (get_module_sections_loop fs topdir arch _ _ Hparsed ∅)
    as (m & Hm & Hlookup).
  exists m. split_and!; [done| |].
  - clear Hm Hlookup. induction Hparsed; constructor; [|done].
    by eapply parse_NoDup.
  - intros name0. rewrite Hlookup, lookup_empty.
    by destruct (contributions name0 parsed).
Qed.

Lemma C7_witness :
  ∃ parsed,
    Forall2 (λ c d, @parse toy c fs_xy "/repo" (PyArchitecture arm) = Ok d)
            (_components skeleton_xy) parsed
    ∧ ∃ m, @get_module_sections toy skeleton_xy fs_xy "/repo"
             (PyArchitecture arm) = Ok m
           ∧ Forall (λ d, NoDup (map fst d)) parsed
           ∧ ∀ name0,
               m !! name0 = match contributions name0 parsed with
                            | [] => None
                            | l => Some l
                            end.
Proof.
  assert (∃ parsed,
            Forall2 (λ c d, @parse toy c fs_xy "/repo" (PyArchitecture arm) = Ok d)
                    (_components skeleton_xy) parsed) as [parsed Hparsed].
  { eexists. constructor; [vm_compute; reflexivity|].
    constructor; [vm_compute; reflexivity|]. constructor. }
  exists parsed. split; [exact Hparsed|].
  exact (@C7_sections_in_component_order toy skeleton_xy fs_xy "/repo"
           (PyArchitecture arm) parsed Hparsed).
Defined.

Example sections_xy :
  (m ← @get_module_sections toy skeleton_xy fs_xy "/repo" (PyArchitecture arm);
   Ok (m !! "headers", m !! "state", m !! "schema"))
  = Ok (Some ["X headers"; "Y headers"], Some ["// state"; "// state"], None).
Proof. by vm_compute. Qed.

(** ** ModuleWriter *)

(** C8: after a successful write of a module, the header file in the
    module directory holds a text that begins with the lines
    [#ifndef MOD_NAME_H] and [#define MOD_NAME_H] and ends with
    [#endif /* MOD_NAME_H */], where [MOD_NAME] is the module name
    [_module_name] upper-cased, with every [-] replaced by [_]. *)
Theorem C8_header_guard `{!Externals} (self : RtosModule) (fs fs' : filesystem) :
  _render self fs = Ok fs' →
  let MOD_NAME := replace_char "-" "_" (str_upper (_module_name self)) in
  let module_dir :=
    base_path ["packages"; arch_name (_arch self); _module_name self] in
  ∃ body,
    fs' !! path_join module_dir (_module_name self +:+ ".h")
    = Some (File ("#ifndef " +:+ MOD_NAME +:+ "_H" +:+ nl_s
                  +:+ "#define " +:+ MOD_NAME +:+ "_H" +:+ nl_s
                  +:+ body
                  +:+ nl_s +:+ "#endif /* " +:+ MOD_NAME +:+ "_H */")).
Proof.
  intros (h & Hh & Hfile)%render_header_file MOD_NAME module_dir.
  apply header_text_shape in Hh as [body ->]. by exists body.
Qed.

Lemma C8_witness :
  @_render toy module_xy fs_xy = Ok rendered_xy
  ∧ let MOD_NAME := replace_char "-" "_" (@str_upper toy (_module_name module_xy)) in
    let module_dir :=
      @base_path toy ["packages"; arch_name (_arch module_xy);
                      _module_name module_xy] in
    ∃ body,
      rendered_xy !! path_join module_dir (_module_name module_xy +:+ ".h")
      = Some (File ("#ifndef " +:+ MOD_NAME +:+ "_H" +:+ nl_s
                    +:+ "#define " +:+ MOD_NAME +:+ "_H" +:+ nl_s
                    +:+ body
                    +:+ nl_s +:+ "#endif /* " +:+ MOD_NAME +:+ "_H */")).
Proof.
  assert (@_render toy module_xy fs_xy = Ok rendered_xy) as Hfs
    by (vm_compute; reflexivity).
  split; [exact Hfs|].
  exact (@C8_header_guard toy module_xy fs_xy rendered_xy Hfs).
Defined.

Example header_xy_written :
  (fs' ← @_render toy module_xy fs_xy;
   Ok (fs' !! "/repo/packages/arm/rtos-my-os/rtos-my-os.h",
       fs' !! "/repo/packages/arm/rtos-my-os/rtos-my-os.c",
       fs' !! "/repo/packages/arm/rtos-my-os/entity.py"))
  = Ok (Some (File header_xy),
        Some (File
               ("// headers" +:+ nl_s +:+ "// object_like_macros" +:+ nl_s
                +:+ "typedef int A;" +:+ nl_s +:+ "typedef A B;" +:+ nl_s
                +:+ "// structure_definitions" +:+ nl_s
                +:+ "// extern_definitions" +:+ nl_s
                +:+ "// function_definitions" +:+ nl_s
                +:+ "// state" +:+ nl_s
                +:+ "// function_like_macros" +:+ nl_s
                +:+ "// functions" +:+ nl_s
                +:+ "// public_functions" +:+ nl_s)),
        Some (File "entity = 1")).
Proof. by vm_compute. Qed.

Example end_to_end :
  (fs' ← @generate_rtos_module toy fs_xy "/repo" skeleton_xy [arm];
   Ok (fs' !! "/repo/packages/arm/rtos-my-os/schema.xml",
       fs' !! "/repo/packages/arm/rtos-my-os/entity.py"))
  = Ok (Some (File (xml_prologue +:+ "<schema />")), Some (File "entity = 1")).
Proof. by vm_compute. Qed.

(** * Further properties *)

(** ** TypedefSorter: errors *)

Lemma parse_typedefs_first_error (pre post : list string) (l : string) (e : exn) :
  forallb line_parses pre = true →
  parse_typedef_line l = Raise e →
  parse_typedefs (pre ++ l :: post) = Raise e.
Proof.
  intros Hpre Hl. induction pre as [|l0 pre IH]; simpl.
  - by rewrite Hl.
  - simpl in Hpre. apply andb_true_iff in Hpre as [Hl0 Hpre].
    unfold line_parses in Hl0.
    destruct (parse_typedef_line l0) as [t| |]; [|done..]. simpl.
    by rewrite (IH Hpre).
Qed.

Lemma sort_typedefs_parse_error (x : string) (e : exn) :
  parse_typedefs (split_on nl x) = Raise e → sort_typedefs x = Raise e.
Proof. intros H. unfold sort_typedefs. by rewrite H. Qed.

Lemma split_ws_all_space (s : string) :
  all_chars is_space s = true → split_ws s = [].
Proof.
  induction s as [|c s IH]; simpl; [done|].
  intros [Hc Hs]%andb_true_iff. rewrite Hc. by apply IH.
Qed.

(** X1: the first line that is not empty and does not end with [;] makes
    [sort_typedefs] raise the exception that quotes that line; a line of
    blanks is such a line. *)
Theorem X1_missing_terminator (x : string) (pre post : list string) (l : string) :
  split_on nl x = pre ++ l :: post →
  forallb line_parses pre = true →
  l ≠ "" → endswith l ";" = false →
  sort_typedefs x
  = Raise (Exception ("Expect a typedef line to end with ';' (" +:+ l +:+ ")")).
Proof.
  intros Hx Hpre Hne Hend. apply sort_typedefs_parse_error. rewrite Hx.
  apply parse_typedefs_first_error; [done|].
  unfold parse_typedef_line. apply String.eqb_neq in Hne. by rewrite Hne, Hend.
Qed.

Lemma X1_witness :
  sort_typedefs ("typedef int A;" +:+ nl_s +:+ "   " +:+ nl_s +:+ "typedef A B;")
  = Raise (Exception ("Expect a typedef line to end with ';' (" +:+ "   " +:+ ")")).
Proof.
  apply (X1_missing_terminator _ ["typedef int A;"] ["typedef A B;"] "   ");
    [reflexivity|reflexivity|discriminate|reflexivity].
Defined.

(** X2: a line that ends with [;] and whose first word is not [typedef]
    makes [sort_typedefs] raise the keyword exception. *)
Theorem X2_wrong_keyword (x : string) (pre post : list string) (l : string)
    (p0 : string) (rest : list string) :
  split_on nl x = pre ++ l :: post →
  forallb line_parses pre = true →
  endswith l ";" = true →
  split_ws (drop_last l) = p0 :: rest → p0 ≠ "typedef" →
  sort_typedefs x = Raise (Exception "Expect typedef line to startwith 'typedef'").
Proof.
  intros Hx Hpre Hend Hparts Hkw. apply sort_typedefs_parse_error. rewrite Hx.
  apply parse_typedefs_first_error; [done|].
  unfold parse_typedef_line.
  destruct (String.eqb_spec l "") as [->|_]; [done|].
  rewrite Hend, Hparts. apply String.eqb_neq in Hkw. by rewrite Hkw.
Qed.

Lemma X2_witness :
  sort_typedefs ("typedef int A;" +:+ nl_s +:+ "struct s B;")
  = Raise (Exception "Expect typedef line to startwith 'typedef'").
Proof.
  apply (X2_wrong_keyword _ ["typedef int A;"] [] "struct s B;" "struct" ["s"; "B"]);
    [reflexivity|reflexivity|reflexivity|reflexivity|discriminate].
Defined.

(** X3: a line that is only blanks followed by [;] makes [sort_typedefs]
    raise [IndexError], not one of its own exceptions: [parts] is empty
    when [parts[0]] is read. *)
Theorem X3_only_terminator (x : string) (pre post : list string) (l : string) :
  split_on nl x = pre ++ l :: post →
  forallb line_parses pre = true →
  endswith l ";" = true →
  all_chars is_space (drop_last l) = true →
  sort_typedefs x = Raise (IndexError "list index out of range").
Proof.
  intros Hx Hpre Hend Hsp. apply sort_typedefs_parse_error. rewrite Hx.
  apply parse_typedefs_first_error; [done|].
  unfold parse_typedef_line.
  destruct (String.eqb_spec l "") as [->|_]; [done|].
  by rewrite Hend, split_ws_all_space.
Qed.

Lemma X3_witness :
  sort_typedefs ("typedef int A;" +:+ nl_s +:+ "  ;")
  = Raise (IndexError "list index out of range").
Proof.
  apply (X3_only_terminator _ ["typedef int A;"] [] "  ;");
    reflexivity.
Defined.

(** ** TypedefSorter: what is kept *)

Lemma sort_pairs_base_first (T r : list typedef) :
  sort_pairs T = Ok r →
  ∃ placed, r = base_cases T ++ placed
            ∧ Forall (λ q, q ∈ T ∧ q.2 ∈ map fst T) placed.
Proof.
  intros Hr.
  destruct (sort_pairs_inv T r Hr) as [dropped [Hperm [placed Hbase] Hprod _ _]].
  exists placed. split; [done|]. apply Forall_forall. intros q Hq.
  assert (q ∈ r) as Hqr by (rewrite Hbase; apply elem_of_app; by right).
  split; [by eapply sort_pairs_subset|].
  apply list_elem_of_lookup in Hq as [j Hj].
  destruct (Hprod (length (base_cases T) + j) q) as (k & p & _ & _ & Hk & Hp).
  { by rewrite Hbase, lookup_app_r, Nat.add_comm, Nat.add_sub by lia. }
  { lia. }
  rewrite <- Hp. apply list_elem_of_fmap. exists p. split; [done|].
  eapply sort_pairs_subset; [done|]. by eapply list_elem_of_lookup_2.
Qed.

(** X4: the output of [sort_typedefs] begins with the pairs whose old type
    is no new name of the block, in the order of the input; the pairs after
    them all refer to a new name of the block.  A block without such
    references comes out in its input order. *)
Theorem X4_base_cases_first (x : string) (T : list typedef) :
  parse_typedefs (split_on nl x) = Ok T →
  ∃ placed,
    sort_typedefs x = Ok (join nl_s (map typedef_line (base_cases T ++ placed)))
    ∧ Forall (λ q, q ∈ T ∧ q.2 ∈ map fst T) placed
    ∧ ((∀ p, p ∈ T → p.2 ∉ map fst T) →
       sort_typedefs x = Ok (join nl_s (map typedef_line T))).
Proof.
  intros HT. destruct (sort_typedefs_parsed x T HT) as (r & Hr & Hout).
  destruct (sort_pairs_base_first T r Hr) as (placed & -> & Hplaced).
  exists placed. split_and!; [done..|].
  intros Hbase. rewrite Hout. do 3 f_equal.
  assert (placed = []) as ->.
  { destruct placed as [|q placed]; [done|].
    apply Forall_cons in Hplaced as [[HqT Hq] _]. by destruct (Hbase q HqT). }
  rewrite app_nil_r. unfold base_cases. apply filter_all.
  intros p Hp. apply not_cross_ref_true. by apply Hbase.
Qed.

Lemma X4_witness :
  ∃ placed,
    sort_typedefs block_chain
    = Ok (join nl_s (map typedef_line
            (base_cases [("C", "B"); ("A", "int"); ("B", "A")] ++ placed)))
    ∧ Forall (λ q, q ∈ [("C", "B"); ("A", "int"); ("B", "A")]
                   ∧ q.2 ∈ map fst [("C", "B"); ("A", "int"); ("B", "A")]) placed
    ∧ ((∀ p, p ∈ [("C", "B"); ("A", "int"); ("B", "A")]
             → p.2 ∉ map fst [("C", "B"); ("A", "int"); ("B", "A")]) →
       sort_typedefs block_chain
       = Ok (join nl_s (map typedef_line [("C", "B"); ("A", "int"); ("B", "A")]))).
Proof.
  apply (X4_base_cases_first block_chain [("C", "B"); ("A", "int"); ("B", "A")]).
  reflexivity.
Defined.

Lemma ordered_from_unlockable (T0 rest : list typedef) (seen : list string) :
  (∀ n, n ∈ seen → ∃ p, unlockable T0 p ∧ p.1 = n) →
  (∀ q, q ∈ rest → q ∈ T0) →
  ordered_from seen (map fst T0) rest = true →
  ∀ q, q ∈ rest → unlockable T0 q.
Proof.
  revert seen. induction rest as [|q0 rest IH]; intros seen Hseen Hsub Hord q Hq.
  - by apply elem_of_nil in Hq.
  - simpl in Hord. apply andb_true_iff in Hord as [Hq0 Hord].
    assert (unlockable T0 q0) as Hu0.
    { apply orb_true_iff in Hq0 as [Hq0|Hq0].
      - apply negb_true_iff, bool_decide_eq_false in Hq0.
        apply unlockable_base; [apply Hsub; left|done].
      - apply bool_decide_eq_true in Hq0.
        destruct (Hseen _ Hq0) as (p & Hp & Hpn).
        apply (unlockable_step T0 p q0); [done|apply Hsub; left|done]. }
    apply elem_of_cons in Hq as [->|Hq]; [done|].
    apply (IH (seen ++ [q0.1])); [|intros ? ?; apply Hsub; by right|done..].
    intros n [Hn|Hn]%elem_of_app; [by apply Hseen|].
    apply list_elem_of_singleton in Hn as ->. eauto.
Qed.

(** X5: when the lines of the block already stand in an order in which each
    referenced new name is declared on an earlier line, [sort_typedefs]
    drops nothing: its output pairs are a rearrangement of the parsed
    pairs. *)
Theorem X5_ordered_input_kept (x : string) (T : list typedef) :
  parse_typedefs (split_on nl x) = Ok T →
  dependency_ordered T = true →
  ∃ r, sort_typedefs x = Ok (join nl_s (map typedef_line r)) ∧ r ≡ₚ T.
Proof.
  intros HT Hord. destruct (sort_typedefs_parsed x T HT) as (r & Hr & Hout).
  exists r. split; [done|].
  destruct (sort_pairs_partition T r Hr) as (dropped & Hperm & _ & Hdropped).
  destruct dropped as [|q dropped]; [by rewrite app_nil_r in Hperm|].
  exfalso. apply (Hdropped q); [left|].
  apply (ordered_from_unlockable T T []); [by intros n ?%elem_of_nil|done|done|].
  rewrite <- Hperm. apply elem_of_app. right. left.
Qed.

Lemma X5_witness :
  ∃ r, sort_typedefs ("typedef int A;" +:+ nl_s +:+ "typedef A B;" +:+ nl_s
                      +:+ "typedef long C;")
       = Ok (join nl_s (map typedef_line r))
       ∧ r ≡ₚ [("A", "int"); ("B", "A"); ("C", "long")].
Proof.
  apply (X5_ordered_input_kept _ [("A", "int"); ("B", "A"); ("C", "long")]);
    reflexivity.
Defined.

(** ** SchemaMerger: what a merge returns *)

#[local] Arguments attrib_name : simpl never.
#[local] Arguments len : simpl never.
#[local] Arguments merge_step : simpl never.

Lemma index_children_None (cs : list Element) i d d' :
  index_children i cs d = Ok d' →
  ∀ n, d' !! n = None ↔ d !! n = None ∧ ∀ c, c ∈ cs → attrib_name c ≠ Some n.
Proof.
  revert i d. induction cs as [|c cs IH]; intros i d; simpl.
  - intros [= <-] n. split; [|by intros [? _]].
    intros ?. split; [done|]. by intros c ?%elem_of_nil.
  - destruct (attrib_name c) as [m|] eqn:Hm; [|done].
    intros Hd' n. rewrite (IH _ _ Hd' n).
    destruct (decide (m = n)) as [->|Hne].
    + rewrite lookup_insert_eq. split; [by intros [? _]|].
      intros [_ Hc]. destruct (Hc c); [left|done].
    + rewrite lookup_insert_ne by done. split.
      * intros [? Hcs]. split; [done|].
        intros c' [->|?]%elem_of_cons; [congruence|by apply Hcs].
      * intros [? Hcs]. split; [done|]. intros c' ?. apply Hcs. by right.
Qed.

Lemma index_children_unnamed (cs : list Element) i d :
  (∃ c, c ∈ cs ∧ attrib_name c = None) →
  index_children i cs d = Raise (KeyError "name").
Proof.
  revert i d. induction cs as [|c cs IH]; intros i d (c0 & Hc0 & Hn).
  - by apply elem_of_nil in Hc0.
  - simpl. destruct (attrib_name c) as [m|] eqn:Hm; [|done].
    apply IH. apply elem_of_cons in Hc0 as [->|?]; [congruence|eauto].
Qed.

Lemma index_children_named (cs : list Element) i d :
  Forall (λ c, is_Some (attrib_name c)) cs →
  ∃ d', index_children i cs d = Ok d'.
Proof.
  revert i d. induction cs as [|c cs IH]; intros i d Hall; simpl; [eauto|].
  apply Forall_cons in Hall as [[n ->] Hall]. by apply IH.
Qed.

(** One turn of the loop, when it returns: the keys of [a_children] stay,
    the appended children grow at the end, and a child of [b] that is a leaf
    or has a name unknown to [a_children] is appended. *)
Lemma merge_step_appends merge path st bc st' :
  merge_step merge path st bc = Ok st' →
  (∀ n, ms_dict st' !! n = None ↔ ms_dict st !! n = None)
  ∧ (∃ extra, ms_appended st' = ms_appended st ++ extra)
  ∧ ((len bc = 0 ∨ ∃ n, attrib_name bc = Some n ∧ ms_dict st !! n = None) →
     bc ∈ ms_appended st').
Proof.
  unfold merge_step. destruct (attrib_name bc) as [name0|] eqn:Hname; [|done].
  destruct (ms_dict st !! name0) as [e|] eqn:He.
  - destruct (Bool.eqb (len bc =? 0) (len (ae_elem e) =? 0)) eqn:Hleaf;
      cbn [negb]; [|done].
    apply Bool.eqb_prop in Hleaf. rewrite <- Hleaf.
    destruct (len bc =? 0) eqn:Hlb; cbn [negb andb].
    + unfold replace_entry. destruct (ae_in_list e); [|done].
      intros [= <-]. simpl. split_and!.
      * intros n. destruct (decide (name0 = n)) as [<-|Hne].
        -- rewrite lookup_insert_eq, He. done.
        -- by rewrite lookup_insert_ne.
      * eauto.
      * intros _. apply elem_of_app. right. left.
    + destruct (merge (ae_elem e) bc (path +:+ "." +:+ name0)) as [a'| |];
        [|done..].
      cbn [mbind result_bind]. intros [= <-]. simpl. split_and!.
      * intros n. destruct (decide (name0 = n)) as [<-|Hne].
        -- rewrite lookup_insert_eq, He. done.
        -- by rewrite lookup_insert_ne.
      * exists []. by rewrite app_nil_r.
      * intros [Hl|(n & [= <-] & Hn)]; [|congruence].
        apply Nat.eqb_neq in Hlb. done.
  - intros [= <-]. simpl. split_and!; [done|eauto|].
    intros _. apply elem_of_app. right. left.
Qed.

Lemma merge_loop_appends merge path bcs st st' :
  for_each (merge_step merge path) bcs st = Ok st' →
  (∀ n, ms_dict st' !! n = None ↔ ms_dict st !! n = None)
  ∧ (∃ extra, ms_appended st' = ms_appended st ++ extra)
  ∧ ∀ bc, bc ∈ bcs →
      (len bc = 0 ∨ ∃ n, attrib_name bc = Some n ∧ ms_dict st !! n = None) →
      bc ∈ ms_appended st'.
Proof.
  revert st. induction bcs as [|bc0 bcs IH]; intros st.
  - intros [= <-]. split_and!; [done|exists []; by rewrite app_nil_r|].
    by intros bc ?%elem_of_nil.
  - rewrite for_each_cons.
    destruct (merge_step merge path st bc0) as [st1| |] eqn:Hstep; [|done..].
    cbn [mbind result_bind]. intros Hloop.
    apply merge_step_appends in Hstep as (Hd1 & [e1 He1] & Happ1).
    apply IH in Hloop as (Hd2 & [e2 He2] & Happ2).
    split_and!.
    + intros n. by rewrite Hd2, Hd1.
    + exists (e1 ++ e2). by rewrite He2, He1, app_assoc.
    + intros bc [->|Hbc]%elem_of_cons Hcond.
      * rewrite He2. apply elem_of_app. left. by apply Happ1.
      * apply Happ2; [done|].
        destruct Hcond as [?|(n & ? & ?)]; [by left|].
        right. exists n. split; [done|]. by apply Hd1.
Qed.

Lemma merge_schema_entries_unfold (a b : Element) (path : string) :
  _merge_schema_entries a b path
  = (a_children ← index_children 0 (children a) ∅;
     st ← for_each (merge_step (λ a' b', _merge_schema_entries a' b') path)
            (children b) (MergeState a_children (Some <$> children a) []);
     Ok (Elem (tag a) (attrib a) (text a) (merged_children st))).
Proof. by destruct b. Qed.

(** X6: when a merge returns, [a] holds every entry of [b] that has no
    children or whose name no entry of [a] had: the entries of [b] win over
    same-named leaves of [a]; the tag, attributes and text of [a] stay. *)
Theorem X6_merge_keeps_entries_of_b (a b a' : Element) (path : string) :
  _merge_schema_entries a b path = Ok a' →
  tag a' = tag a ∧ attrib a' = attrib a ∧ text a' = text a
  ∧ ∀ bc, bc ∈ children b →
      (len bc = 0 ∨ ∀ ac, ac ∈ children a → attrib_name ac ≠ attrib_name bc) →
      bc ∈ children a'.
Proof.
  rewrite merge_schema_entries_unfold.
  destruct (index_children 0 (children a) ∅) as [d| |] eqn:Hd; [|done..].
  cbn [mbind result_bind].
  destruct (for_each _ (children b) _) as [st| |] eqn:Hloop; [|done..].
  cbn [mbind result_bind]. intros [= <-]. split_and!; [done..|].
  intros bc Hbc Hcond. simpl. unfold merged_children.
  apply elem_of_app. right.
  pose proof (merge_loop_appends _ _ _ _ _ Hloop) as (_ & _ & Happ).
  apply (Happ bc Hbc). destruct Hcond as [?|Hfresh]; [by left|].
  destruct (attrib_name bc) as [n|] eqn:Hn.
  - right. exists n. split; [done|]. simpl.
    apply (index_children_None _ _ _ _ Hd n). split; [apply lookup_empty|done].
  - exfalso. clear Happ.
    assert (∀ bcs st0, bc ∈ bcs →
              for_each (merge_step (λ a' b', _merge_schema_entries a' b') path)
                       bcs st0 ≠ Ok st) as Hno.
    { induction bcs as [|b0 bcs IH]; intros st0 Hin; [by apply elem_of_nil in Hin|].
      rewrite for_each_cons. apply elem_of_cons in Hin as [<-|Hin].
      - assert (merge_step (λ a' b', _merge_schema_entries a' b') path st0 bc
                = Raise (SchemaFormatError (missing_name_message path))) as ->
          by (unfold merge_step; by rewrite Hn).
        done.
      - destruct (merge_step _ path st0 b0) as [st1| |]; [|done..].
        cbn [mbind result_bind]. by apply IH. }
    by destruct (Hno _ _ Hbc Hloop).
Qed.

Lemma X6_witness :
  tag (schema [leaf "z" "1"; leaf "y" "3"]) = tag (schema [leaf "z" "1"])
  ∧ attrib (schema [leaf "z" "1"; leaf "y" "3"]) = attrib (schema [leaf "z" "1"])
  ∧ text (schema [leaf "z" "1"; leaf "y" "3"]) = text (schema [leaf "z" "1"])
  ∧ ∀ bc, bc ∈ children (schema [leaf "y" "3"]) →
      (len bc = 0
       ∨ ∀ ac, ac ∈ children (schema [leaf "z" "1"]) →
               attrib_name ac ≠ attrib_name bc) →
      bc ∈ children (schema [leaf "z" "1"; leaf "y" "3"]).
Proof.
  apply (X6_merge_keeps_entries_of_b (schema [leaf "z" "1"])
           (schema [leaf "y" "3"]) _ "").
  by vm_compute.
Defined.

(** ** SchemaMerger: the merged schema is well formed *)

Lemma omap_id_slot (slots : list (option Element)) i x :
  slots !! i = Some (Some x) →
  ∃ l1 l2, omap id slots = l1 ++ x :: l2
           ∧ omap id (<[i := None]> slots) = l1 ++ l2
           ∧ ∀ y, omap id (<[i := Some y]> slots) = l1 ++ y :: l2.
Proof.
  intros Hi. exists (omap id (take i slots)), (omap id (drop (S i) slots)).
  pose proof (lookup_lt_Some _ _ _ Hi) as Hlt.
  split_and!.
  - rewrite <- (take_drop_middle slots i (Some x) Hi) at 1.
    by rewrite omap_app.
  - rewrite insert_take_drop by done. by rewrite omap_app.
  - intros y. rewrite insert_take_drop by done. by rewrite omap_app.
Qed.

Lemma omap_id_fmap_Some {A} (l : list A) : omap id (Some <$> l) = l.
Proof. induction l as [|x l IH]; [done|]. cbn. by f_equal. Qed.

Lemma index_children_Some (cs : list Element) i0 d d' :
  index_children i0 cs d = Ok d' →
  ∀ n e, d' !! n = Some e →
    d !! n = Some e
    ∨ ∃ k, cs !! k = Some (ae_elem e) ∧ ae_index e = i0 + k
           ∧ ae_in_list e = true ∧ attrib_name (ae_elem e) = Some n.
Proof.
  revert i0 d. induction cs as [|c cs IH]; intros i0 d; simpl.
  - intros [= <-] n e ?. by left.
  - destruct (attrib_name c) as [m|] eqn:Hm; [|done].
    intros Hd' n e He. destruct (IH _ _ Hd' n e He) as [Hin|(k & Hk & Hi & ? & ?)].
    + destruct (decide (m = n)) as [->|Hne].
      * rewrite lookup_insert_eq in Hin. injection Hin as <-.
        right. exists 0. simpl. split_and!; [done|lia|done..].
      * rewrite lookup_insert_ne in Hin by done. by left.
    + right. exists (S k). simpl. split_and!; [done|lia|done..].
Qed.

Lemma wf_schema_intro (t : string) (at' : gmap string string) (x : string)
    (cs : list Element) :
  Forall (λ c, is_Some (attrib_name c) ∧ wf_schema c = true) cs →
  NoDup (attrib_name <$> cs) →
  wf_schema (Elem t at' x cs) = true.
Proof.
  intros Hall Hnd. simpl. rewrite !andb_true_iff. split_and!.
  - apply forallb_forall. intros c Hc%list_elem_of_In.
    rewrite Forall_forall in Hall. apply bool_decide_eq_true. by apply Hall.
  - by apply bool_decide_eq_true.
  - apply forallb_forall. intros c Hc%list_elem_of_In.
    rewrite Forall_forall in Hall. by apply Hall.
Qed.

Lemma merge_inv_step (merge : Element → Element → string → result Element)
    (path : string) (st st' : merge_state) (bc : Element)
    (rem : list (option string)) :
  (∀ a p a', wf_schema a = true → merge a bc p = Ok a' →
             wf_schema a' = true ∧ attrib a' = attrib a) →
  is_Some (attrib_name bc) → wf_schema bc = true →
  attrib_name bc ∉ rem →
  merge_inv st (attrib_name bc :: rem) →
  merge_step merge path st bc = Ok st' →
  merge_inv st' rem.
Proof.
  intros Hrec [n Hn] Hwfbc Hfresh [Hwf Hnd Happ Hdict] Hstep.
  rewrite Hn in *.
  pose proof (Hdict n ltac:(left)) as Hdn.
  pose proof (Happ n ltac:(left)) as Happn.
  rewrite (merge_step_named _ _ _ _ _ Hn) in Hstep.
  unfold current_children in *.
  destruct (ms_dict st !! n) as [e|] eqn:He.
  - destruct Hdn as (Hin & Hslot & Hname).
    destruct (omap_id_slot _ _ _ Hslot) as (l1 & l2 & Hl & Hdel & Hupd).
    assert (∀ m, Some m ∈ rem → m ≠ n) as Hne by (intros m ? ->; done).
    assert (∀ m e', Some m ∈ rem → ms_dict st !! m = Some e' →
                    ae_in_list e' = true
                    ∧ ms_slots st !! ae_index e' = Some (Some (ae_elem e'))
                    ∧ attrib_name (ae_elem e') = Some m
                    ∧ ae_index e' ≠ ae_index e) as Hother.
    { intros m e' Hm He'. pose proof (Hdict m ltac:(by right)) as Hdm.
      rewrite He' in Hdm. destruct Hdm as (? & Hs' & Hn').
      split_and!; [done..|]. intros Heq. rewrite Heq, Hslot in Hs'.
      injection Hs' as Hs'. rewrite <- Hs', Hname in Hn'.
      injection Hn' as ->. by destruct (Hne m). }
    destruct (Bool.eqb (len bc =? 0) (len (ae_elem e) =? 0)) eqn:Hleaf;
      cbn [negb] in Hstep; [|done].
    destruct (negb (len bc =? 0) && negb (len (ae_elem e) =? 0)) eqn:Hboth.
    + destruct (merge (ae_elem e) bc (path +:+ "." +:+ n)) as [a'| |] eqn:Hm;
        [|done..].
      cbn [mbind result_bind] in Hstep. injection Hstep as <-.
      destruct (Hrec (ae_elem e) (path +:+ "." +:+ n) a') as [Hwfa' Hatt];
        [|done|].
      { rewrite Forall_forall in Hwf. apply Hwf. rewrite Hl.
        apply elem_of_app. left. apply elem_of_app. right. left. }
      assert (attrib_name a' = Some n) as Hna'
        by (unfold attrib_name in *; by rewrite Hatt).
      assert (attrib_name <$> l1 ++ a' :: l2
              = attrib_name <$> l1 ++ ae_elem e :: l2) as Hsame
        by (by rewrite !fmap_app, !fmap_cons, Hna', Hname).
      unfold update_entry. rewrite Hin. simpl.
      split; simpl; unfold current_children; simpl.
      * rewrite Hupd. rewrite Hl in Hwf.
        rewrite !Forall_app, Forall_cons in Hwf |- *.
        destruct Hwf as [[? [_ ?]] ?]. rewrite Hna'. eauto.
      * rewrite Hupd. rewrite Hl in Hnd.
        rewrite fmap_app, Hsame, <- fmap_app. exact Hnd.
      * intros m Hmr. apply Happ. by right.
      * intros m Hmr. rewrite lookup_insert_ne by (by apply not_eq_sym, Hne).
        pose proof (Hdict m ltac:(by right)) as Hdm.
        destruct (ms_dict st !! m) as [e'|] eqn:He'.
        -- destruct (Hother m e' Hmr He') as (? & ? & ? & ?).
           by rewrite list_lookup_insert_ne.
        -- rewrite Hupd. rewrite Hl in Hdm. by rewrite Hsame.
    + unfold replace_entry in Hstep. rewrite Hin in Hstep.
      injection Hstep as <-.
      split; simpl; unfold current_children; simpl.
      * rewrite Hdel. rewrite Hl in Hwf.
        rewrite !Forall_app, Forall_cons in Hwf.
        destruct Hwf as [[? [_ ?]] ?].
        rewrite !Forall_app, Forall_singleton. rewrite Hn. eauto 10.
      * rewrite Hdel. rewrite Hl in Hnd.
        assert (attrib_name <$> (l1 ++ l2) ++ ms_appended st ++ [bc]
                ≡ₚ attrib_name <$> (l1 ++ ae_elem e :: l2) ++ ms_appended st)
          as Hperm.
        { rewrite !fmap_app, !fmap_cons, Hname, Hn. simpl.
          rewrite <- !app_assoc. apply Permutation_app_head.
          rewrite app_assoc. symmetry. apply Permutation_cons_append. }
        by rewrite Hperm.
      * intros m Hmr. rewrite fmap_app, elem_of_app. intros [?|Hm].
        -- by apply (Happ m); [right|].
        -- simpl in Hm. apply list_elem_of_singleton in Hm.
           rewrite Hn in Hm. injection Hm as ->. by destruct (Hne n).
      * intros m Hmr. rewrite lookup_insert_ne by (by apply not_eq_sym, Hne).
        pose proof (Hdict m ltac:(by right)) as Hdm.
        destruct (ms_dict st !! m) as [e'|] eqn:He'.
        -- destruct (Hother m e' Hmr He') as (? & ? & ? & ?).
           by rewrite list_lookup_insert_ne.
        -- rewrite Hdel. rewrite Hl in Hdm.
           intros Hm. apply Hdm. rewrite fmap_app, elem_of_app in Hm.
           rewrite fmap_app, fmap_cons, elem_of_app, elem_of_cons.
           destruct Hm; eauto.
  - injection Hstep as <-.
    split; simpl; unfold current_children; simpl.
    + rewrite app_assoc, Forall_app, Forall_singleton. rewrite Hn. eauto.
    + rewrite app_assoc, fmap_app. simpl. rewrite Hn.
      apply NoDup_app. split_and!; [done| |apply NoDup_singleton].
      intros x Hx ->%list_elem_of_singleton.
      rewrite fmap_app, elem_of_app in Hx. destruct Hx; done.
    + intros m Hmr. rewrite fmap_app, elem_of_app. intros [?|Hm].
      * by apply (Happ m); [right|].
      * simpl in Hm. apply list_elem_of_singleton in Hm.
        rewrite Hn in Hm. injection Hm as ->. done.
    + intros m Hmr. apply Hdict. by right.
Qed.

Lemma merge_inv_loop (merge : Element → Element → string → result Element)
    (path : string) (bcs : list Element) :
  Forall (λ bc, ∀ a p a', wf_schema a = true → wf_schema bc = true →
                 merge a bc p = Ok a' →
                 wf_schema a' = true ∧ attrib a' = attrib a) bcs →
  Forall (λ c, is_Some (attrib_name c)) bcs →
  NoDup (attrib_name <$> bcs) →
  Forall (λ c, wf_schema c = true) bcs →
  ∀ st st', merge_inv st (attrib_name <$> bcs) →
            for_each (merge_step merge path) bcs st = Ok st' →
            merge_inv st' [].
Proof.
  induction bcs as [|bc bcs IH]; intros Hrec Hnamed Hnd Hwf st st' Hinv.
  - intros [= <-]. exact Hinv.
  - apply Forall_cons in Hrec as [Hrec_bc Hrec].
    apply Forall_cons in Hnamed as [Hn_bc Hnamed].
    rewrite fmap_cons in Hnd, Hinv. apply NoDup_cons in Hnd as [Hfresh Hnd].
    apply Forall_cons in Hwf as [Hwf_bc Hwf].
    rewrite for_each_cons.
    destruct (merge_step merge path st bc) as [st1| |] eqn:Hstep; [|done..].
    cbn [mbind result_bind]. apply (IH Hrec Hnamed Hnd Hwf).
    eapply merge_inv_step; [|done..]. intros a p a' Ha. by apply Hrec_bc.
Qed.

Lemma merge_preserves_wf (b : Element) :
  ∀ a path a', wf_schema a = true → wf_schema b = true →
    _merge_schema_entries a b path = Ok a' →
    wf_schema a' = true ∧ attrib a' = attrib a.
Proof.
  induction b as [t at' x bcs IH] using Element_ind.
  intros a path a' Hwfa Hwfb.
  apply wf_schema_children in Hwfa as (Hna & Hnda & Hwfa).
  apply wf_schema_children in Hwfb as (Hnb & Hndb & Hwfb).
  simpl in Hnb, Hndb, Hwfb.
  rewrite merge_schema_entries_unfold. simpl children.
  destruct (index_children 0 (children a) ∅) as [d| |] eqn:Hd; [|done..].
  cbn [mbind result_bind].
  destruct (for_each _ bcs _) as [st| |] eqn:Hloop; [|done..].
  cbn [mbind result_bind]. intros [= <-]. split; [|done].
  eapply (merge_inv_loop _ path bcs) in Hloop; [|done..|].
  - destruct Hloop as [Hwf Hnd _ _]. by apply wf_schema_intro.
  - split; unfold current_children; simpl.
    + rewrite app_nil_r, omap_id_fmap_Some.
      apply Forall_forall. intros c Hc. rewrite Forall_forall in Hna, Hwfa. auto.
    + by rewrite app_nil_r, omap_id_fmap_Some.
    + intros n _ ?%elem_of_nil. done.
    + intros n _. destruct (d !! n) as [e|] eqn:He.
      * destruct (index_children_Some _ _ _ _ Hd n e He)
          as [Hin|(k & Hk & Hi & ? & ?)]; [by rewrite lookup_empty in Hin|].
        split_and!; [done| |done].
        rewrite Hi. simpl. by rewrite list_lookup_fmap, Hk.
      * rewrite omap_id_fmap_Some.
        apply (index_children_None _ _ _ _ Hd n) in He as [_ He].
        intros (c & Hc & Hin)%list_elem_of_fmap. by destruct (He c Hin).
Qed.

(** X7: merging keeps a schema well formed: when every entry of [a] and
    [b] carries a name and sibling names are unique, the same holds of [a]
    after a merge that returns. *)
Theorem X7_merge_preserves_well_formed (a b a' : Element) (path : string) :
  wf_schema a = true → wf_schema b = true →
  _merge_schema_entries a b path = Ok a' →
  wf_schema a' = true.
Proof. intros Ha Hb Hm. by destruct (merge_preserves_wf b a path a' Ha Hb Hm). Qed.

Lemma X7_witness :
  wf_schema (schema [node "a" [leaf "c" ""; leaf "b" ""]]) = true.
Proof.
  apply (X7_merge_preserves_well_formed (schema [node "a" [leaf "c" ""]])
           (schema [node "a" [leaf "b" ""]]) _ ""); by vm_compute.
Defined.

(** ** SchemaMerger: entries without a name, and empty schemas *)

(** X8: when an entry of [a] has no name attribute, the merge raises the
    [KeyError] of the dictionary comprehension, whatever [b] holds, and not
    a [_SchemaFormatError]. *)
Theorem X8_unnamed_entry_of_a (a b : Element) (path : string) :
  all_named (children a) = false →
  _merge_schema_entries a b path = Raise (KeyError "name").
Proof.
  intros Hn. rewrite merge_schema_entries_unfold.
  rewrite (index_children_unnamed (children a) 0 ∅); [done|].
  unfold all_named in Hn. induction (children a) as [|c cs IH]; [done|].
  simpl in Hn. apply andb_false_iff in Hn as [Hc|Hcs].
  - exists c. split; [left|]. apply bool_decide_eq_false in Hc.
    by apply eq_None_not_Some.
  - destruct (IH Hcs) as (c' & ? & ?). exists c'. split; [by right|done].
Qed.

Lemma X8_witness :
  _merge_schema_entries (schema [leaf "z" "1"; Elem "entry" ∅ "" []])
                        (schema [leaf "y" "3"]) ""
  = Raise (KeyError "name").
Proof. apply X8_unnamed_entry_of_a. reflexivity. Defined.

Lemma merge_step_unnamed merge path st bc :
  attrib_name bc = None →
  merge_step merge path st bc
  = Raise (SchemaFormatError (missing_name_message path)).
Proof. intros H. unfold merge_step. by rewrite H. Qed.

Lemma all_named_Forall (l : list Element) :
  all_named l = true → Forall (λ c, is_Some (attrib_name c)) l.
Proof.
  intros H. apply Forall_forall. intros c Hc%list_elem_of_In.
  unfold all_named in H. rewrite forallb_forall in H.
  by apply H, bool_decide_eq_true in Hc.
Qed.

Lemma all_fresh_elem (acs l : list Element) (c : Element) :
  all_fresh acs l = true → c ∈ l →
  ∃ n, attrib_name c = Some n ∧ ∀ ac, ac ∈ acs → attrib_name ac ≠ Some n.
Proof.
  intros H Hc%list_elem_of_In. unfold all_fresh in H.
  rewrite forallb_forall in H. apply H, andb_true_iff in Hc as [H1 H2].
  apply bool_decide_eq_true in H1 as [n Hn], H2. exists n. split; [done|].
  intros ac Hac Heq. apply H2. rewrite Hn, <- Heq.
  apply list_elem_of_fmap. eauto.
Qed.

(** X9: when the entries of [a] are named and the first entry of [b]
    without a name attribute comes after entries whose names [a] does not
    have, the merge raises the [_SchemaFormatError] that quotes the path. *)
Theorem X9_unnamed_entry_of_b (a b : Element) (path : string)
    (pre post : list Element) (c : Element) :
  all_named (children a) = true →
  children b = pre ++ c :: post →
  all_fresh (children a) pre = true →
  attrib_name c = None →
  _merge_schema_entries a b path
  = Raise (SchemaFormatError (missing_name_message path)).
Proof.
  intros Ha%all_named_Forall Hb Hpre Hc. rewrite merge_schema_entries_unfold.
  destruct (index_children_named (children a) 0 ∅ Ha) as [d Hd].
  rewrite Hd, Hb. cbn [mbind result_bind].
  assert (∀ pre' st,
            (∀ bc, bc ∈ pre' →
                   ∃ n, attrib_name bc = Some n ∧ ms_dict st !! n = None) →
            for_each (merge_step (λ a' b', _merge_schema_entries a' b') path)
                     (pre' ++ c :: post) st
            = Raise (SchemaFormatError (missing_name_message path))) as Hloop.
  { clear -Hc.
    induction pre' as [|bc pre' IH]; intros st Hst.
    - simpl app. by rewrite for_each_cons, merge_step_unnamed.
    - destruct (Hst bc ltac:(left)) as (n & Hn & Hd).
      simpl app. rewrite for_each_cons, (merge_step_named _ _ _ _ _ Hn), Hd.
      cbn [mbind result_bind]. apply IH. intros bc' Hbc'. simpl.
      apply Hst. by right. }
  rewrite Hloop; [done|]. intros bc Hbc. simpl.
  destruct (all_fresh_elem _ _ _ Hpre Hbc) as (n & Hn & Hfresh).
  exists n. split; [done|].
  apply (index_children_None _ _ _ _ Hd n). split; [apply lookup_empty|done].
Qed.

Lemma X9_witness :
  _merge_schema_entries (node "a" [leaf "c" ""])
    (node "a" [leaf "b" ""; Elem "entry" ∅ "" []; leaf "c" "x"]) ".a"
  = Raise (SchemaFormatError (missing_name_message ".a")).
Proof.
  apply (X9_unnamed_entry_of_b _ _ _ [leaf "b" ""] [leaf "c" "x"]
           (Elem "entry" ∅ "" [])); reflexivity.
Defined.

Lemma merge_loop_into_empty merge path (bcs acc : list Element) :
  Forall (λ c, is_Some (attrib_name c)) bcs →
  for_each (merge_step merge path) bcs (MergeState ∅ [] acc)
  = Ok (MergeState ∅ [] (acc ++ bcs)).
Proof.
  revert acc. induction bcs as [|bc bcs IH]; intros acc Hall.
  - by rewrite app_nil_r.
  - apply Forall_cons in Hall as [[n Hn] Hall].
    rewrite for_each_cons, (merge_step_named _ _ _ _ _ Hn). simpl ms_dict.
    rewrite lookup_empty. cbn [mbind result_bind]. unfold append_child. simpl.
    rewrite (IH _ Hall). by rewrite <- app_assoc.
Qed.

(** X10: merging into a schema without entries gives it the entries of
    [b], in their order, when they all carry a name. *)
Theorem X10_merge_into_empty (a b : Element) (path : string) :
  children a = [] → all_named (children b) = true →
  _merge_schema_entries a b path
  = Ok (Elem (tag a) (attrib a) (text a) (children b)).
Proof.
  intros Ha Hb%all_named_Forall. rewrite merge_schema_entries_unfold, Ha.
  simpl. by rewrite merge_loop_into_empty.
Qed.

Lemma X10_witness :
  _merge_schema_entries (schema []) (schema [leaf "y" "3"; node "a" [leaf "b" ""]]) ""
  = Ok (Elem (tag (schema [])) (attrib (schema [])) (text (schema []))
             (children (schema [leaf "y" "3"; node "a" [leaf "b" ""]]))).
Proof. apply X10_merge_into_empty; reflexivity. Defined.

(** X11: merging a schema without entries changes nothing, when the
    entries of [a] all carry a name. *)
Theorem X11_merge_empty (a b : Element) (path : string) :
  children b = [] → all_named (children a) = true →
  _merge_schema_entries a b path = Ok a.
Proof.
  intros Hb Ha%all_named_Forall. rewrite merge_schema_entries_unfold, Hb.
  destruct (index_children_named (children a) 0 ∅ Ha) as [d ->].
  simpl. unfold merged_children. simpl.
  rewrite app_nil_r, omap_id_fmap_Some. by destruct a.
Qed.

Lemma X11_witness :
  _merge_schema_entries (schema [leaf "y" "3"; node "a" [leaf "b" ""]]) (schema []) ""
  = Ok (schema [leaf "y" "3"; node "a" [leaf "b" ""]]).
Proof. apply X11_merge_empty; reflexivity. Defined.



(** ** SectionedFileParser *)

Lemma check_required_Ok {V} (required : list string) (fn : string) (d : dict V) :
  check_required required fn d = Ok tt →
  ∀ s, s ∈ required → is_Some (dict_get s d).
Proof.
  induction required as [|s0 required IH]; simpl.
  - by intros _ s ?%elem_of_nil.
  - unfold dict_has. case_bool_decide as Hs0; [|done].
    intros Hrest s [->|Hs]%elem_of_cons; [done|by apply IH].
Qed.

Lemma check_required_missing {V} (pre post : list string) (s fn : string)
    (d : dict V) :
  forallb (λ s', dict_has s' d) pre = true → dict_has s d = false →
  check_required (pre ++ s :: post) fn d
  = Raise (Exception (missing_section_message s fn)).
Proof.
  intros Hpre Hs. induction pre as [|s0 pre IH]; simpl.
  - by rewrite Hs.
  - simpl in Hpre. apply andb_true_iff in Hpre as [-> Hpre]. by apply IH.
Qed.

Lemma dict_has_keys {V} (s : string) (d : dict V) :
  dict_has s d = bool_decide (s ∈ map fst d).
Proof.
  unfold dict_has. apply bool_decide_ext.
  rewrite <- not_eq_None_Some, dict_get_None.
  destruct (decide (s ∈ map fst d)); naive_solver.
Qed.

(** X13: a fragment that parses has every required section, and its
    section names are those that the line loop finds in the file, in the
    same order. *)
Theorem X13_parsed_has_required `{!Externals} (fs : filesystem) (fn : string)
    (cfg : config) (r : dict string) :
  _parse_sectioned_file fs fn cfg = Ok r →
  (∀ s, s ∈ _REQUIRED_COMPONENT_SECTIONS → is_Some (dict_get s r))
  ∧ ∃ text, read_file fs fn = Ok text
            ∧ map fst r = map fst (scan_lines (readlines text)).
Proof.
  intros (text & Hread & Hr & Hc)%parse_sectioned_file_ok. split.
  - by eapply check_required_Ok.
  - exists text. split; [done|]. by eapply render_sections_keys.
Qed.

Lemma X13_witness :
  ∃ r, @_parse_sectioned_file toy fs_xy "/repo/components/x.c" ∅ = Ok r
       ∧ (∀ s, s ∈ _REQUIRED_COMPONENT_SECTIONS → is_Some (dict_get s r))
       ∧ ∃ text, read_file fs_xy "/repo/components/x.c" = Ok text
                 ∧ map fst r = map fst (scan_lines (readlines text)).
Proof.
  assert (∃ r, @_parse_sectioned_file toy fs_xy "/repo/components/x.c" ∅ = Ok r)
    as [r Hr] by (eexists; vm_compute; reflexivity).
  exists r. split; [exact Hr|].
  exact (@X13_parsed_has_required toy fs_xy "/repo/components/x.c" ∅ r Hr).
Defined.

(** X14: when the file is read and every section renders, the first
    required section, in the order of the registry, that has no marker in
    the file makes the parse raise the exception naming that section and
    the file. *)
Theorem X14_missing_required_section `{!Externals} (fs : filesystem)
    (fn : string) (cfg : config) (text : string) (rendered : dict string)
    (pre post : list string) (s : string) :
  read_file fs fn = Ok text →
  render_sections fn cfg (scan_lines (readlines text)) = Ok rendered →
  _REQUIRED_COMPONENT_SECTIONS = pre ++ s :: post →
  forallb (λ s', dict_has s' (scan_lines (readlines text))) pre = true →
  dict_has s (scan_lines (readlines text)) = false →
  _parse_sectioned_file fs fn cfg
  = Raise (Exception (missing_section_message s fn)).
Proof.
  intros Hread Hr Hreq Hpre Hs. unfold _parse_sectioned_file.
  rewrite Hread. cbn [mbind result_bind]. rewrite Hr. cbn [mbind result_bind].
  pose proof (render_sections_keys _ _ _ _ Hr) as Hkeys.
  rewrite Hreq, check_required_missing; [done| |].
  - clear -Hpre Hkeys. induction pre as [|s0 pre IH]; [done|].
    simpl in *. apply andb_true_iff in Hpre as [H0 Hpre].
    rewrite dict_has_keys, Hkeys, <- dict_has_keys, H0. by apply IH.
  - by rewrite dict_has_keys, Hkeys, <- dict_has_keys.
Qed.

Lemma X14_witness :
  @_parse_sectioned_file toy fs_partial "/repo/components/p.c" ∅
  = Raise (Exception (missing_section_message "public_structure_definitions"
                                              "/repo/components/p.c")).
Proof.
  eapply (@X14_missing_required_section toy fs_partial "/repo/components/p.c" ∅
            partial_text _ ["public_headers"; "public_type_definitions"]);
    by vm_compute.
Defined.

Lemma fold_scan_preamble (pre : list string) (st : scan_state) :
  current st = None →
  forallb (λ l, negb (is_marker (rstrip l))) pre = true →
  fold_left scan_line pre st = st.
Proof.
  intros Hcur. induction pre as [|l pre IH]; simpl; [done|].
  intros [Hl Hpre]%andb_true_iff. apply negb_true_iff in Hl.
  unfold scan_line at 2. rewrite Hl, Hcur. by apply IH.
Qed.

(** X15: the lines of a file before its first marker line belong to no
    section: they are dropped. *)
Theorem X15_preamble_discarded (pre rest : list string) :
  forallb (λ l, negb (is_marker (rstrip l))) pre = true →
  scan_lines (pre ++ rest) = scan_lines rest.
Proof.
  intros Hpre. unfold scan_lines.
  rewrite fold_left_app. by rewrite (fold_scan_preamble pre (ScanState [] None) eq_refl Hpre).
Qed.

Lemma X15_witness :
  scan_lines (["// licence" +:+ nl_s; nl_s]
              ++ ["/*| headers |*/" +:+ nl_s; "#include <a.h>" +:+ nl_s])
  = scan_lines ["/*| headers |*/" +:+ nl_s; "#include <a.h>" +:+ nl_s].
Proof. apply X15_preamble_discarded. reflexivity. Defined.

Lemma scan_keys (lines : list string) :
  ∀ st n,
    n ∈ map fst (sections (fold_left scan_line lines st))
    ↔ n ∈ map fst (sections st) ∨ n ∈ marker_names lines.
Proof.
  unfold marker_names.
  induction lines as [|l lines IH]; intros st n; simpl.
  - rewrite elem_of_nil. tauto.
  - rewrite IH. unfold scan_line.
    destruct (is_marker (rstrip l)) eqn:Hl; simpl.
    + rewrite dict_keys_set, elem_of_cons.
      case_bool_decide as Hin.
      * split; [tauto|]. intros [?|[->|?]]; tauto.
      * rewrite elem_of_app, list_elem_of_singleton. tauto.
    + destruct (current st); simpl; [|done].
      by rewrite dict_keys_append_line.
Qed.

(** X16: the sections that the line loop finds are those named on the
    marker lines of the file, each of them once. *)
Theorem X16_sections_are_marker_names (lines : list string) :
  NoDup (map fst (scan_lines lines))
  ∧ ∀ n, n ∈ map fst (scan_lines lines) ↔ n ∈ marker_names lines.
Proof.
  split; [apply scan_lines_NoDup|].
  intros n. unfold scan_lines. rewrite scan_keys. simpl.
  rewrite elem_of_nil. tauto.
Qed.

(** ** ComponentModel *)

Lemma find_skip {A} (f : A → bool) (l l' : list A) :
  (∀ x, In x l → f x = false) → List.find f (l ++ l') = List.find f l'.
Proof.
  induction l as [|x l IH]; intros Hl; simpl; [done|].
  rewrite (Hl x) by by left. apply IH. intros y Hy. apply Hl. by right.
Qed.

Lemma forallb_negb_In {A} (f : A → bool) (l : list A) :
  forallb (λ x, negb (f x)) l = true → ∀ x, In x l → f x = false.
Proof.
  intros Hl x Hx. rewrite forallb_forall in Hl.
  apply negb_true_iff. by apply Hl.
Qed.

(** X17: of the candidate directories of [base_to_top_paths],
    [Component.find] returns the last one that holds the file: a client
    repository shadows the core repository. *)
Theorem X17_find_prefers_last `{!Externals} (fs : filesystem)
    (topdir partial_path : string) (pre post : list string) (path : string) :
  base_to_top_paths topdir ["components"; partial_path] = pre ++ path :: post →
  path_exists fs path = true →
  forallb (λ q, negb (path_exists fs q)) post = true →
  Component_find fs topdir partial_path = Ok path.
Proof.
  intros Hpaths Hpath Hpost. unfold Component_find.
  rewrite Hpaths, rev_app_distr. simpl. rewrite <- app_assoc.
  rewrite find_skip.
  - simpl. by rewrite Hpath.
  - intros x Hx%in_rev. by eapply forallb_negb_In in Hpost.
Qed.

Lemma X17_witness :
  @Component_find client fs_client "/client" "x.c" = Ok "/client/components/x.c".
Proof.
  apply (@X17_find_prefers_last client fs_client "/client" "x.c"
           ["/repo/components/x.c"] []); reflexivity.
Defined.

Section find_facts.
Context `{!Externals}.

Lemma Component_find_nowhere fs topdir n :
  nowhere fs topdir n = true →
  ∃ msg, Component_find fs topdir n = Raise (KeyError msg).
Proof.
  unfold nowhere, Component_find. intros Hno.
  destruct (List.find _ _) as [p|] eqn:Hfind; [|eauto].
  apply find_some in Hfind as [Hin%in_rev Hex].
  eapply forallb_negb_In in Hno; [|done]. congruence.
Qed.

Lemma find_first_nowhere fs topdir names :
  forallb (nowhere fs topdir) names = true →
  find_first fs topdir names = Ok None.
Proof.
  induction names as [|n names IH]; simpl; [done|].
  intros [Hn Hnames]%andb_true_iff.
  destruct (Component_find_nowhere _ _ _ Hn) as [msg ->]. by apply IH.
Qed.
End find_facts.

(** X18: when none of the candidate directories holds [R.c] or [R/R.c] for
    the resource name [R], [Component.parse] raises its own [KeyError],
    which names the resource only, whatever the parsing configuration. *)
Theorem X18_component_not_found `{!Externals} (self : Component)
    (fs : filesystem) (topdir : string) (parsing_configuration : pyobj) :
  forallb (nowhere fs topdir) (component_names (_resource_name self)) = true →
  Component_parse self fs topdir parsing_configuration
  = Raise (KeyError ("Unable to find component " +:+ dq
                     +:+ _resource_name self +:+ dq)).
Proof.
  intros Hno. unfold Component_parse. by rewrite find_first_nowhere.
Qed.

Lemma X18_witness :
  @Component_parse toy comp_y fs_xy "/repo" (PyDict ∅)
  = Raise (KeyError ("Unable to find component " +:+ dq +:+ "y" +:+ dq)).
Proof.
  apply (@X18_component_not_found toy comp_y fs_xy "/repo" (PyDict ∅)).
  reflexivity.
Defined.

(** X19: when none of the candidate directories holds the file of the
    resource for the architecture under either of its two names,
    [ArchitectureComponent.parse] raises the [KeyError] that names the
    resource and the architecture. *)
Theorem X19_arch_component_not_found `{!Externals} (self : Component)
    (fs : filesystem) (topdir : string) (arch : Architecture) :
  forallb (nowhere fs topdir)
          (arch_component_names (arch_name arch) (_resource_name self)) = true →
  ArchitectureComponent_parse self fs topdir (PyArchitecture arch)
  = Raise (KeyError ("Unable to find component " +:+ dq
                     +:+ _resource_name self +:+ dq
                     +:+ " for architecture " +:+ arch_name arch)).
Proof.
  intros Hno. unfold ArchitectureComponent_parse.
  by rewrite find_first_nowhere.
Qed.

Lemma X19_witness :
  @ArchitectureComponent_parse toy ctxt fs_claimed "/repo" (PyArchitecture arm)
  = Raise (KeyError ("Unable to find component " +:+ dq +:+ "ctxt" +:+ dq
                     +:+ " for architecture arm")).
Proof.
  apply (@X19_arch_component_not_found toy ctxt fs_claimed "/repo" arm).
  reflexivity.
Defined.

(** ** SkeletonAssembler *)

Section skeleton_more.
Context `{!Externals}.

Lemma parse_required self fs topdir arg d :
  parse self fs topdir arg = Ok d →
  ∀ s, s ∈ _REQUIRED_COMPONENT_SECTIONS → is_Some (dict_get s d).
Proof.
  intros Hparse.
  assert (∃ path cfg, _parse_sectioned_file fs path cfg = Ok d)
    as (path & cfg & Hfile).
  { revert Hparse. unfold parse, Component_parse, ArchitectureComponent_parse.
    destruct (cls self).
    - destruct (find_first _ _ _) as [[path|]| |]; [|done..].
      cbn [mbind result_bind]. eauto.
    - destruct arg as [|a| |]; [done| |done..].
      destruct (find_first _ _ _) as [[path|]| |]; [|done..].
      cbn [mbind result_bind]. eauto. }
  apply parse_sectioned_file_ok in Hfile as (text & _ & _ & Hc).
  by eapply check_required_Ok.
Qed.

Lemma get_module_sections_parsed fs topdir arch comps :
  ∀ m m',
    for_each (λ module_sections component,
                parsed0 ← parse component fs topdir arch;
                Ok (fold_left add_section parsed0 module_sections))
             comps m = Ok m' →
    ∃ parsed, Forall2 (λ c d, parse c fs topdir arch = Ok d) comps parsed.
Proof.
  induction comps as [|c comps IH]; intros m m'.
  - intros _. exists []. constructor.
  - rewrite for_each_cons.
    destruct (parse c fs topdir arch) as [d| |] eqn:Hc; [|done..].
    cbn [mbind result_bind]. intros [parsed Hparsed]%IH.
    exists (d :: parsed). by constructor.
Qed.

Lemma get_module_sections_fails fs topdir arch pre c post e :
  forallb (parses fs topdir arch) pre = true →
  parse c fs topdir arch = Raise e →
  ∀ m,
    for_each (λ module_sections component,
                parsed0 ← parse component fs topdir arch;
                Ok (fold_left add_section parsed0 module_sections))
             (pre ++ c :: post) m = Raise e.
Proof.
  intros Hpre Hc. induction pre as [|c0 pre IH]; intros m.
  - simpl app. rewrite for_each_cons, Hc. done.
  - simpl in Hpre. apply andb_true_iff in Hpre as [Hc0 Hpre].
    simpl app. rewrite for_each_cons. unfold parses in Hc0.
    destruct (parse c0 fs topdir arch) as [d| |]; [|done..].
    cbn [mbind result_bind]. by apply IH.
Qed.
End skeleton_more.

Lemma contributions_length (s : string) (parsed : list (dict string)) :
  Forall (λ d, is_Some (dict_get s d)) parsed →
  length (contributions s parsed) = length parsed.
Proof.
  unfold contributions. induction 1 as [|d parsed [v Hv] _ IH]; [done|].
  simpl. rewrite Hv. simpl. f_equal. exact IH.
Qed.

Lemma outputs_are_required (ss : string) :
  ss ∈ source_sections ++ header_sections → ss ∈ _REQUIRED_COMPONENT_SECTIONS.
Proof.
  unfold source_sections, header_sections, _REQUIRED_COMPONENT_SECTIONS.
  simpl app. intros Hss.
  repeat (apply elem_of_cons in Hss as [->|Hss]; [repeat constructor|]).
  by apply elem_of_nil in Hss.
Qed.

(** X20: [get_module_sections] parses the components in the order of the
    list and stops at the first one that fails: the error of that component
    is the error of the call. *)
Theorem X20_first_failing_component `{!Externals} (self : RtosSkeleton)
    (fs : filesystem) (topdir : string) (arch : pyobj)
    (pre post : list Component) (c : Component) (e : exn) :
  _components self = pre ++ c :: post →
  forallb (parses fs topdir arch) pre = true →
  parse c fs topdir arch = Raise e →
  get_module_sections self fs topdir arch = Raise e.
Proof.
  intros Hcomps Hpre Hc. unfold get_module_sections. rewrite Hcomps.
  by apply get_module_sections_fails.
Qed.

Lemma X20_witness :
  @get_module_sections toy (@new_skeleton toy "my-os" [comp_x; comp_p; comp_y] ∅)
    fs_xy "/repo" (PyArchitecture arm)
  = Raise (KeyError ("Unable to find component " +:+ dq +:+ "p" +:+ dq)).
Proof.
  apply (@X20_first_failing_component toy
           (@new_skeleton toy "my-os" [comp_x; comp_p; comp_y] ∅)
           fs_xy "/repo" (PyArchitecture arm) [comp_x] [comp_y] comp_p);
    by vm_compute.
Defined.

Lemma module_sections_length `{!Externals} (self : RtosSkeleton)
    (fs : filesystem) (topdir : string) (arch : pyobj)
    (m : gmap string (list string)) (s : string) :
  get_module_sections self fs topdir arch = Ok m →
  s ∈ _REQUIRED_COMPONENT_SECTIONS →
  length (default [] (m !! s)) = length (_components self).
Proof.
  unfold get_module_sections. intros Hm Hs.
  destruct (get_module_sections_parsed _ _ _ _ _ _ Hm) as [parsed Hparsed].
  destruct (get_module_sections_loop fs topdir arch _ _ Hparsed ∅)
    as (m' & Hm' & Hlookup).
  rewrite Hm in Hm'. injection Hm' as <-.
  rewrite Hlookup, lookup_empty.
  assert (length (contributions s parsed) = length (_components self)) as <-.
  { rewrite contributions_length; [symmetry; by eapply Forall2_length|].
    clear -Hparsed Hs. induction Hparsed; constructor; [|done].
    by eapply parse_required. }
  by destruct (contributions s parsed).
Qed.

(** X21: in the mapping that [get_module_sections] returns, every required
    section has exactly one block for each component of the skeleton. *)
Theorem X21_one_block_per_component `{!Externals} (self : RtosSkeleton)
    (fs : filesystem) (topdir : string) (arch : pyobj)
    (m : gmap string (list string)) :
  get_module_sections self fs topdir arch = Ok m →
  ∀ s, s ∈ _REQUIRED_COMPONENT_SECTIONS →
    length (default [] (m !! s)) = length (_components self).
Proof. intros Hm s Hs. by eapply module_sections_length. Qed.

Lemma X21_witness :
  ∃ m, @get_module_sections toy skeleton_xy fs_xy "/repo" (PyArchitecture arm)
       = Ok m
       ∧ ∀ s, s ∈ _REQUIRED_COMPONENT_SECTIONS →
           length (default [] (m !! s)) = length (_components skeleton_xy).
Proof.
  assert (∃ m, @get_module_sections toy skeleton_xy fs_xy "/repo"
                 (PyArchitecture arm) = Ok m) as [m Hm]
    by (eexists; vm_compute; reflexivity).
  exists m. split; [exact Hm|].
  exact (@X21_one_block_per_component toy skeleton_xy fs_xy "/repo"
           (PyArchitecture arm) m Hm).
Defined.

(** ** ModuleWriter *)

Lemma write_header_section_eq (S : gmap string (list string)) (w ss : string) :
  write_header_section S w ss
  = match S !! ss with
    | Some blocks => Ok (fold_left (λ w data, w +:+ data +:+ nl_s) blocks w)
    | None => Raise (KeyError ss)
    end.
Proof. unfold write_header_section, section_blocks. by destruct (S !! ss). Qed.

Lemma write_source_section_eq (S : gmap string (list string)) (w ss : string) :
  write_source_section S w ss
  = match S !! ss with
    | Some blocks =>
        data ← (if String.eqb ss "type_definitions"
                then sort_typedefs (join nl_s blocks) else Ok (join nl_s blocks));
        Ok (w +:+ data +:+ nl_s)
    | None => Raise (KeyError ss)
    end.
Proof. unfold write_source_section, section_blocks. by destruct (S !! ss). Qed.

Lemma write_header_sections_Ok (S : gmap string (list string)) (l : list string) :
  (∀ ss, ss ∈ l → is_Some (S !! ss)) →
  ∀ w, ∃ w', for_each (write_header_section S) l w = Ok w'.
Proof.
  induction l as [|ss l IH]; intros Hl w; [by exists w|].
  rewrite for_each_cons, write_header_section_eq.
  destruct (Hl ss ltac:(left)) as [blocks ->]. cbn [mbind result_bind].
  apply IH. intros ss' Hss'. apply Hl. by right.
Qed.

Lemma write_header_sections_bound (S : gmap string (list string))
    (l : list string) :
  ∀ w r, for_each (write_header_section S) l w = Ok r →
         ∀ ss, ss ∈ l → is_Some (S !! ss).
Proof.
  induction l as [|ss0 l IH]; intros w r Hr ss Hss.
  - by apply elem_of_nil in Hss.
  - rewrite for_each_cons, write_header_section_eq in Hr.
    destruct (S !! ss0) as [blocks|] eqn:Hss0; [|done].
    cbn [mbind result_bind] in Hr.
    apply elem_of_cons in Hss as [->|Hss]; [by rewrite Hss0|by eapply IH].
Qed.

Lemma write_source_sections_bound (S : gmap string (list string))
    (l : list string) :
  ∀ w r, for_each (write_source_section S) l w = Ok r →
         ∀ ss, ss ∈ l → is_Some (S !! ss).
Proof.
  induction l as [|ss0 l IH]; intros w r Hr ss Hss.
  - by apply elem_of_nil in Hss.
  - rewrite for_each_cons, write_source_section_eq in Hr.
    destruct (S !! ss0) as [blocks|] eqn:Hss0; [|done].
    destruct (if String.eqb ss0 "type_definitions" then _ else _)
      as [data| |]; [|done..].
    cbn [mbind result_bind] in Hr.
    apply elem_of_cons in Hss as [->|Hss]; [by rewrite Hss0|by eapply IH].
Qed.

Lemma write_source_sections_sorted (S : gmap string (list string))
    (l : list string) :
  ∀ w r, for_each (write_source_section S) l w = Ok r →
         "type_definitions" ∈ l →
         ∃ sorted,
           sort_typedefs (join nl_s (default [] (S !! "type_definitions")))
           = Ok sorted.
Proof.
  induction l as [|ss0 l IH]; intros w r Hr Hin.
  - by apply elem_of_nil in Hin.
  - rewrite for_each_cons, write_source_section_eq in Hr.
    destruct (S !! ss0) as [blocks|] eqn:Hss0; [|done].
    destruct (String.eqb_spec ss0 "type_definitions") as [->|Hne].
    + rewrite Hss0. simpl.
      destruct (sort_typedefs (join nl_s blocks)) as [sorted| |]; [|done..].
      eauto.
    + cbn [mbind result_bind] in Hr.
      apply elem_of_cons in Hin as [?|Hin]; [done|]. by eapply IH.
Qed.

(** X22: a module configured from a skeleton with at least one component
    binds every section that [_render] looks up, and its header text is
    defined. *)
Theorem X22_configured_module_complete `{!Externals} (self : RtosSkeleton)
    (fs : filesystem) (topdir : string) (arch : pyobj) (m : RtosModule) :
  create_configured_module self fs topdir arch = Ok m →
  _components self ≠ [] →
  (∀ ss, ss ∈ source_sections ++ header_sections →
         is_Some (_sections m !! ss))
  ∧ ∃ h, header_text m = Ok h.
Proof.
  unfold create_configured_module. intros Hm Hne.
  destruct (get_module_sections self fs topdir arch) as [S| |] eqn:HS;
    [|done..].
  cbn [mbind result_bind] in Hm.
  destruct arch as [|a| |]; [done| |done..]. injection Hm as <-. simpl.
  assert (∀ ss, ss ∈ source_sections ++ header_sections → is_Some (S !! ss))
    as Hbound.
  { intros ss Hss%outputs_are_required.
    pose proof (module_sections_length self fs topdir _ S ss HS Hss)
      as Hlen.
    destruct (S !! ss); [done|]. simpl in Hlen.
    destruct (_components self); [done|discriminate]. }
  split; [done|]. unfold header_text. cbv zeta. simpl _sections.
  edestruct (write_header_sections_Ok S header_sections) as [w' ->]; [|eauto].
  intros ss Hss. apply Hbound, elem_of_app. by right.
Qed.

Lemma X22_witness :
  ∃ m, @create_configured_module toy skeleton_xy fs_xy "/repo"
         (PyArchitecture arm) = Ok m
       ∧ (∀ ss, ss ∈ source_sections ++ header_sections →
                is_Some (_sections m !! ss))
       ∧ ∃ h, @header_text toy m = Ok h.
Proof.
  assert (∃ m, @create_configured_module toy skeleton_xy fs_xy "/repo"
                 (PyArchitecture arm) = Ok m) as [m Hm]
    by (eexists; vm_compute; reflexivity).
  exists m. split; [exact Hm|].
  apply (@X22_configured_module_complete toy skeleton_xy fs_xy "/repo"
           (PyArchitecture arm) m Hm).
  discriminate.
Defined.

Lemma makedirs_again fs d fs1 :
  makedirs fs d = Ok fs1 → makedirs fs1 d = Ok fs1.
Proof.
  intros Hd%makedirs_Ok. unfold makedirs. by rewrite Hd.
Qed.

Lemma makedirs_lookup_ne fs d fs1 p :
  makedirs fs d = Ok fs1 → p ≠ d → fs1 !! p = fs !! p.
Proof.
  unfold makedirs. destruct (fs !! d) as [[|]|]; [done| |].
  - by intros [= <-].
  - intros [= <-] Hne. by rewrite lookup_insert_ne.
Qed.

Lemma written_lookup (fs : filesystem) (fn text p : string) :
  close_w (<[fn := File ""]> fs) fn text !! p
  = if decide (p = fn) then Some (File text) else fs !! p.
Proof.
  unfold close_w. case_decide as Hp.
  - subst. by rewrite lookup_insert_eq.
  - by rewrite !lookup_insert_ne.
Qed.

Lemma copyfile_Ok fs src dst fs' :
  copyfile fs src dst = Ok fs' →
  ∃ text, read_file fs src = Ok text ∧ fs' !! dst = Some (File text).
Proof.
  unfold copyfile. destruct (String.eqb src dst); [done|].
  destruct (read_file fs src) as [text| |]; [|done..]. cbn [mbind result_bind].
  destruct (open_w fs dst) as [fs1| |] eqn:Ho; [|done..]. cbn [mbind result_bind].
  intros [= <-]. exists text. split; [done|]. apply lookup_insert_eq.
Qed.

Lemma read_file_ext (fs fs1 : filesystem) (fn : string) :
  fs1 !! fn = fs !! fn → read_file fs1 fn = read_file fs fn.
Proof. unfold read_file. by intros ->. Qed.

Lemma str_app_eq_self (d y : string) : d +:+ y = d → y = "".
Proof.
  induction d as [|c d IH]; simpl; [done|]. intros [= H]. by apply IH.
Qed.

Lemma path_join_ne_dir (d x : string) :
  startswith x "/" = false → x ≠ "" → path_join d x ≠ d.
Proof.
  unfold path_join. intros -> Hx.
  destruct (String.eqb d "" || endswith d "/"); intros Heq.
  - by apply str_app_eq_self in Heq.
  - by apply str_app_eq_self in Heq.
Qed.

Ltac path_ne :=
  let Heq := fresh "Heq" in
  intros Heq; apply path_join_inj in Heq; [|done..];
  first [done | by apply String.app_inj in Heq].

Section render_facts.
Context `{!Externals}.

(** The steps of a successful [_render]. *)
Lemma render_Ok self fs fs' :
  _render self fs = Ok fs' →
  let d := base_path ["packages"; arch_name (_arch self); _module_name self] in
  let src := path_join d (_module_name self +:+ ".c") in
  let hdr := path_join d (_module_name self +:+ ".h") in
  let cfg := path_join d "schema.xml" in
  ∃ fs1 source h schema,
    makedirs fs d = Ok fs1
    ∧ for_each (write_source_section (_sections self)) source_sections ""
      = Ok source
    ∧ header_text self = Ok h
    ∧ _merge_schema_sections (default [] (_sections self !! "schema"))
      = Ok schema
    ∧ copyfile
        (close_w (<[cfg := File ""]>
           (close_w (<[hdr := File ""]>
              (close_w (<[src := File ""]> fs1) src source)) hdr h))
           cfg (xml_prologue +:+ schema))
        (_python_file self) (path_join d "entity.py")
      = Ok fs'.
Proof.
  intros Hr d src hdr cfg. revert Hr. unfold _render, _module_dir.
  fold d. fold src. fold hdr. fold cfg.
  destruct (makedirs fs d) as [fs1| |] eqn:Hd; [|intros Hx; discriminate Hx..].
  cbn [mbind result_bind].
  repeat (rewrite (makedirs_again _ _ _ Hd); cbn [mbind result_bind]).
  fold src. fold hdr. fold cfg.
  destruct (open_w fs1 src) as [fs5| |] eqn:Ho5; [|intros Hx; discriminate Hx..].
  cbn [mbind result_bind]. apply open_w_Ok in Ho5 as ->.
  destruct (for_each _ source_sections _) as [source| |]; [|intros Hx; discriminate Hx..].
  cbn [mbind result_bind].
  destruct (open_w _ hdr) as [fs6| |] eqn:Ho6; [|intros Hx; discriminate Hx..].
  cbn [mbind result_bind]. apply open_w_Ok in Ho6 as ->.
  destruct (header_text self) as [h| |]; [|intros Hx; discriminate Hx..]. cbn [mbind result_bind].
  destruct (open_w _ cfg) as [fs7| |] eqn:Ho7; [|intros Hx; discriminate Hx..].
  cbn [mbind result_bind]. apply open_w_Ok in Ho7 as ->.
  destruct (_merge_schema_sections _) as [schema0| |]; [|intros Hx; discriminate Hx..].
  cbn [mbind result_bind]. intros Hcopy.
  by exists fs1, source, h, schema0.
Qed.

Lemma header_text_bound self h :
  header_text self = Ok h →
  ∀ ss, ss ∈ header_sections → is_Some (_sections self !! ss).
Proof.
  unfold header_text. cbv zeta.
  destruct (for_each _ header_sections _) as [w| |] eqn:Hw; [|done..].
  intros _. by eapply write_header_sections_bound.
Qed.

Lemma render_requires self fs fs' :
  _render self fs = Ok fs' →
  (∀ ss, ss ∈ source_sections ++ header_sections →
         is_Some (_sections self !! ss))
  ∧ ∃ sorted,
      sort_typedefs
        (join nl_s (default [] (_sections self !! "type_definitions")))
      = Ok sorted.
Proof.
  intros (fs1 & source & h & schema0 & _ & Hsrc & Hh & _)%render_Ok. split.
  - intros ss [Hss|Hss]%elem_of_app.
    + by eapply write_source_sections_bound.
    + by eapply header_text_bound.
  - eapply write_source_sections_sorted; [done|].
    unfold source_sections. repeat constructor.
Qed.
End render_facts.

(** X23: a successful [_render] needs every one of the ten source sections
    and the six header sections in the module's mapping, and a block of
    type definitions that [sort_typedefs] accepts. *)
Theorem X23_render_requires_sections `{!Externals} (self : RtosModule)
    (fs fs' : filesystem) :
  _render self fs = Ok fs' →
  (∀ ss, ss ∈ source_sections ++ header_sections →
         is_Some (_sections self !! ss))
  ∧ ∃ sorted,
      sort_typedefs
        (join nl_s (default [] (_sections self !! "type_definitions")))
      = Ok sorted.
Proof. apply render_requires. Qed.

Lemma X23_witness :
  @_render toy module_xy fs_xy = Ok rendered_xy
  ∧ (∀ ss, ss ∈ source_sections ++ header_sections →
           is_Some (_sections module_xy !! ss))
  ∧ ∃ sorted,
      sort_typedefs
        (join nl_s (default [] (_sections module_xy !! "type_definitions")))
      = Ok sorted.
Proof.
  assert (@_render toy module_xy fs_xy = Ok rendered_xy) as Hfs
    by (vm_compute; reflexivity).
  split; [exact Hfs|].
  exact (@X23_render_requires_sections toy module_xy fs_xy rendered_xy Hfs).
Defined.

(** X24: a skeleton without components cannot be generated: its module
    has no sections, and [generate_rtos_module] fails for any non-empty
    list of architectures. *)
Theorem X24_empty_skeleton_not_generated `{!Externals} (fs : filesystem)
    (topdir : string) (skeleton : RtosSkeleton)
    (architectures : list Architecture) (fs' : filesystem) :
  _components skeleton = [] → architectures ≠ [] →
  generate_rtos_module fs topdir skeleton architectures ≠ Ok fs'.
Proof.
  intros Hcomps Harchs. destruct architectures as [|arch rest]; [done|].
  unfold generate_rtos_module. rewrite for_each_cons.
  unfold create_configured_module, get_module_sections. rewrite Hcomps.
  simpl for_each. cbn [mbind result_bind].
  destruct (_render _ fs) as [fs1| |] eqn:Hr; [|done..].
  apply render_requires in Hr as [Hbound _].
  destruct (Hbound "headers") as [blocks Hblocks].
  - unfold source_sections. simpl app. by left.
  - simpl in Hblocks. by rewrite lookup_empty in Hblocks.
Qed.

Lemma X24_witness :
  @generate_rtos_module toy fs_xy "/repo" (@new_skeleton toy "my-os" [] ∅) [arm]
  ≠ Ok fs_xy.
Proof.
  apply (@X24_empty_skeleton_not_generated toy fs_xy "/repo"
           (@new_skeleton toy "my-os" [] ∅) [arm] fs_xy);
    [reflexivity|discriminate].
Defined.



(** X26: after a successful [_render] the module directory exists, the
    source file holds the text of the loop over the source sections, and
    the schema file holds the XML declaration followed by the merged
    schema. *)
Theorem X26_render_artifacts `{!Externals} (self : RtosModule)
    (fs fs' : filesystem) :
  _render self fs = Ok fs' →
  let d := base_path ["packages"; arch_name (_arch self); _module_name self] in
  ∃ source schema,
    for_each (write_source_section (_sections self)) source_sections ""
    = Ok source
    ∧ _merge_schema_sections (default [] (_sections self !! "schema"))
      = Ok schema
    ∧ fs' !! d = Some Dir
    ∧ fs' !! path_join d (_module_name self +:+ ".c") = Some (File source)
    ∧ fs' !! path_join d "schema.xml" = Some (File (xml_prologue +:+ schema)).
Proof.
  intros (fs1 & source & h & schema0 & Hd & Hsrc & _ & Hsch & Hcopy)%render_Ok d.
  exists source, schema0. split_and!; [done|done|..].
  - rewrite (copyfile_lookup_ne _ _ _ _ _ Hcopy)
      by (symmetry; by apply path_join_ne_dir).
    rewrite !written_lookup, !decide_False
      by (symmetry; by apply path_join_ne_dir).
    by eapply makedirs_Ok.
  - rewrite (copyfile_lookup_ne _ _ _ _ _ Hcopy)
      by path_ne.
    rewrite written_lookup, decide_False
      by path_ne.
    rewrite written_lookup, decide_False
      by path_ne.
    by rewrite written_lookup, decide_True.
  - rewrite (copyfile_lookup_ne _ _ _ _ _ Hcopy)
      by path_ne.
    by rewrite written_lookup, decide_True.
Qed.

Lemma X26_witness :
  @_render toy module_xy fs_xy = Ok rendered_xy
  ∧ let d := @base_path toy ["packages"; arch_name (_arch module_xy);
                             _module_name module_xy] in
    ∃ source schema,
      for_each (write_source_section (_sections module_xy)) source_sections ""
      = Ok source
      ∧ @_merge_schema_sections toy
          (default [] (_sections module_xy !! "schema")) = Ok schema
      ∧ rendered_xy !! d = Some Dir
      ∧ rendered_xy !! path_join d (_module_name module_xy +:+ ".c")
        = Some (File source)
      ∧ rendered_xy !! path_join d "schema.xml"
        = Some (File (xml_prologue +:+ schema)).
Proof.
  assert (@_render toy module_xy fs_xy = Ok rendered_xy) as Hfs
    by (vm_compute; reflexivity).
  split; [exact Hfs|].
  exact (@X26_render_artifacts toy module_xy fs_xy rendered_xy Hfs).
Defined.

(** X27: when the skeleton's Python file is not one of the paths that
    [_render] writes, a successful [_render] leaves in [entity.py] the text
    that the Python file had before the call. *)
Theorem X27_render_copies_python_file `{!Externals} (self : RtosModule)
    (fs fs' : filesystem) :
  _render self fs = Ok fs' →
  bool_decide (_python_file self ∈ module_outputs self) = false →
  let d := base_path ["packages"; arch_name (_arch self); _module_name self] in
  ∃ text, read_file fs (_python_file self) = Ok text
          ∧ fs' !! path_join d "entity.py" = Some (File text).
Proof.
  intros (fs1 & source & h & schema0 & Hd & _ & _ & _ & Hcopy)%render_Ok Hp d.
  apply bool_decide_eq_false in Hp. unfold module_outputs in Hp. cbv zeta in Hp.
  rewrite !not_elem_of_cons in Hp.
  destruct Hp as (Hpd & Hpy & Hsrc & Hhdr & Hcfg & _).
  apply copyfile_Ok in Hcopy as (text & Hread & Hpyf).
  exists text. split; [|done]. rewrite <- Hread. symmetry.
  apply read_file_ext.
  rewrite !written_lookup, !decide_False by done.
  by eapply makedirs_lookup_ne.
Qed.

Lemma X27_witness :
  @_render toy module_xy fs_xy = Ok rendered_xy
  ∧ let d := @base_path toy ["packages"; arch_name (_arch module_xy);
                             _module_name module_xy] in
    ∃ text, read_file fs_xy (_python_file module_xy) = Ok text
            ∧ rendered_xy !! path_join d "entity.py" = Some (File text).
Proof.
  assert (@_render toy module_xy fs_xy = Ok rendered_xy) as Hfs
    by (vm_compute; reflexivity).
  split; [exact Hfs|].
  apply (@X27_render_copies_python_file toy module_xy fs_xy rendered_xy Hfs).
  by vm_compute.
Defined.

(** ** Builder *)

Lemma for_each_app {A S} (body : S → A → result S) (l1 l2 : list A) :
  ∀ s, for_each body (l1 ++ l2) s = for_each body l1 s ≫= for_each body l2.
Proof.
  induction l1 as [|x l1 IH]; intros s; [done|].
  simpl app. rewrite !for_each_cons.
  destruct (body s x) as [s'| |]; [|done..]. cbn [mbind result_bind]. apply IH.
Qed.

Lemma getitem_Some {V} (d : gmap string V) (k : string) (v : V) :
  d !! k = Some v → getitem d k = Ok v.
Proof. unfold getitem. by intros ->. Qed.

Lemma getitem_None {V} (d : gmap string V) (k : string) :
  d !! k = None → getitem d k = Raise (KeyError k).
Proof. unfold getitem. by intros ->. Qed.

Lemma architectures_unknown (A : gmap string Architecture)
    (known rest : list string) (arch : string) :
  forallb (λ a, bool_decide (is_Some (A !! a))) known = true →
  A !! arch = None →
  ∀ acc,
    for_each (λ acc arch0, a ← getitem A arch0; Ok (acc ++ [a]))
             (known ++ arch :: rest) acc
    = Raise (KeyError arch).
Proof.
  intros Hknown Harch. induction known as [|a0 known IH]; intros acc.
  - simpl app. rewrite for_each_cons. cbn beta.
    by rewrite (getitem_None _ _ Harch).
  - simpl in Hknown. apply andb_true_iff in Hknown as [Ha0 Hknown].
    apply bool_decide_eq_true in Ha0 as [a Ha].
    simpl app. rewrite for_each_cons. cbn beta.
    rewrite (getitem_Some _ _ _ Ha). cbn [mbind result_bind]. by apply IH.
Qed.

Section build_facts.
Context `{!Externals}.

Lemma build_one_unknown_skeleton args fs rtos_name arch_names :
  args_skeletons args !! rtos_name = None →
  build_one args fs (rtos_name, arch_names) = Raise (KeyError rtos_name).
Proof. intros Hsk. unfold build_one. by rewrite (getitem_None _ _ Hsk). Qed.

Lemma build_one_unknown_architecture args fs rtos_name skeleton known arch rest :
  args_skeletons args !! rtos_name = Some skeleton →
  forallb (λ a, bool_decide (is_Some (args_architectures args !! a))) known
  = true →
  args_architectures args !! arch = None →
  build_one args fs (rtos_name, known ++ arch :: rest) = Raise (KeyError arch).
Proof.
  intros Hsk Hknown Harch. unfold build_one.
  rewrite (getitem_Some _ _ _ Hsk). cbn [mbind result_bind].
  by rewrite architectures_unknown.
Qed.
End build_facts.

(** X28: [build] handles the configurations in their order; at the first
    RTOS name without a skeleton it raises the [KeyError] of that name,
    whatever architectures the configuration lists. *)
Theorem X28_build_unknown_skeleton `{!Externals} (args : build_args)
    (fs fs1 : filesystem) (pre post : dict (list string))
    (rtos_name : string) (arch_names : list string) :
  args_configurations args = pre ++ (rtos_name, arch_names) :: post →
  for_each (build_one args) pre fs = Ok fs1 →
  args_skeletons args !! rtos_name = None →
  build args fs = Raise (KeyError rtos_name).
Proof.
  intros Hconf Hpre Hsk. unfold build.
  rewrite Hconf, for_each_app, Hpre. cbn [mbind result_bind].
  by rewrite for_each_cons, build_one_unknown_skeleton.
Qed.

Lemma X28_witness :
  @build toy (args_xy [("my-os", []); ("your-os", ["arm"])]) fs_xy
  = Raise (KeyError "your-os").
Proof.
  apply (@X28_build_unknown_skeleton toy
           (args_xy [("my-os", []); ("your-os", ["arm"])]) fs_xy fs_xy
           [("my-os", [])] [] "your-os" ["arm"]); reflexivity.
Defined.

(** X29: the architectures of a configuration are all looked up before
    anything is generated for it: an unknown architecture name raises the
    [KeyError] of that name, whatever the skeleton and the file system
    hold, also when architectures listed before it are known. *)
Theorem X29_build_unknown_architecture `{!Externals} (args : build_args)
    (fs fs1 : filesystem) (pre post : dict (list string))
    (rtos_name : string) (skeleton : RtosSkeleton)
    (known rest : list string) (arch : string) :
  args_configurations args = pre ++ (rtos_name, known ++ arch :: rest) :: post →
  for_each (build_one args) pre fs = Ok fs1 →
  args_skeletons args !! rtos_name = Some skeleton →
  forallb (λ a, bool_decide (is_Some (args_architectures args !! a))) known
  = true →
  args_architectures args !! arch = None →
  build args fs = Raise (KeyError arch).
Proof.
  intros Hconf Hpre Hsk Hknown Harch. unfold build.
  rewrite Hconf, for_each_app, Hpre. cbn [mbind result_bind].
  by rewrite for_each_cons, (build_one_unknown_architecture _ _ _ skeleton).
Qed.

Lemma X29_witness :
  @build toy (args_xy [("my-os", ["arm"; "x86"])]) fs_xy
  = Raise (KeyError "x86").
Proof.
  apply (@X29_build_unknown_architecture toy
           (args_xy [("my-os", ["arm"; "x86"])]) fs_xy fs_xy
           [] [] "my-os" skeleton_xy ["arm"] []); reflexivity.
Defined.
